(** * ia2audio: capture, transcription and assembly pipeline

    A shallow embedding of the three TypeScript programs of the repository
    (the Internet Archive capture loop, the OCR transcription loop and the
    Markdown assembler) together with the properties of their specification.

    Conventions of the embedding.
    - A JavaScript string is a [list ascii]: code units below 256.  The
      whitespace class of regular expressions is the JavaScript one
      restricted to that range (TAB, LF, VT, FF, CR, SPACE, NBSP).
    - JavaScript numbers that hold counters, indices and page numbers are
      [nat] or [Z]; NaN and fractions are outside the model.
    - Regular expressions are kept as data (a list of items) and run by a
      small backtracking matcher that follows the ECMAScript rules for the
      constructs the sources use: greedy quantifiers over one character
      class, multiline anchors, capture groups, leftmost match, and the
      [lastIndex] discipline of global replacement. *)

From Stdlib Require Import Ascii String DecimalString DecimalNat.
From Stdlib Require Import Bool Arith ZArith Lia List.
From Stdlib Require Import Sorted Permutation.
Import ListNotations.

Set Implicit Arguments.
Local Open Scope list_scope.

(* ================================================================== *)
(** * Part I.  Definitions *)
(* ================================================================== *)

(** ** Text *)

Module Text.

Definition text := list ascii.

Definition lit (s : string) : text := list_ascii_of_string s.

Definition nl : ascii := "010"%char.
Definition cr : ascii := "013"%char.
Definition sp : ascii := " "%char.

Definition code (a : ascii) : nat := nat_of_ascii a.

Definition isDigit (a : ascii) : bool :=
  (48 <=? code a) && (code a <=? 57).

(** [\s] on code units below 256. *)
Definition isSpace (a : ascii) : bool :=
  let n := code a in
  ((9 <=? n) && (n <=? 13)) || (n =? 32) || (n =? 160).

(** Line terminators below 256: LF and CR. *)
Definition isLT (a : ascii) : bool :=
  let n := code a in (n =? 10) || (n =? 13).

Definition lower (a : ascii) : ascii :=
  let n := code a in
  if (65 <=? n) && (n <=? 90) then ascii_of_nat (n + 32) else a.

Definition digitVal (a : ascii) : Z := Z.of_nat (code a - 48).

Fixpoint dropWhile (p : ascii -> bool) (s : text) : text :=
  match s with
  | a :: s' => if p a then dropWhile p s' else s
  | [] => []
  end.

Fixpoint takeWhile (p : ascii -> bool) (s : text) : text :=
  match s with
  | a :: s' => if p a then a :: takeWhile p s' else []
  | [] => []
  end.

(** [String.prototype.trim]. *)
Definition trimStart (s : text) : text := dropWhile isSpace s.
Definition trimEnd (s : text) : text := rev (dropWhile isSpace (rev s)).
Definition trim (s : text) : text := trimEnd (trimStart s).

(** [Array.prototype.join]. *)
Fixpoint join (sep : text) (l : list text) : text :=
  match l with
  | [] => []
  | [x] => x
  | x :: l' => x ++ sep ++ join sep l'
  end.

(** [`${n}`] for a non-negative integer. *)
Definition ofNat (n : nat) : text :=
  lit (NilEmpty.string_of_uint (Nat.to_uint n)).

(** [String.prototype.padStart(width, '0')]. *)
Definition padStart0 (width : nat) (s : text) : text :=
  repeat "0"%char (width - length s) ++ s.

End Text.
Import Text.

(** ** Regular expressions *)

Module Regex.

Inductive cls : Type :=
| CChar (a : ascii)      (* a literal character *)
| CCharI (a : ascii)     (* a literal character under the [i] flag *)
| CDigit                 (* \d *)
| CSpace                 (* \s *)
| CAny.                  (* .  *)

Inductive item : Type :=
| IBol                               (* ^ under the [m] flag *)
| IEol                               (* $ under the [m] flag *)
| IOne (c : cls)                     (* one character *)
| IRep (cap : bool) (c : cls) (min : nat).
    (* c{min,}, greedy; [cap] when it is wrapped in a capture group *)

Definition regex := list item.

Definition cmatch (c : cls) (a : ascii) : bool :=
  match c with
  | CChar b => Ascii.eqb a b
  | CCharI b => Ascii.eqb (lower a) (lower b)
  | CDigit => isDigit a
  | CSpace => isSpace a
  | CAny => negb (isLT a)
  end.

(** The character before the current position; [None] at the start. *)
Definition atBol (prev : option ascii) : bool :=
  match prev with
  | None => true
  | Some a => isLT a
  end.

Definition atEol (s : text) : bool :=
  match s with
  | [] => true
  | a :: _ => isLT a
  end.

Definition result := option (nat * list text).

(** The character before the position reached after [run]. *)
Definition prevAfter (prev : option ascii) (run : text) : option ascii :=
  fold_left (fun _ a => Some a) run prev.

(** Greedy repetition of one class: take as many characters as possible,
    and give them back one at a time while the continuation fails. *)
Fixpoint greedy (c : cls)
  (exit : nat -> text -> option ascii -> text -> result)
  (n : nat) (acc : text) (prev : option ascii) (s : text) {struct s} : result :=
  match s with
  | a :: s' =>
      if cmatch c a then
        match greedy c exit (S n) (a :: acc) (Some a) s' with
        | Some r => Some r
        | None => exit n acc prev s
        end
      else exit n acc prev s
  | [] => exit n acc prev s
  end.

(** Match the items at the current position; the result is the number of
    characters consumed and the captured groups, in order. *)
Fixpoint matchHere (r : regex) (prev : option ascii) (s : text) {struct r} : result :=
  match r with
  | [] => Some (0, [])
  | IBol :: r' => if atBol prev then matchHere r' prev s else None
  | IEol :: r' => if atEol s then matchHere r' prev s else None
  | IOne c :: r' =>
      match s with
      | a :: s' =>
          if cmatch c a then
            match matchHere r' (Some a) s' with
            | Some (k, caps) => Some (S k, caps)
            | None => None
            end
          else None
      | [] => None
      end
  | IRep cap c min :: r' =>
      greedy c
        (fun n acc prev' s' =>
           if min <=? n then
             match matchHere r' prev' s' with
             | Some (k, caps) =>
                 Some (n + k, if cap then rev acc :: caps else caps)
             | None => None
             end
           else None)
        0 [] prev s
  end.

(** Leftmost match at or after the current position: start offset, length
    and captures ([RegExp.prototype.exec]). *)
Fixpoint search (r : regex) (pos : nat) (prev : option ascii) (s : text)
  {struct s} : option (nat * nat * list text) :=
  match matchHere r prev s with
  | Some (len, caps) => Some (pos, len, caps)
  | None =>
      match s with
      | a :: s' => search r (S pos) (Some a) s'
      | [] => None
      end
  end.

Definition exec (r : regex) (s : text) := search r 0 None s.

(** [RegExp.prototype.test]. *)
Definition test (r : regex) (s : text) : bool :=
  match exec r s with Some _ => true | None => false end.

(** [String.prototype.replace] with a regex without the [g] flag and a
    replacement free of [$]: the leftmost match only. *)
Definition replaceFirst (r : regex) (repl : text) (s : text) : text :=
  match exec r s with
  | Some (p, len, _) => firstn p s ++ repl ++ skipn (p + len) s
  | None => s
  end.

(** Global replacement.  [skip] counts the characters of the current match
    that are still to be dropped.  After a match of positive length the
    next attempt starts where it ended; after an empty match the next
    attempt starts one character further ([AdvanceStringIndex]). *)
Fixpoint replaceGo (r : regex) (repl : text) (skip : nat)
  (prev : option ascii) (s : text) {struct s} : text :=
  match skip with
  | S k =>
      match s with
      | a :: s' => replaceGo r repl k (Some a) s'
      | [] => []
      end
  | 0 =>
      match matchHere r prev s with
      | Some (S len, _) =>
          repl ++
          match s with
          | a :: s' => replaceGo r repl len (Some a) s'
          | [] => []
          end
      | Some (0, _) =>
          repl ++
          match s with
          | a :: s' => a :: replaceGo r repl 0 (Some a) s'
          | [] => []
          end
      | None =>
          match s with
          | a :: s' => a :: replaceGo r repl 0 (Some a) s'
          | [] => []
          end
      end
  end.

Definition replaceAll (r : regex) (repl : text) (s : text) : text :=
  replaceGo r repl 0 None s.

End Regex.
Import Regex.

(** ** Shared types ([types.ts]) *)

Record ContentChunk : Type := mkChunk {
  index : Z;
  page : Z;
  chunkText : text;
  screenshot : text
}.

Record TocItem : Type := mkToc {
  title : text;
  tocPage : option Z;      (* [page?: number] *)
  total : Z
}.

Record PageChunk : Type := mkPage {
  pgIndex : nat;
  pgPage : Z;
  pgTotal : Z;
  pgScreenshot : text
}.

(** [a || b] on numbers. *)
Definition orElse (a b : Z) : Z := if (a =? 0)%Z then b else a.

(** [Array.prototype.findIndex]; [None] stands for [-1]. *)
Fixpoint findIndex (A : Type) (p : A -> bool) (l : list A) : option nat :=
  match l with
  | [] => None
  | x :: l' => if p x then Some 0 else option_map S (findIndex p l')
  end.

(** [Array.prototype.slice(from, to)] for [0 <= from] and [0 <= to]. *)
Definition slice (A : Type) (from to : nat) (l : list A) : list A :=
  firstn (to - from) (skipn from l).

(** [Array.prototype.sort] with a comparator: stable insertion. *)
Fixpoint insertBy (A : Type) (cmp : A -> A -> Z) (x : A) (l : list A) : list A :=
  match l with
  | [] => [x]
  | y :: l' => if (cmp x y <=? 0)%Z then x :: l else y :: insertBy cmp x l'
  end.

Definition sortBy (A : Type) (cmp : A -> A -> Z) (l : list A) : list A :=
  fold_right (insertBy cmp) [] l.

(** The comparator of both programs: by index, then by page. *)
Definition chunkCmp (a b : ContentChunk) : Z :=
  if negb (index a =? index b)%Z then (index a - index b)%Z
  else (page a - page b)%Z.

(** ** The transcription program ([transcribe-book-content.ts], first
    program) *)

Module Transcribe.

(** [/0*(\d+)-\0*(\d+).png/]; [\0] is the NUL character. *)
Definition reScreenshot : regex :=
  [ IRep false (CChar "0"%char) 0;
    IRep true CDigit 1;
    IOne (CChar "-"%char);
    IRep false (CChar zero) 0;
    IRep true CDigit 1;
    IOne CAny;
    IOne (CChar "p"%char); IOne (CChar "n"%char); IOne (CChar "g"%char) ].

(** The number that a string of decimal digits denotes, from [acc] on. *)
Definition digitsValue (ds : text) (acc : Z) : Z :=
  fold_left (fun acc d => (10 * acc + digitVal d)%Z) ds acc.

(** [Number.parseInt(s, 10)]; [None] is NaN. *)
Definition parseInt (s : text) : option Z :=
  let s1 := dropWhile isSpace s in
  let '(neg, s2) :=
    match s1 with
    | a :: t =>
        if Ascii.eqb a "-"%char then (true, t)
        else if Ascii.eqb a "+"%char then (false, t)
        else (false, s1)
    | [] => (false, s1)
    end in
  match takeWhile isDigit s2 with
  | [] => None
  | ds =>
      let v := digitsValue ds 0 in
      Some (if neg then (- v)%Z else v)
  end.

Definition nonEmpty (s : text) : bool :=
  match s with [] => false | _ => true end.

(** Lines 31-41: the two asserts on the file name; [None] when one of them
    throws. *)
Definition parseScreenshot (path : text) : option (Z * Z) :=
  match exec reScreenshot path with
  | Some (_, _, [g1; g2]) =>
      if nonEmpty g1 && nonEmpty g2 then
        match parseInt g1, parseInt g2 with
        | Some i, Some p => Some (i, p)
        | _, _ => None
        end
      else None
  | _ => None
  end.

(** [/^\s*\d+\s*$\n+/m] *)
Definition rePageNumber : regex :=
  [ IBol; IRep false CSpace 0; IRep false CDigit 1; IRep false CSpace 0;
    IEol; IRep false (CChar nl) 1 ].
(** [/^\s*/gm] *)
Definition reLineStart : regex := [ IBol; IRep false CSpace 0 ].
(** [/\s*$/gm] *)
Definition reLineEnd : regex := [ IRep false CSpace 0; IEol ].

(** Lines 71-74. *)
Definition stripPageNumber (rawText : text) : text :=
  replaceFirst rePageNumber [] rawText.

Definition cleanResponse (rawText : text) : text :=
  replaceAll reLineEnd []
    (replaceAll reLineStart []
       (stripPageNumber rawText)).

(** [/i'm sorry/i] *)
Definition reRefusal : regex :=
  map (fun a => IOne (CCharI a)) (lit "i'm sorry").

(** Line 79. *)
Definition isRefusal (t : text) : bool :=
  (length t <? 100) && test reRefusal t.

Inductive temperature : Type := Temp0 | Temp05.

(** What one image's task does that can be observed from outside. *)
Inductive event : Type :=
| Call (retries : nat) (temp : temperature) (justified : bool)
| Delay (ms : nat).

Inductive outcome : Type :=
| Done (c : ContentChunk)     (* [return result] *)
| Failed                      (* an exception reached [catch]: undefined *)
| Running.                    (* the loop has not left yet *)

(** The recognition service, as seen by one image: the answer to the call
    made when [retries] calls were made before; [None] when the request
    throws or the answer has no content. *)
Definition service := nat -> option text.

(** Lines 44-99: the do-while loop.  [fuel] bounds the number of iterations
    that are run; [Running] is the answer when it is used up. *)
Fixpoint ocrLoop (fuel : nat) (maxRetries : nat) (idx pg : Z) (path : text)
  (svc : service) (retries : nat) : outcome * list event :=
  match fuel with
  | 0 => (Running, [])
  | S fuel' =>
      let call :=
        Call retries (if retries <? 2 then Temp0 else Temp05) (2 <? retries) in
      match svc retries with
      | None => (Failed, [call])
      | Some rawText =>
          let text := cleanResponse rawText in
          let retries := S retries in
          if negb (nonEmpty text) then
            let '(o, tr) := ocrLoop fuel' maxRetries idx pg path svc retries in
            (o, call :: tr)
          else if isRefusal text then
            if maxRetries <=? retries then (Failed, [call])
            else
              let '(o, tr) := ocrLoop fuel' maxRetries idx pg path svc retries in
              (o, call :: Delay (Nat.min (500 * retries) 5000) :: tr)
          else (Done (mkChunk idx pg text path), [call])
      end
  end.

Definition calls (tr : list event) : nat :=
  length (filter (fun e => match e with Call _ _ _ => true | _ => false end) tr).

Definition delays (tr : list event) : list nat :=
  flat_map (fun e => match e with Delay ms => [ms] | _ => [] end) tr.

(** The whole run. *)
Inductive run : Type :=
| Written (content : list ContentChunk)   (* [content.json] *)
| Aborted                                 (* an assert rejected [main] *)
| Pending.                                (* [Promise.all] has not settled *)

(** Lines 26-105: one task per image, then [filter(Boolean)].  The answer
    is [None] when an assert on a file name rejects the whole
    [Promise.all], [Some None] while a task is still running, and the
    chunks of the tasks that returned one otherwise. *)
Fixpoint collect (fuel maxRetries : nat) (images : list (text * service))
  : option (option (list ContentChunk)) :=
  match images with
  | [] => Some (Some [])
  | (path, svc) :: rest =>
      match parseScreenshot path with
      | None => None
      | Some (idx, pg) =>
          match collect fuel maxRetries rest with
          | None => None
          | Some others =>
              match fst (ocrLoop fuel maxRetries idx pg path svc 0), others with
              | Running, _ => Some None
              | _, None => Some None
              | Done c, Some l => Some (Some (c :: l))
              | Failed, Some l => Some (Some l)
              end
          end
      end
  end.

Definition main (fuel maxRetries : nat) (images : list (text * service)) : run :=
  match images with
  | [] => Aborted          (* assert(pageScreenshots.length) *)
  | _ =>
      match collect fuel maxRetries images with
      | None => Aborted
      | Some None => Pending
      | Some (Some content) => Written (sortBy chunkCmp content)
      end
  end.

End Transcribe.

(** ** The assembler's per-section text ([transcribe-book-content.ts],
    second program, lines 210-221) *)

Module Assemble.

(** [/\r/g] *)
Definition reCR : regex := [IOne (CChar cr)].
(** [/\n{2,}/g] *)
Definition reParagraph : regex := [IRep false (CChar nl) 2].
(** [/\n/g] *)
Definition reNewline : regex := [IOne (CChar nl)].

(** The callback of [chunks.map]. *)
Definition normalizeChunkText (t : text) : text :=
  trim
    (replaceAll reNewline [sp]
       (replaceAll reParagraph [nl; nl]
          (replaceAll reCR [] t))).

(** Lines 204-226 keep the text of a section; [sectionText] is the value
    of [text] there. *)
Definition sectionText (chunks : list ContentChunk) : text :=
  join [nl; nl] (map (fun c => normalizeChunkText (chunkText c)) chunks).

Record BookMeta : Type := mkMeta {
  asin : text;
  metaTitle : text;
  authorList : list text
}.

(** [metadata.json] as far as the assembler reads it; a field is [None]
    when the file does not have it. *)
Record BookMetadata : Type := mkMetadata {
  meta : option BookMeta;
  toc : option (list TocItem)
}.

(** Line 147: [!metadata?.meta || !metadata?.toc?.length]. *)
Definition unusable (metadata : option BookMetadata) : bool :=
  match metadata with
  | None => true
  | Some m =>
      match meta m, toc m with
      | Some _, Some (_ :: _) => false
      | _, _ => true
      end
  end.

(** Line 148: [content.reduce((m, c) => Math.max(m, c.page || 0), a)]. *)
Definition maxPageFrom (a : Z) (content : list ContentChunk) : Z :=
  fold_left (fun m c => Z.max m (orElse (page c) 0)) content a.

(** Lines 148-161. *)
Definition synthesize (bookId : text) (content : list ContentChunk)
  : BookMeta * list TocItem :=
  let maxPage :=
    orElse (maxPageFrom 0 content) 0 in
  let n := orElse maxPage (Z.of_nat (length content)) in
  ( mkMeta bookId bookId [lit "Unknown"],
    [ mkToc (lit "Content") (Some 1%Z) n;
      mkToc (lit "End") (Some n) n ] ).

Definition effectiveToc (bookId : text) (metadata : option BookMetadata)
  (content : list ContentChunk) : list TocItem :=
  if unusable metadata then snd (synthesize bookId content)
  else
    match metadata with
    | Some m => match toc m with Some t => t | None => [] end
    | None => []
    end.

(** Lines 179-189. *)
Definition computeNextIndex (contentSorted : list ContentChunk)
  (toc : list TocItem) (currentIndex tocIndex : nat) : nat :=
  match nth_error toc (tocIndex + 1) with
  | None => length contentSorted
  | Some nextTocItem =>
      match tocPage nextTocItem with
      | None => length contentSorted
      | Some p =>
          let nextIndex :=
            match findIndex (fun c => (p <=? page c)%Z) contentSorted with
            | Some k => k
            | None => length contentSorted
            end in
          if nextIndex <? currentIndex then currentIndex else nextIndex
      end
  end.

(** Lines 204-226: the sectioning loop, [n] iterations from entry [i] with
    the cursor at [index].  Each rendered entry is kept with the bounds of
    its slice. *)
Fixpoint sectionLoop (contentSorted : list ContentChunk) (toc : list TocItem)
  (n i index : nat) : list (TocItem * nat * nat) :=
  match n with
  | 0 => []
  | S n' =>
      match nth_error toc i with
      | None => []
      | Some tocItem =>
          match tocPage tocItem with
          | None => sectionLoop contentSorted toc n' (S i) index
          | Some _ =>
              let nextIndex := computeNextIndex contentSorted toc index i in
              (tocItem, index, nextIndex)
                :: sectionLoop contentSorted toc n' (S i) nextIndex
          end
      end
  end.

Definition sectionBounds (contentSorted : list ContentChunk)
  (toc : list TocItem) : list (TocItem * nat * nat) :=
  sectionLoop contentSorted toc (length toc - 1) 0 0.

(** The start page of the entry after entry [i], when there is one. *)
Definition nextStartPage (toc : list TocItem) (i : nat) : option Z :=
  match nth_error toc (i + 1) with
  | Some nextTocItem => tocPage nextTocItem
  | None => None
  end.

(** [b] is the index of the first chunk whose page is at least [p], or the
    length of the list when there is none. *)
Definition firstAtLeast (contentSorted : list ContentChunk) (p : Z) (b : nat)
  : Prop :=
  b <= length contentSorted
  /\ (forall k c, k < b -> nth_error contentSorted k = Some c -> (page c < p)%Z)
  /\ (forall c, nth_error contentSorted b = Some c -> (p <= page c)%Z).

(** The slices follow one another from [cursor] on, and none runs
    backwards or past [len]. *)
Fixpoint chained (len cursor : nat) (l : list (TocItem * nat * nat)) : Prop :=
  match l with
  | [] => True
  | (_, from, to) :: l' =>
      from = cursor /\ from <= to /\ to <= len /\ chained len to l'
  end.

(** What the specification asks of the slice of a rendered entry: the
    entry has a start page, and the end of the slice is the first chunk at
    or after the start page of the next entry (the end of the list when
    that entry has no start page), but never before the cursor. *)
Definition boundOk (contentSorted : list ContentChunk) (toc : list TocItem)
  (s : TocItem * nat * nat) : Prop :=
  let '(tocItem, from, to) := s in
  tocPage tocItem <> None
  /\ exists i b,
       nth_error toc i = Some tocItem
       /\ to = Nat.max from b
       /\ match nextStartPage toc i with
          | Some p => firstAtLeast contentSorted p b
          | None => b = length contentSorted
          end.

(** Lines 147-226, which run once [assert(content.length)] of line 137 has
    passed: the sections of [book.md], each with its title, the chunks of
    its slice and its text.  [AssembleMain.main] below is the program with
    the assert. *)
Definition sections (bookId : text) (metadata : option BookMetadata)
  (content : list ContentChunk)
  : list (text * list ContentChunk * text) :=
  let toc := effectiveToc bookId metadata content in
  let contentSorted := sortBy chunkCmp content in
  map (fun '(tocItem, from, to) =>
         let chunks := slice from to contentSorted in
         (title tocItem, chunks, sectionText chunks))
      (sectionBounds contentSorted toc).

End Assemble.


(** ** The capture program (the Internet Archive capture script) *)

Module Capture.

(** What [getBrState] reads in the page. *)
Record Dom : Type := mkDom {
  domPage : option Z;          (* [br.getPageNum()] and its fallbacks *)
  domImgSrcs : list text       (* the [src] of the images of the reader *)
}.

(** The part of the value of [getBrState] that the capture loop uses. *)
Record BrState : Type := mkSt {
  brPage : option Z;
  brSig : text
}.

(** The reader as the program drives it.  The steps that the source wraps
    in [try { } catch {}] cannot fail; the others answer [None] when they
    throw. *)
Class Viewer (World : Type) : Type := {
  brNext : World -> World;
  clickNext : World -> World;
  clickNextQuick : World -> World;
  pressArrowRight : World -> World;
  attemptBorrowOn : World -> World;
  waitStable : World -> option World;
  readDom : World -> option Dom;
  findTarget : World -> option World;
  takeScreenshot : World -> option text;
  sha1 : text -> text
}.

Inductive event : Type :=
| EvNext                      (* [br.next()] *)
| EvClick                     (* click on a next control *)
| EvKey                       (* ArrowRight *)
| EvBorrow
| EvWait                      (* [waitForPageStable] *)
| EvTarget                    (* [getCaptureTarget] *)
| EvShot (hash : text)        (* a screenshot, with the hash of its bytes *)
| EvWrite (path : text).      (* [fs.writeFile] of a page image *)

(** Counters over a log. *)
Definition shots (l : list event) : nat :=
  length (filter (fun e => match e with EvShot _ => true | _ => false end) l).

Definition nexts (l : list event) : nat :=
  length (filter (fun e => match e with EvNext => true | _ => false end) l).

Definition clicks (l : list event) : nat :=
  length (filter (fun e => match e with EvClick => true | _ => false end) l).

(** The events of one call of [advanceOnce] that sees no change, and of
    one retry of the loop of lines 454-459. *)
Definition advanceRound : list event :=
  [EvNext; EvWait; EvClick; EvWait; EvKey; EvWait].

Definition retryRound : list event := advanceRound ++ [EvBorrow].

Record Machine (World : Type) : Type := mkMachine {
  world : World;
  log : list event;
  files : list (text * text)
}.

(** State and exception monad of the script. *)
Definition M (World A : Type) : Type :=
  Machine World -> option A * Machine World.

Definition ret {World A : Type} (a : A) : M World A := fun m => (Some a, m).

Definition bind {World A B : Type} (c : M World A) (k : A -> M World B)
  : M World B :=
  fun m => match c m with
           | (Some a, m') => k a m'
           | (None, m') => (None, m')
           end.

(** [c.catch(() => {})] *)
Definition ignoreErrors {World A : Type} (c : M World A) : M World unit :=
  fun m => (Some tt, snd (c m)).

Declare Scope script_scope.
Delimit Scope script_scope with script.
Notation "x <- c ;; k" := (bind c (fun x => k))
  (at level 61, c at next level, right associativity) : script_scope.
Notation "' pat <- c ;; k" := (bind c (fun x => match x with pat => k end))
  (at level 61, pat pattern, c at next level, right associativity)
  : script_scope.
Notation "c ;;; k" := (bind c (fun _ => k))
  (at level 61, right associativity) : script_scope.
Local Open Scope script_scope.

Section Script.

Context {World : Type} {V : Viewer World}.

Definition act (e : event) (f : World -> World) : M World unit :=
  fun m => (Some tt, mkMachine (f (world m)) (log m ++ [e]) (files m)).

Definition tryAct (e : event) (f : World -> option World) : M World unit :=
  fun m =>
    match f (world m) with
    | Some w => (Some tt, mkMachine w (log m ++ [e]) (files m))
    | None => (None, mkMachine (world m) (log m ++ [e]) (files m))
    end.

Definition query {A : Type} (f : World -> option A) : M World A :=
  fun m => (f (world m), m).

Definition waitForPageStable : M World unit := tryAct EvWait waitStable.

(** Line 284: a page number 0 is read as 1; line 291: the signature. *)
Definition stateOfDom (d : Dom) : BrState :=
  let pageNum :=
    match domPage d with
    | Some 0%Z => Some 1%Z
    | other => other
    end in
  let imgSrcs := filter Transcribe.nonEmpty (domImgSrcs d) in
  mkSt pageNum
       (join ["|"%char] (firstn 12 imgSrcs) ++ ["|"%char]
          ++ ofNat (length imgSrcs)).

Definition getBrState : M World BrState :=
  d <- query readDom ;; ret (stateOfDom d).

Definition screenshotOf : M World text :=
  fun m =>
    match takeScreenshot (world m) with
    | Some buf =>
        (Some buf, mkMachine (world m) (log m ++ [EvShot (sha1 buf)]) (files m))
    | None => (None, m)
    end.

Definition writeFile (path buf : text) : M World unit :=
  fun m =>
    (Some tt, mkMachine (world m) (log m ++ [EvWrite path])
                        ((path, buf) :: files m)).

(** [st.page ?? d] *)
Definition pageOr (st : BrState) (d : Z) : Z :=
  match brPage st with Some p => p | None => d end.

Definition textEqb (a b : text) : bool :=
  if list_eq_dec ascii_dec a b then true else false.

(** Lines 432, 442 and 447: the test of [advanceOnce]. *)
Definition changed (prevSig : text) (prevPage : Z) (st : BrState) : bool :=
  negb (pageOr st (-1) =? prevPage)%Z
  || (Transcribe.nonEmpty (brSig st) && negb (textEqb (brSig st) prevSig)).

(** Lines 452 and 460: the test at the start of an iteration. *)
Definition unchanged (lastSig : text) (lastPageNum : Z) (st : BrState) : bool :=
  textEqb (brSig st) lastSig || (pageOr st (-1) =? lastPageNum)%Z.

(** Lines 427-448. *)
Definition advanceOnce (prevSig : text) (prevPage : Z) : M World bool :=
  act EvNext brNext ;;;
  waitForPageStable ;;;
  st <- getBrState ;;
  if changed prevSig prevPage st then ret true else
  act EvClick clickNext ;;;
  waitForPageStable ;;;
  st <- getBrState ;;
  if changed prevSig prevPage st then ret true else
  act EvKey pressArrowRight ;;;
  waitForPageStable ;;;
  st <- getBrState ;;
  ret (changed prevSig prevPage st).

Record Config : Type := mkConfig {
  cfgTotal : Z;                        (* [total] *)
  captureUntil : nat;
  maxVerifyRetries : nat;              (* IA_MAX_RETRIES *)
  pageScreenshotsDir : text;
  bookTitle : text
}.

Record LoopVars : Type := mkVars {
  pages : list PageChunk;
  lastSig : text;
  lastPageNum : Z;
  lastHash : text
}.

(** Lines 423-425. *)
Definition initialVars : LoopVars := mkVars [] [] (-1)%Z [].

(** Lines 454-459: the retries that are left, [tried] and [st]. *)
Fixpoint verifyLoop (v : LoopVars) (left tried : nat) (st : BrState)
  : M World (BrState * nat) :=
  match left with
  | 0 => ret (st, tried)
  | S left' =>
      isChanged <- advanceOnce (lastSig v) (lastPageNum v) ;;
      if isChanged then st' <- getBrState ;; ret (st', tried)
      else
        act EvBorrow attemptBorrowOn ;;;
        verifyLoop v left' (S tried) st
  end.

(** Lines 451-464: the state to capture, or [None] for [break]. *)
Definition ensureAdvanced (cfg : Config) (i : nat) (v : LoopVars)
  : M World (option BrState) :=
  st <- getBrState ;;
  if (0 <? i) && unchanged (lastSig v) (lastPageNum v) st then
    '(st', tried) <- verifyLoop v (maxVerifyRetries cfg) 0 st ;;
    if (maxVerifyRetries cfg <=? tried)
       && unchanged (lastSig v) (lastPageNum v) st'
    then ret None
    else ret (Some st')
  else ret (Some st).

(** Lines 468-479: the frame that is kept, with its hash. *)
Definition captureFrame (i : nat) (lastH : text) : M World (text * text) :=
  waitForPageStable ;;;
  tryAct EvTarget findTarget ;;;
  buf <- screenshotOf ;;
  let hash := sha1 buf in
  if textEqb hash lastH && (0 <? i) then
    act EvNext brNext ;;;
    act EvClick clickNextQuick ;;;
    waitForPageStable ;;;
    buf <- screenshotOf ;;
    ret (buf, sha1 buf)
  else ret (buf, hash).

(** [`${z}`] *)
Definition ofZ (z : Z) : text :=
  match z with
  | Zneg _ => "-"%char :: ofNat (Z.abs_nat z)
  | _ => ofNat (Z.to_nat z)
  end.

(** Line 413. *)
Definition indexPad (cfg : Config) : nat :=
  Nat.max 2 (length (ofNat (captureUntil cfg))).

(** Line 484. *)
Definition fileName (pad : nat) (i : nat) (pageNum : Z) : text :=
  padStart0 pad (ofNat i) ++ ["-"%char] ++ padStart0 pad (ofZ pageNum)
    ++ lit ".png".

(** [path.join(dir, name)] for a directory without a trailing slash. *)
Definition pathJoin (dir name : text) : text := dir ++ ["/"%char] ++ name.

(** Lines 450-494: the body of the capture loop at index [i]; [None] for
    [break]. *)
Definition captureStep (cfg : Config) (i : nat) (v : LoopVars)
  : M World (option LoopVars) :=
  go <- ensureAdvanced cfg i v ;;
  match go with
  | None => ret None
  | Some brBefore =>
      '(buf, hash) <- captureFrame i (lastHash v) ;;
      let pageNum := pageOr brBefore (Z.of_nat i + 1) in
      let screenshotPath :=
        pathJoin (pageScreenshotsDir cfg)
                 (fileName (indexPad cfg) i pageNum) in
      writeFile screenshotPath buf ;;;
      let lastSig' :=
        if Transcribe.nonEmpty (brSig brBefore) then brSig brBefore
        else lastSig v in
      ignoreErrors (advanceOnce lastSig' pageNum) ;;;
      ret (Some (mkVars
                   (pages v ++ [mkPage i pageNum (cfgTotal cfg) screenshotPath])
                   lastSig' pageNum hash))
  end.

(** Lines 449-495: [n] iterations are left, the next one has index [i]. *)
Fixpoint captureLoop (cfg : Config) (n i : nat) (v : LoopVars)
  : M World LoopVars :=
  match n with
  | 0 => ret v
  | S n' =>
      next <- captureStep cfg i v ;;
      match next with
      | None => ret v
      | Some v' => captureLoop cfg n' (S i) v'
      end
  end.

(** Line 506. *)
Definition finalTotal (cfg : Config) (pgs : list PageChunk) : Z :=
  match rev pgs with
  | lastPage :: _ => pgPage lastPage
  | [] => cfgTotal cfg
  end.

Record Metadata : Type := mkMetadata {
  mdToc : list TocItem;
  mdPages : list PageChunk
}.

(** Lines 505-515. *)
Definition buildMetadata (cfg : Config) (v : LoopVars) : Metadata :=
  let ft := finalTotal cfg (pages v) in
  let t := match bookTitle cfg with [] => lit "Book" | t => t end in
  mkMetadata
    [ mkToc t (Some 1%Z) ft; mkToc (lit "End") (Some ft) ft ]
    (pages v).

(** [captureIaBook] from the capture loop on. *)
Definition captureIaBook (cfg : Config) : M World Metadata :=
  v <- captureLoop cfg (captureUntil cfg) 0 initialVars ;;
  ret (buildMetadata cfg v).

End Script.

End Capture.

(** ** Direct descriptions of the replacements of [cleanResponse]

    Part II proves that the two global replacements compute [stripLead]
    and [stripTrail]; the other definitions state the properties. *)

Module Direct.

(** [/^\s*/gm] with the empty replacement: at the start of a line
    ([bol]), whitespace is dropped up to the first other character. *)
Fixpoint stripLead (bol : bool) (s : text) : text :=
  match s with
  | [] => []
  | a :: s' =>
      if bol && isSpace a then stripLead true s'
      else a :: stripLead (isLT a) s'
  end.

(** The length of the longest run of whitespace at the head of [s] that
    ends in front of a line terminator or at the end of [s]. *)
Fixpoint eolSpan (s : text) : option nat :=
  match s with
  | [] => Some 0
  | a :: s' =>
      if isSpace a then
        match eolSpan s' with
        | Some n => Some (S n)
        | None => if isLT a then Some 0 else None
        end
      else if isLT a then Some 0 else None
  end.

(** The whitespace that starts [s] reaches a line terminator or the end. *)
Fixpoint trailing (s : text) : bool :=
  match s with
  | [] => true
  | b :: s' => isSpace b && (isLT b || trailing s')
  end.

(** [/\s*$/gm] with the empty replacement. *)
Fixpoint stripTrail (s : text) : text :=
  match s with
  | [] => []
  | a :: s' =>
      if isSpace a && trailing s' then stripTrail s'
      else a :: stripTrail s'
  end.

(** No whitespace at the start of a line; [bol] tells whether the text
    starts a line. *)
Fixpoint okLead (bol : bool) (t : text) : bool :=
  match t with
  | [] => true
  | a :: t' => negb (bol && isSpace a) && okLead (isLT a) t'
  end.

(** No whitespace at the end of a line. *)
Fixpoint okTrail (t : text) : bool :=
  match t with
  | [] => true
  | a :: t' => negb (isSpace a && Regex.atEol t') && okTrail t'
  end.

(** No whitespace character of [t] is the first or the last character of
    a line of [t]. *)
Definition linesTrimmed (t : text) : Prop :=
  forall pre c post,
    t = pre ++ c :: post ->
    isSpace c = true ->
    (exists pre' d, pre = pre' ++ [d] /\ d <> nl)
    /\ (exists d post', post = d :: post' /\ d <> nl).



(** The digits at the head of [s] are not followed by a hyphen. *)
Fixpoint noHyphenAfterDigits (s : text) : bool :=
  match s with
  | [] => true
  | a :: s' =>
      if isDigit a then noHyphenAfterDigits s'
      else negb (Ascii.eqb a "-"%char)
  end.

(** [s] does not start with digits followed by a hyphen: [/0*(\d+)-/]
    cannot match at the head of [s]. *)
Definition noIndexHere (s : text) : bool :=
  match s with
  | [] => true
  | a :: s' => if isDigit a then noHyphenAfterDigits s' else true
  end.

(** Where the digits of [\d+] can stop: after none of them anywhere, after
    one or more only in front of something else than a hyphen. *)
Definition stopOk (n : nat) (s : text) : Prop :=
  match n with
  | 0 => noIndexHere s = true
  | S _ => noHyphenAfterDigits s = true
  end.

(** No digit of [s] is directly followed by a hyphen. *)
Fixpoint noDigitHyphen (s : text) : bool :=
  match s with
  | [] => true
  | a :: s' =>
      negb (isDigit a
            && match s' with
               | b :: _ => Ascii.eqb b "-"%char
               | [] => false
               end)
      && noDigitHyphen s'
  end.

End Direct.
Import Direct.

(** ** Concrete inputs used by the examples below *)

Module Samples.

(** A recognition service that always apologises. *)
Definition alwaysSorry : Transcribe.service :=
  fun _ => Some (lit "I'm sorry").

(** A reader over a book whose leaves are numbered from 0 to [lastLeaf]:
    the native [next] and the arrow key move one leaf forward until the
    last one, there is no next button, page numbers start at 1, each leaf
    shows one image and the screenshot of a leaf is its number. *)
Definition bookViewer (lastLeaf : nat) : Capture.Viewer nat := {|
  Capture.brNext := fun w => if w <? lastLeaf then S w else w;
  Capture.clickNext := fun w => w;
  Capture.clickNextQuick := fun w => w;
  Capture.pressArrowRight := fun w => if w <? lastLeaf then S w else w;
  Capture.attemptBorrowOn := fun w => w;
  Capture.waitStable := fun w => Some w;
  Capture.readDom := fun w =>
    Some (Capture.mkDom (Some (Z.of_nat w + 1)%Z) [lit "leaf" ++ ofNat w]);
  Capture.findTarget := fun w => Some w;
  Capture.takeScreenshot := fun w => Some (ofNat w);
  Capture.sha1 := fun buf => buf
|}.


(** A reader whose page number is stuck at 1 while the images change with
    every leaf. *)
Definition stuckPageViewer : Capture.Viewer nat := {|
  Capture.brNext := fun w => S w;
  Capture.clickNext := fun w => w;
  Capture.clickNextQuick := fun w => w;
  Capture.pressArrowRight := fun w => w;
  Capture.attemptBorrowOn := fun w => w;
  Capture.waitStable := fun w => Some w;
  Capture.readDom := fun w =>
    Some (Capture.mkDom (Some 1%Z) [lit "leaf" ++ ofNat w]);
  Capture.findTarget := fun w => Some w;
  Capture.takeScreenshot := fun w => Some (ofNat w);
  Capture.sha1 := fun buf => buf
|}.

Definition sampleConfig : Capture.Config :=
  Capture.mkConfig 9999 5 2 (lit "out/book/pages") (lit "A book").

(** Three chunks on the pages 1, 2 and 3. *)
Definition threePages : list ContentChunk :=
  [ mkChunk 0 1 (lit "one") (lit "out/book/pages/00-01.png");
    mkChunk 1 2 (lit "two") (lit "out/book/pages/01-02.png");
    mkChunk 2 3 (lit "three") (lit "out/book/pages/02-03.png") ].

Definition startMachine : Capture.Machine nat := Capture.mkMachine 0 [] [].

(** The loop variables and the machine after two iterations over a book of
    two leaves. *)
Definition afterTwoLeaves : option Capture.LoopVars * Capture.Machine nat :=
  Eval vm_compute in
    @Capture.captureLoop nat (bookViewer 1) sampleConfig 2 0
      Capture.initialVars startMachine.

Definition varsAfterTwoLeaves : Capture.LoopVars :=
  match fst afterTwoLeaves with
  | Some v => v
  | None => Capture.initialVars
  end.

End Samples.
Import Samples.

(** ** Further parts of the programs *)

Module Order.

(** The order of [content.json]: by index, then by page. *)
Definition lexLe (a b : ContentChunk) : Prop :=
  (index a < index b)%Z \/ (index a = index b /\ (page a <= page b)%Z).

End Order.
Import Order.

Module Trace.

(** The numbers of the calls of a trace, in order. *)
Definition callNumbers (tr : list Transcribe.event) : list nat :=
  flat_map (fun e => match e with
                     | Transcribe.Call k _ _ => [k]
                     | Transcribe.Delay _ => []
                     end) tr.

(** Lines 50 and 54: the request that goes with a number of retries. *)
Definition requestOk (e : Transcribe.event) : Prop :=
  match e with
  | Transcribe.Call k temp justified =>
      temp = (if k <? 2 then Transcribe.Temp0 else Transcribe.Temp05)
      /\ justified = (2 <? k)
  | Transcribe.Delay _ => True
  end.

End Trace.
Import Trace.

Module Counters.

(** The borrow attempts of a log. *)
Definition borrows (l : list Capture.event) : nat :=
  length (filter (fun e => match e with Capture.EvBorrow => true | _ => false end) l).

(** The three lists of events that a call of [advanceOnce] can leave: it
    stops after the first strategy, after the second, or after the third. *)
Definition advancePrefix (delta : list Capture.event) : Prop :=
  delta = [Capture.EvNext; Capture.EvWait]
  \/ delta = [Capture.EvNext; Capture.EvWait; Capture.EvClick; Capture.EvWait]
  \/ delta = Capture.advanceRound.

End Counters.
Import Counters.

Module MoreSamples.

(** A recognition service that apologises twice and then reads the page. *)
Definition sorryTwiceThenText : Transcribe.service :=
  fun k => if k <? 2 then Some (lit "I'm sorry") else Some (lit "Hello").

(** A recognition service that answers twice with blanks and then reads the
    page. *)
Definition blankTwiceThenText : Transcribe.service :=
  fun k => if k <? 2 then Some [sp; nl] else Some (lit "Hello").

(** The whole capture of a book of two leaves. *)
Definition twoLeafRun : option Capture.Metadata * Capture.Machine nat :=
  Eval vm_compute in
    @Capture.captureIaBook nat (bookViewer 1) sampleConfig startMachine.

Definition twoLeafMetadata : Capture.Metadata :=
  match fst twoLeafRun with
  | Some md => md
  | None => Capture.mkMetadata [] []
  end.

(** A reader over a book of four leaves whose screenshot fails on the third
    leaf. *)
Definition tornViewer : Capture.Viewer nat := {|
  Capture.brNext := fun w => if w <? 3 then S w else w;
  Capture.clickNext := fun w => w;
  Capture.clickNextQuick := fun w => w;
  Capture.pressArrowRight := fun w => if w <? 3 then S w else w;
  Capture.attemptBorrowOn := fun w => w;
  Capture.waitStable := fun w => Some w;
  Capture.readDom := fun w =>
    Some (Capture.mkDom (Some (Z.of_nat w + 1)%Z) [lit "leaf" ++ ofNat w]);
  Capture.findTarget := fun w => Some w;
  Capture.takeScreenshot := fun w => if w =? 2 then None else Some (ofNat w);
  Capture.sha1 := fun buf => buf
|}.

(** A reader over a book of two leaves in which only the arrow key turns
    the page. *)
Definition keyOnlyViewer : Capture.Viewer nat := {|
  Capture.brNext := fun w => w;
  Capture.clickNext := fun w => w;
  Capture.clickNextQuick := fun w => w;
  Capture.pressArrowRight := fun w => if w <? 1 then S w else w;
  Capture.attemptBorrowOn := fun w => w;
  Capture.waitStable := fun w => Some w;
  Capture.readDom := fun w =>
    Some (Capture.mkDom (Some (Z.of_nat w + 1)%Z) [lit "leaf" ++ ofNat w]);
  Capture.findTarget := fun w => Some w;
  Capture.takeScreenshot := fun w => Some (ofNat w);
  Capture.sha1 := fun buf => buf
|}.

Definition tornRun : option Capture.Metadata * Capture.Machine nat :=
  Eval vm_compute in
    @Capture.captureIaBook nat tornViewer sampleConfig startMachine.

End MoreSamples.
Import MoreSamples.

Module Listing.

(** [tocItem.page !== undefined] *)
Definition hasPage (tocItem : TocItem) : bool :=
  match tocPage tocItem with
  | Some _ => true
  | None => false
  end.

(** Lines 191-197 of the assembler: [n] iterations are left, the next one
    has index [i]. *)
Fixpoint lastTocLoop (toc : list TocItem) (n i lastTocItemIndex : nat) : nat :=
  match n with
  | 0 => lastTocItemIndex
  | S n' =>
      match nth_error toc i with
      | None => lastTocItemIndex
      | Some tocItem =>
          if hasPage tocItem then lastTocLoop toc n' (S i) i
          else lastTocLoop toc n' (S i) lastTocItemIndex
      end
  end.

Definition lastTocItemIndex (toc : list TocItem) : nat :=
  lastTocLoop toc (length toc - 1) 0 0.

(** [Array.prototype.filter] with a callback that reads the index; [i] is
    the index of the head of [l]. *)
Fixpoint filterFrom (A : Type) (f : A -> nat -> bool) (i : nat) (l : list A)
  : list A :=
  match l with
  | [] => []
  | x :: l' =>
      if f x i then x :: filterFrom f (S i) l' else filterFrom f (S i) l'
  end.

(** Line 200: the entries that the table of contents of [book.md] lists. *)
Definition listed (toc : list TocItem) : list TocItem :=
  filterFrom
    (fun tocItem index =>
       hasPage tocItem && (index <=? lastTocItemIndex toc))
    0 toc.

(** The entries that get a heading and a section in lines 204-226. *)
Definition sectioned (contentSorted : list ContentChunk) (toc : list TocItem)
  : list TocItem :=
  map (fun s => fst (fst s)) (Assemble.sectionBounds contentSorted toc).

End Listing.
Import Listing.

Module IaUrl.

(** [String.prototype.split] with a separator of one character. *)
Fixpoint split (sep : ascii) (s : text) : list text :=
  match s with
  | [] => [[]]
  | c :: s' =>
      if Ascii.eqb c sep then [] :: split sep s'
      else
        match split sep s' with
        | part :: parts => (c :: part) :: parts
        | [] => [[c]]
        end
  end.

(** Lines 13-23 of the capture script from [u.pathname] on: the value that
    [parseIaIdFromUrl] returns for a URL with this path, [None] for
    [null]. *)
Definition parseIaIdFromPathname (pathname : text) : option text :=
  let parts := split "/"%char pathname in
  match findIndex (fun part => Capture.textEqb part (lit "details")) parts with
  | Some idx =>
      match nth_error parts (idx + 1) with
      | Some part =>
          if Transcribe.nonEmpty part then Some part else None
      | None => None
      end
  | None => None
  end.

End IaUrl.
Import IaUrl.

Module AssembleMain.

(** Lines 130-230: [main] of the assembler on the parsed [content.json]
    and [metadata.json].  [None] when [assert(content.length)] of line 137
    throws, so that no [book.md] is written; the sections of [book.md]
    otherwise. *)
Definition main (bookId : text) (metadata : option Assemble.BookMetadata)
  (content : list ContentChunk)
  : option (list (text * list ContentChunk * text)) :=
  match content with
  | [] => None
  | _ :: _ => Some (Assemble.sections bookId metadata content)
  end.

End AssembleMain.

Module Rendering.

(** The positions that the loop of lines 204-226 renders, in order: those
    below the last position of the table of contents whose entry has a
    start page. *)
Definition renderedPositions (toc : list TocItem) : list nat :=
  filter (fun i => match nth_error toc i with
                   | Some tocItem => hasPage tocItem
                   | None => false
                   end)
         (seq 0 (length toc - 1)).

(** What the specification asks of the slice [s] of the entry at position
    [i]: it is the slice of that entry, and its end is the index of the
    first chunk at or after the start page of the entry at position
    [i + 1] (the end of the list when there is no such chunk or that entry
    has no start page), raised to the start of the slice when it lies
    before it. *)
Definition sliceOk (contentSorted : list ContentChunk) (toc : list TocItem)
  (i : nat) (s : TocItem * nat * nat) : Prop :=
  let '(tocItem, from, to) := s in
  nth_error toc i = Some tocItem
  /\ exists b,
       to = Nat.max from b
       /\ match Assemble.nextStartPage toc i with
          | Some p => Assemble.firstAtLeast contentSorted p b
          | None => b = length contentSorted
          end.

End Rendering.
Import Rendering.

Module Results.

(** [.filter(Boolean)] on the array that [Promise.all] resolves to. *)
Definition filterBoolean (results : list (option ContentChunk))
  : list ContentChunk :=
  flat_map (fun r => match r with Some c => [c] | None => [] end) results.

(** What the task of the image [img] leaves in the array of [Promise.all]:
    [None] ([undefined]) when its loop ended in the [catch], and otherwise
    the chunk with the index and the page of the file name of the image and
    the cleaned answer to the last call that its loop made. *)
Definition taskResult (fuel maxRetries : nat) (img : text * Transcribe.service)
  (r : option ContentChunk) : Prop :=
  exists idx pg,
    Transcribe.parseScreenshot (fst img) = Some (idx, pg)
    /\ match r with
       | None =>
           fst (Transcribe.ocrLoop fuel maxRetries idx pg (fst img) (snd img) 0)
           = Transcribe.Failed
       | Some c =>
           exists n raw,
             Transcribe.calls
               (snd (Transcribe.ocrLoop fuel maxRetries idx pg (fst img)
                       (snd img) 0))
             = S n
             /\ snd img n = Some raw
             /\ c = mkChunk idx pg (Transcribe.cleanResponse raw) (fst img)
             /\ chunkText c <> []
             /\ Transcribe.isRefusal (chunkText c) = false
             /\ linesTrimmed (chunkText c)
       end.

End Results.
Import Results.

Module Observe.

Section Observe.

Context {World : Type} {V : Capture.Viewer World}.

(** What [advanceOnce] sees after one strategy: the reader after the
    action [f] and the wait, and the state read there; [None] when the wait
    or the reading throws. *)
Definition observeAfter (f : World -> World) (w : World)
  : option (World * Capture.BrState) :=
  match Capture.waitStable (f w) with
  | Some w1 =>
      match Capture.readDom w1 with
      | Some d => Some (w1, Capture.stateOfDom d)
      | None => None
      end
  | None => None
  end.

End Observe.

End Observe.
Import Observe.

(* ================================================================== *)
(** * Part II.  Properties *)
(* ================================================================== *)

Import Transcribe Assemble.

(** ** Text and regular expressions *)

Section TextFacts.

Lemma In_dropWhile (p : ascii -> bool) (x : ascii) (s : text) :
  In x (dropWhile p s) -> In x s.
Proof.
  induction s as [|a s IH]; simpl; [tauto|].
  destruct (p a); simpl; tauto.
Qed.

Lemma In_trim (x : ascii) (s : text) : In x (trim s) -> In x s.
Proof.
  unfold trim, trimEnd, trimStart. intros H.
  apply In_rev in H. apply In_dropWhile in H.
  apply In_rev in H. now apply In_dropWhile in H.
Qed.

Lemma textEqb_eq (a b : text) : Capture.textEqb a b = true <-> a = b.
Proof.
  unfold Capture.textEqb. destruct (list_eq_dec ascii_dec a b); split;
    congruence.
Qed.

Lemma textEqb_neq (a b : text) : Capture.textEqb a b = false <-> a <> b.
Proof.
  unfold Capture.textEqb. destruct (list_eq_dec ascii_dec a b); split;
    congruence.
Qed.

Lemma nonEmpty_app_cons (x y : text) (a : ascii) :
  nonEmpty (x ++ a :: y) = true.
Proof. destruct x; reflexivity. Qed.

End TextFacts.

(** The matcher on the textbook cases of global replacement: a match of
    positive length is followed by an empty match where it ends, and an
    empty match moves the next attempt one character on. *)
Example replaceAll_star_run :
  replaceAll [IRep false (CChar "a"%char) 0] (lit "X") (lit "aaa") = lit "XX".
Proof. reflexivity. Qed.

Example replaceAll_star_between :
  replaceAll [IRep false (CChar "x"%char) 0] (lit "-") (lit "abc")
  = lit "-a-b-c-".
Proof. reflexivity. Qed.

(** Greedy repetition gives characters back: [/a*ab/] on "aaab". *)
Example matchHere_backtracks :
  matchHere [IRep true (CChar "a"%char) 0; IOne (CChar "a"%char);
             IOne (CChar "b"%char)] None (lit "aaab")
  = Some (4, [lit "aa"]).
Proof. reflexivity. Qed.

(** The leftmost match wins: the unanchored file-name pattern applied to a
    path whose directory already holds digits, a hyphen, digits, any
    character and "png". *)
Example parseScreenshot_reads_the_directory_first :
  parseScreenshot (lit "out/a1-2xpng/pages/00-01.png") = Some (1%Z, 2%Z).
Proof. reflexivity. Qed.

(** Replacing every newline leaves none. *)
Lemma replaceGo_newline_free (prev : option ascii) (s : text) :
  ~ In nl (replaceGo reNewline [sp] 0 prev s).
Proof.
  revert prev. induction s as [|a s IH]; intros prev.
  - simpl. intros [].
  - cbn [replaceGo matchHere reNewline cmatch].
    destruct (Ascii.eqb a nl) eqn:E.
    + cbn. intros [H|H]; [discriminate H|]. now apply IH in H.
    + cbn. intros [H|H].
      * subst a. now rewrite Ascii.eqb_refl in E.
      * now apply IH in H.
Qed.

(** No text leaves [normalizeChunkText] with a newline in it: the third
    replacement also folds the two newlines that the second one wrote. *)
Lemma normalizeChunkText_newline_free (t : text) :
  ~ In nl (normalizeChunkText t).
Proof.
  unfold normalizeChunkText. intros H. apply In_trim in H.
  now apply replaceGo_newline_free in H.
Qed.

(** C1.  On the text of the specification's own example, "line one", a
    newline, "line two", two newlines, "line three", the per-chunk
    normalisation of the assembler yields "line one line two", two
    spaces, "line three": the paragraph break is not kept as a blank
    line, it becomes two spaces. *)
Theorem normalizeChunkText_loses_paragraph_break :
  normalizeChunkText
    (lit "line one" ++ [nl] ++ lit "line two" ++ [nl; nl] ++ lit "line three")
  = lit "line one line two" ++ [sp; sp] ++ lit "line three"
  /\ normalizeChunkText
       (lit "line one" ++ [nl] ++ lit "line two" ++ [nl; nl]
          ++ lit "line three")
     <> lit "line one line two" ++ [nl; nl] ++ lit "line three".
Proof.
  split.
  - vm_compute. reflexivity.
  - intros H.
    apply (@normalizeChunkText_newline_free
             (lit "line one" ++ [nl] ++ lit "line two" ++ [nl; nl]
                ++ lit "line three")).
    rewrite H. apply in_or_app. right. left. reflexivity.
Qed.

(** ** The transcription loop *)

Section OcrLoop.

Variables (maxRetries : nat) (idx pg : Z) (path : text).

Lemma cleanResponse_nil : cleanResponse [] = [].
Proof. reflexivity. Qed.

Lemma isRefusal_nonEmpty (t : text) : isRefusal t = true -> nonEmpty t = true.
Proof. destruct t; [discriminate|reflexivity]. Qed.

(** One step of the loop on an answer whose cleaned text is empty. *)
Lemma ocrLoop_empty_step (fuel : nat) (svc : service) (retries : nat) (raw : text) :
  svc retries = Some raw ->
  cleanResponse raw = [] ->
  ocrLoop (S fuel) maxRetries idx pg path svc retries =
  (fst (ocrLoop fuel maxRetries idx pg path svc (S retries)),
   Call retries (if retries <? 2 then Temp0 else Temp05) (2 <? retries)
     :: snd (ocrLoop fuel maxRetries idx pg path svc (S retries))).
Proof.
  intros Hs Hc. cbn [ocrLoop]. rewrite Hs, Hc. cbn [nonEmpty negb].
  now destruct (ocrLoop fuel maxRetries idx pg path svc (S retries)).
Qed.

(** One step of the loop on a refusal. *)
Lemma ocrLoop_refusal_step (fuel : nat) (svc : service) (retries : nat) (raw : text) :
  svc retries = Some raw ->
  isRefusal (cleanResponse raw) = true ->
  ocrLoop (S fuel) maxRetries idx pg path svc retries =
  if maxRetries <=? S retries then
    (Failed, [Call retries (if retries <? 2 then Temp0 else Temp05) (2 <? retries)])
  else
    (fst (ocrLoop fuel maxRetries idx pg path svc (S retries)),
     Call retries (if retries <? 2 then Temp0 else Temp05) (2 <? retries)
       :: Delay (Nat.min (500 * S retries) 5000)
       :: snd (ocrLoop fuel maxRetries idx pg path svc (S retries))).
Proof.
  intros Hs Hr. cbn [ocrLoop]. rewrite Hs, Hr.
  rewrite (isRefusal_nonEmpty _ Hr). cbn [negb].
  destruct (maxRetries <=? S retries); [reflexivity|].
  now destruct (ocrLoop fuel maxRetries idx pg path svc (S retries)).
Qed.

Lemma ocrLoop_always_empty (fuel retries : nat) :
  fst (ocrLoop fuel maxRetries idx pg path (fun _ => Some []) retries) = Running
  /\ calls (snd (ocrLoop fuel maxRetries idx pg path (fun _ => Some []) retries))
     = fuel.
Proof.
  revert retries. induction fuel as [|fuel IH]; intros retries.
  - split; reflexivity.
  - rewrite (@ocrLoop_empty_step fuel (fun _ => Some []) retries []);
      [|reflexivity|apply cleanResponse_nil].
    destruct (IH (S retries)) as [H1 H2]. cbn [fst snd]. split; [exact H1|].
    unfold calls in *. cbn [filter length]. now rewrite H2.
Qed.

Lemma ocrLoop_always_refused (svc : service) :
  (forall k, exists raw, svc k = Some raw /\ isRefusal (cleanResponse raw) = true) ->
  forall fuel retries,
    Nat.max 1 (maxRetries - retries) <= fuel ->
    fst (ocrLoop fuel maxRetries idx pg path svc retries) = Failed
    /\ calls (snd (ocrLoop fuel maxRetries idx pg path svc retries))
       = Nat.max 1 (maxRetries - retries)
    /\ delays (snd (ocrLoop fuel maxRetries idx pg path svc retries))
       = map (fun attempt => Nat.min (500 * attempt) 5000)
             (seq (S retries) (maxRetries - S retries)).
Proof.
  intros Hsvc. induction fuel as [|fuel IH]; intros retries Hfuel; [lia|].
  destruct (Hsvc retries) as (raw & Hs & Hr).
  rewrite (ocrLoop_refusal_step fuel svc retries Hs Hr).
  destruct (maxRetries <=? S retries) eqn:E.
  - apply Nat.leb_le in E. cbn [fst snd]. repeat split.
    + unfold calls. cbn [filter length]. lia.
    + replace (maxRetries - S retries) with 0 by lia. reflexivity.
  - apply Nat.leb_gt in E.
    destruct (IH (S retries)) as (H1 & H2 & H3); [lia|].
    cbn [fst snd]. repeat split.
    + exact H1.
    + unfold calls in *. cbn [filter length]. rewrite H2. lia.
    + unfold delays in *. cbn [flat_map app]. rewrite H3.
      replace (maxRetries - S retries) with (S (maxRetries - S (S retries)))
        by lia.
      reflexivity.
Qed.

(** A chunk that the loop returns has text. *)
Lemma ocrLoop_done_has_text (svc : service) (fuel retries : nat) (c : ContentChunk) :
  fst (ocrLoop fuel maxRetries idx pg path svc retries) = Done c ->
  chunkText c <> [].
Proof.
  revert retries. induction fuel as [|fuel IH]; intros retries; [discriminate|].
  cbn [ocrLoop]. destruct (svc retries) as [raw|]; [|discriminate].
  destruct (nonEmpty (cleanResponse raw)) eqn:En; cbn [negb].
  - destruct (isRefusal (cleanResponse raw)).
    + destruct (maxRetries <=? S retries); [discriminate|].
      specialize (IH (S retries)).
      destruct (ocrLoop fuel maxRetries idx pg path svc (S retries)).
      exact IH.
    + cbn. intros H. injection H as <-. cbn.
      intros E. rewrite E in En. discriminate.
  - specialize (IH (S retries)).
    destruct (ocrLoop fuel maxRetries idx pg path svc (S retries)).
    exact IH.
Qed.

End OcrLoop.

Section Sorting.

Variables (A : Type) (cmp : A -> A -> Z).

Lemma In_insertBy (x y : A) (l : list A) :
  In y (insertBy cmp x l) <-> y = x \/ In y l.
Proof.
  induction l as [|z l IH]; simpl.
  - intuition congruence.
  - destruct (cmp x z <=? 0)%Z; simpl; [intuition congruence|].
    rewrite IH. intuition congruence.
Qed.

Lemma In_sortBy (y : A) (l : list A) : In y (sortBy cmp l) <-> In y l.
Proof.
  induction l as [|x l IH]; simpl; [tauto|].
  rewrite In_insertBy, IH. intuition congruence.
Qed.

Lemma length_insertBy (x : A) (l : list A) :
  length (insertBy cmp x l) = S (length l).
Proof.
  induction l as [|z l IH]; simpl; [reflexivity|].
  destruct (cmp x z <=? 0)%Z; simpl; congruence.
Qed.

Lemma length_sortBy (l : list A) : length (sortBy cmp l) = length l.
Proof.
  induction l as [|x l IH]; simpl; [reflexivity|].
  now rewrite length_insertBy, IH.
Qed.

End Sorting.

Section Collect.

Variables (fuel maxRetries : nat).

Lemma collect_has_text (images : list (text * service)) (content : list ContentChunk) :
  collect fuel maxRetries images = Some (Some content) ->
  forall c, In c content -> chunkText c <> [].
Proof.
  revert content. induction images as [|[p svc] images IH]; intros content.
  - cbn. intros H; injection H as <-. intros c [].
  - cbn [collect]. destruct (parseScreenshot p) as [[i pg]|]; [|discriminate].
    destruct (collect fuel maxRetries images) as [others|]; [|discriminate].
    destruct (fst (ocrLoop fuel maxRetries i pg p svc 0)) eqn:E.
    + destruct others as [l|]; [|discriminate].
      intros H; injection H as <-. intros c' [<-|Hin].
      * eapply ocrLoop_done_has_text; eassumption.
      * eapply IH; [reflexivity|assumption].
    + destruct others as [l|]; [|discriminate].
      intros H; injection H as <-. now apply IH.
    + discriminate.
Qed.

(** An image whose task fails adds nothing and holds nothing back. *)
Lemma collect_skips_failed (before after : list (text * service))
  (p : text) (svc : service) (i pg : Z) :
  parseScreenshot p = Some (i, pg) ->
  fst (ocrLoop fuel maxRetries i pg p svc 0) = Failed ->
  collect fuel maxRetries (before ++ (p, svc) :: after)
  = collect fuel maxRetries (before ++ after).
Proof.
  intros Hp Hf. induction before as [|[q s] before IH].
  - cbn [app collect]. rewrite Hp, Hf.
    destruct (collect fuel maxRetries after) as [[l|]|]; reflexivity.
  - cbn [app collect]. now rewrite IH.
Qed.

End Collect.

(** C2.  When every answer of the recognition service cleans to the empty
    text, the loop of an image makes as many calls as it is given steps and
    has still not left, whatever the retry bound: the empty-text branch
    goes round without looking at the bound. *)
Theorem ocrLoop_empty_answers_unbounded :
  forall (maxRetries fuel : nat) (idx pg : Z) (path : text),
    fst (ocrLoop fuel maxRetries idx pg path (fun _ => Some []) 0) = Running
    /\ calls (snd (ocrLoop fuel maxRetries idx pg path (fun _ => Some []) 0))
       = fuel.
Proof. intros. apply ocrLoop_always_empty. Qed.

(** C5 (as amended).  With a retry bound R and a service that answers every
    call for one image with a refusal, the task of that image fails after
    max(1, R) calls (R calls when R is at least 1), it waits
    min(500 * k, 5000) ms after the k-th call for k = 1 .. R - 1, the run
    collects exactly what it collects without that image, and no chunk of
    [content.json] has an empty text. *)
Theorem permanent_refusals_bounded_and_excluded :
  forall (maxRetries fuel : nat) (svc : service) (path : text) (idx pg : Z)
         (before after : list (text * service)),
    (forall k, exists raw,
        svc k = Some raw /\ isRefusal (cleanResponse raw) = true) ->
    parseScreenshot path = Some (idx, pg) ->
    Nat.max 1 maxRetries <= fuel ->
    fst (ocrLoop fuel maxRetries idx pg path svc 0) = Failed
    /\ calls (snd (ocrLoop fuel maxRetries idx pg path svc 0))
       = Nat.max 1 maxRetries
    /\ delays (snd (ocrLoop fuel maxRetries idx pg path svc 0))
       = map (fun attempt => Nat.min (500 * attempt) 5000)
             (seq 1 (maxRetries - 1))
    /\ collect fuel maxRetries (before ++ (path, svc) :: after)
       = collect fuel maxRetries (before ++ after)
    /\ forall content,
         main fuel maxRetries (before ++ (path, svc) :: after) = Written content ->
         forall c, In c content -> chunkText c <> [].
Proof.
  intros maxRetries fuel svc path idx pg before after Hsvc Hp Hfuel.
  destruct (@ocrLoop_always_refused maxRetries idx pg path svc Hsvc fuel 0)
    as (H1 & H2 & H3).
  { now rewrite Nat.sub_0_r. }
  rewrite Nat.sub_0_r in H2.
  repeat split; try assumption.
  - now apply collect_skips_failed with (i := idx) (pg := pg).
  - intros content Hmain c Hin. unfold main in Hmain.
    destruct (before ++ (path, svc) :: after) as [|x l] eqn:El; [discriminate|].
    destruct (collect fuel maxRetries (x :: l)) as [[content0|]|] eqn:Ec;
      try discriminate.
    injection Hmain as <-. apply In_sortBy in Hin.
    eapply collect_has_text; eassumption.
Qed.

Lemma permanent_refusals_bounded_and_excluded_witness :
  fst (ocrLoop 3 3 0 1 (lit "00-01.png") alwaysSorry 0) = Failed
  /\ calls (snd (ocrLoop 3 3 0 1 (lit "00-01.png") alwaysSorry 0)) = Nat.max 1 3
  /\ delays (snd (ocrLoop 3 3 0 1 (lit "00-01.png") alwaysSorry 0))
     = map (fun attempt => Nat.min (500 * attempt) 5000) (seq 1 (3 - 1))
  /\ collect 3 3 ([] ++ (lit "00-01.png", alwaysSorry) :: [])
     = collect 3 3 ([] ++ [])
  /\ forall content,
       main 3 3 ([] ++ (lit "00-01.png", alwaysSorry) :: []) = Written content ->
       forall c, In c content -> chunkText c <> [].
Proof.
  apply (@permanent_refusals_bounded_and_excluded
           3 3 alwaysSorry (lit "00-01.png") 0%Z 1%Z [] []).
  - intros k. exists (lit "I'm sorry"). split; reflexivity.
  - reflexivity.
  - simpl. lia.
Defined.

(** C5, as it is written, fails for the retry bound 0: the do-while loop
    makes its first call before it looks at the bound. *)
Lemma zero_bound_still_calls_once :
  calls (snd (ocrLoop 5 0 0 1 (lit "00-01.png") alwaysSorry 0)) = 1
  /\ ~ calls (snd (ocrLoop 5 0 0 1 (lit "00-01.png") alwaysSorry 0)) <= 0.
Proof. split; [reflexivity|]. vm_compute. lia. Qed.

(** ** The change tests of the capture loop *)

Import Capture.

Lemma sig_nonEmpty (d : Dom) : nonEmpty (brSig (stateOfDom d)) = true.
Proof. unfold stateOfDom. cbn [brSig]. apply nonEmpty_app_cons. Qed.

Lemma changed_iff (prevSig : text) (prevPage : Z) (st : BrState) :
  changed prevSig prevPage st = true <->
  pageOr st (-1) <> prevPage \/ (brSig st <> [] /\ brSig st <> prevSig).
Proof.
  unfold changed.
  rewrite orb_true_iff, andb_true_iff, !negb_true_iff, Z.eqb_neq, textEqb_neq.
  assert (nonEmpty (brSig st) = true <-> brSig st <> []) as ->; [|tauto].
  destruct (brSig st); cbn; split; congruence.
Qed.

Lemma unchanged_iff (lastSig : text) (lastPageNum : Z) (st : BrState) :
  unchanged lastSig lastPageNum st = true <->
  brSig st = lastSig \/ pageOr st (-1) = lastPageNum.
Proof.
  unfold unchanged. now rewrite orb_true_iff, textEqb_eq, Z.eqb_eq.
Qed.

(** What the two tests compute.  For a state that [getBrState] returns, the
    test of [advanceOnce] answers true exactly when the page number (-1
    when the reader gives none) or the signature differs from the previous
    one; the test at the start of an iteration reports a change only when
    both differ. *)
Lemma change_tests_characterised :
  (forall (prevSig : text) (prevPage : Z) (d : Dom),
      changed prevSig prevPage (stateOfDom d) = true <->
      (pageOr (stateOfDom d) (-1) <> prevPage
       \/ brSig (stateOfDom d) <> prevSig))
  /\ (forall (lastSig : text) (lastPageNum : Z) (st : BrState),
      unchanged lastSig lastPageNum st = false <->
      (brSig st <> lastSig /\ pageOr st (-1) <> lastPageNum)).
Proof.
  split.
  - intros prevSig prevPage d. rewrite changed_iff.
    pose proof (sig_nonEmpty d) as Hne.
    assert (brSig (stateOfDom d) <> []) by (intros E; now rewrite E in Hne).
    tauto.
  - intros lastSig lastPageNum st. unfold unchanged.
    now rewrite orb_false_iff, textEqb_neq, Z.eqb_neq.
Qed.

(** C3.  The reader shows leaf 0 and then leaf 1, with other images and
    the page number stuck at 1.  The signature changed, and the test of
    [advanceOnce] reports the advance; the test at the start of the next
    iteration reports none, because it asks for both signals to change.
    The loop then advances a second time before it captures: over three
    iterations it keeps the leaves 0, 2 and 4 and never the leaves 1
    and 3.  And when the reader gives no page number, the test of
    [advanceOnce] reports an advance from an observation to itself: the
    page recorded at the capture of index 0 is 1, the page read back
    is -1. *)
Theorem loop_start_test_wants_both_signals :
  changed (brSig (stateOfDom (mkDom (Some 1%Z) [lit "leaf0"]))) 1
          (stateOfDom (mkDom (Some 1%Z) [lit "leaf1"])) = true
  /\ unchanged (brSig (stateOfDom (mkDom (Some 1%Z) [lit "leaf0"]))) 1
               (stateOfDom (mkDom (Some 1%Z) [lit "leaf1"])) = true
  /\ map snd
         (rev (files (snd (@captureLoop nat stuckPageViewer sampleConfig 3 0
                             initialVars startMachine))))
     = [lit "0"; lit "2"; lit "4"]
  /\ changed (brSig (stateOfDom (mkDom None [lit "leaf0"])))
             (pageOr (stateOfDom (mkDom None [lit "leaf0"])) (Z.of_nat 0 + 1))
             (stateOfDom (mkDom None [lit "leaf0"])) = true.
Proof. repeat split; vm_compute; reflexivity. Qed.

(** ** The capture loop *)

Section CaptureFacts.

Context {World : Type} {V : Viewer World}.

Local Open Scope script_scope.

Lemma bind_run (A B : Type) (c : M World A) (k : A -> M World B)
  (m : Machine World) :
  bind c k m = match c m with
               | (Some a, m') => k a m'
               | (None, m') => (None, m')
               end.
Proof. reflexivity. Qed.

(** The events of [captureFrame], whether it succeeds or throws. *)
Lemma captureFrame_log (i : nat) (lastH : text) (m : Machine World) :
  exists delta,
    log (snd (captureFrame i lastH m)) = log m ++ delta
    /\ files (snd (captureFrame i lastH m)) = files m
    /\ shots delta <= 2 /\ nexts delta <= 1 /\ clicks delta <= 1
    /\ (i = 0 -> shots delta <= 1 /\ nexts delta = 0 /\ clicks delta = 0)
    /\ forall buf hash,
         fst (captureFrame i lastH m) = Some (buf, hash) ->
         hash = sha1 buf
         /\ ((0 < i
               /\ delta = [EvWait; EvTarget; EvShot lastH; EvNext; EvClick;
                           EvWait; EvShot hash])
             \/ ((i = 0 \/ hash <> lastH)
                 /\ delta = [EvWait; EvTarget; EvShot hash])).
Proof.
  destruct m as [w lg fs].
  unfold captureFrame, waitForPageStable, tryAct, screenshotOf, act, ret.
  rewrite !bind_run. cbn [world log files].
  destruct (waitStable w) as [w1|].
  2:{ exists [EvWait]. cbn. repeat split; try lia; discriminate. }
  rewrite !bind_run. cbn [world log files].
  destruct (findTarget w1) as [w2|].
  2:{ exists [EvWait; EvTarget]. cbn. rewrite <- app_assoc.
      repeat split; try lia; discriminate. }
  rewrite !bind_run. cbn [world log files].
  destruct (takeScreenshot w2) as [buf1|].
  2:{ exists [EvWait; EvTarget]. cbn. rewrite <- app_assoc.
      repeat split; try lia; discriminate. }
  destruct (textEqb (sha1 buf1) lastH) eqn:Eh; cbn [andb].
  2:{ exists [EvWait; EvTarget; EvShot (sha1 buf1)]. cbn.
      rewrite <- !app_assoc. repeat split; try lia.
      - injection H as <- <-. reflexivity.
      - injection H as <- <-. right. split; [|reflexivity].
        right. now apply textEqb_neq. }
  apply textEqb_eq in Eh.
  destruct (0 <? i) eqn:Ei.
  2:{ apply Nat.ltb_ge in Ei.
      exists [EvWait; EvTarget; EvShot (sha1 buf1)]. cbn.
      rewrite <- !app_assoc. repeat split; try lia.
      - injection H as <- <-. reflexivity.
      - injection H as <- <-. right. split; [left; lia|reflexivity]. }
  apply Nat.ltb_lt in Ei.
  rewrite !bind_run. cbn [world log files].
  destruct (waitStable (clickNextQuick (brNext w2))) as [w3|].
  2:{ exists [EvWait; EvTarget; EvShot (sha1 buf1); EvNext; EvClick; EvWait].
      cbn. rewrite <- !app_assoc. repeat split; try lia; discriminate. }
  rewrite !bind_run. cbn [world log files].
  destruct (takeScreenshot w3) as [buf2|].
  2:{ exists [EvWait; EvTarget; EvShot (sha1 buf1); EvNext; EvClick; EvWait].
      cbn. rewrite <- !app_assoc. repeat split; try lia; discriminate. }
  exists [EvWait; EvTarget; EvShot (sha1 buf1); EvNext; EvClick; EvWait;
          EvShot (sha1 buf2)].
  cbn. rewrite <- !app_assoc. repeat split; try lia.
  - injection H as <- <-. reflexivity.
  - injection H as <- <-. left. split; [exact Ei|]. now rewrite Eh.
Qed.

End CaptureFacts.



Section Stagnation.

Context {World : Type} {V : Viewer World}.

Local Open Scope script_scope.

Variables (cfg : Config) (v : LoopVars).

(** A set of states of the reader in which nothing that the script does
    produces a change that [advanceOnce] detects. *)
Variable Frozen : World -> Prop.

Hypothesis frozen_closed :
  forall w, Frozen w ->
    Frozen (brNext w) /\ Frozen (clickNext w) /\ Frozen (pressArrowRight w)
    /\ Frozen (attemptBorrowOn w)
    /\ (exists w', waitStable w = Some w' /\ Frozen w')
    /\ (exists d, readDom w = Some d
                  /\ changed (lastSig v) (lastPageNum v) (stateOfDom d) = false).

Lemma getBrState_frozen (m : Machine World) :
  Frozen (world m) ->
  exists st,
    getBrState m = (Some st, m)
    /\ changed (lastSig v) (lastPageNum v) st = false.
Proof.
  intros Hf. destruct (frozen_closed Hf) as (_ & _ & _ & _ & _ & d & Hd & Hc).
  exists (stateOfDom d). split; [|exact Hc].
  unfold getBrState, query, ret. rewrite bind_run. now rewrite Hd.
Qed.

(** One strategy of [advanceOnce] in a frozen reader. *)
Lemma strategy_frozen (A : Type) (e : event) (f : World -> World)
  (k : BrState -> M World A) (m : Machine World) :
  (forall w, Frozen w -> Frozen (f w)) ->
  Frozen (world m) ->
  exists st m1,
    changed (lastSig v) (lastPageNum v) st = false
    /\ Frozen (world m1)
    /\ log m1 = log m ++ [e; EvWait]
    /\ files m1 = files m
    /\ (act e f ;;; waitForPageStable ;;; st <- getBrState ;; k st) m = k st m1.
Proof.
  intros Hclosed Hf. destruct m as [w lg fs]. cbn [world] in Hf.
  destruct (frozen_closed (Hclosed _ Hf)) as (_ & _ & _ & _ & (w' & Hw & Hf') & _).
  destruct (@getBrState_frozen (mkMachine w' ((lg ++ [e]) ++ [EvWait]) fs) Hf')
    as (st & Hst & Hc).
  exists st, (mkMachine w' ((lg ++ [e]) ++ [EvWait]) fs).
  split; [exact Hc|]. split; [exact Hf'|]. split.
  { cbn. now rewrite <- app_assoc. }
  split; [reflexivity|].
  unfold act, waitForPageStable, tryAct. rewrite !bind_run.
  cbn [world log files]. rewrite Hw. rewrite bind_run. now rewrite Hst.
Qed.

Lemma advanceOnce_frozen (m : Machine World) :
  Frozen (world m) ->
  exists m',
    advanceOnce (lastSig v) (lastPageNum v) m = (Some false, m')
    /\ Frozen (world m')
    /\ log m' = log m ++ advanceRound
    /\ files m' = files m.
Proof.
  intros Hf. unfold advanceOnce.
  edestruct (@strategy_frozen bool EvNext brNext) as (st1 & m1 & Hc1 & Hf1 & Hl1 & Hfs1 & ->);
    [intros w Hw; apply (frozen_closed Hw)|exact Hf|].
  rewrite Hc1.
  edestruct (@strategy_frozen bool EvClick clickNext) as (st2 & m2 & Hc2 & Hf2 & Hl2 & Hfs2 & ->);
    [intros w Hw; apply (frozen_closed Hw)|exact Hf1|].
  rewrite Hc2.
  edestruct (@strategy_frozen bool EvKey pressArrowRight) as (st3 & m3 & Hc3 & Hf3 & Hl3 & Hfs3 & ->);
    [intros w Hw; apply (frozen_closed Hw)|exact Hf2|].
  exists m3. unfold ret. rewrite Hc3. split; [reflexivity|].
  split; [exact Hf3|]. split.
  - rewrite Hl3, Hl2, Hl1. unfold advanceRound. now rewrite <- !app_assoc.
  - congruence.
Qed.

Lemma verifyLoop_frozen (left tried : nat) (st : BrState) (m : Machine World) :
  Frozen (world m) ->
  exists m',
    verifyLoop v left tried st m = (Some (st, tried + left), m')
    /\ Frozen (world m')
    /\ log m' = log m ++ concat (repeat retryRound left)
    /\ files m' = files m.
Proof.
  revert tried m. induction left as [|left IH]; intros tried m Hf.
  - exists m. cbn. rewrite Nat.add_0_r, app_nil_r. auto.
  - cbn [verifyLoop]. rewrite bind_run.
    destruct (advanceOnce_frozen _ Hf) as (m1 & -> & Hf1 & Hl1 & Hfs1).
    cbn iota. unfold act at 1. rewrite bind_run.
    edestruct (IH (S tried)) as (m2 & -> & Hf2 & Hl2 & Hfs2).
    { cbn [world]. apply (frozen_closed Hf1). }
    exists m2. split; [f_equal; f_equal; f_equal; lia|].
    split; [exact Hf2|]. split.
    + rewrite Hl2. cbn [log repeat concat]. rewrite Hl1.
      unfold retryRound. now rewrite <- !app_assoc.
    + rewrite Hfs2. cbn [files]. exact Hfs1.
Qed.

(** With a frozen reader, an iteration after the first ends the loop after
    [maxVerifyRetries] retries: no frame is taken, nothing is written. *)
Lemma captureStep_frozen (i : nat) (m : Machine World) :
  0 < i ->
  Frozen (world m) ->
  exists m',
    captureStep cfg i v m = (Some None, m')
    /\ log m' = log m ++ concat (repeat retryRound (maxVerifyRetries cfg))
    /\ files m' = files m.
Proof.
  intros Hi Hf. unfold captureStep, ensureAdvanced. rewrite !bind_run.
  destruct (getBrState_frozen _ Hf) as (st & -> & Hc).
  assert (unchanged (lastSig v) (lastPageNum v) st = true) as Hu.
  { unfold changed in Hc. apply orb_false_iff in Hc. destruct Hc as [Hc _].
    apply negb_false_iff in Hc. unfold unchanged. rewrite Hc.
    apply orb_true_r. }
  apply Nat.ltb_lt in Hi. rewrite Hi, Hu. cbn [andb]. rewrite bind_run.
  destruct (@verifyLoop_frozen (maxVerifyRetries cfg) 0 st m Hf)
    as (m1 & -> & Hf1 & Hl1 & Hfs1).
  cbn [Nat.add]. rewrite Nat.leb_refl, Hu. cbn [andb]. unfold ret.
  exists m1. auto.
Qed.

End Stagnation.

Section LoopFacts.

Context {World : Type} {V : Viewer World}.

Variable cfg : Config.

(** An iteration that does not break adds one page. *)
Lemma captureStep_adds_page (i : nat) (v v' : LoopVars) (m m' : Machine World) :
  captureStep cfg i v m = (Some (Some v'), m') ->
  exists p, pages v' = pages v ++ [p] /\ pgIndex p = i /\ lastPageNum v' = pgPage p.
Proof.
  unfold captureStep. rewrite bind_run.
  destruct (ensureAdvanced cfg i v m) as [[[st|]|] m1]; try discriminate.
  rewrite bind_run.
  destruct (captureFrame i (lastHash v) m1) as [[[buf hash]|] m2];
    try discriminate.
  unfold writeFile, ignoreErrors, ret. rewrite !bind_run. cbn [fst snd].
  intros H. injection H as <- <-. cbn [pages lastPageNum].
  eexists. split; [reflexivity|]. split; reflexivity.
Qed.

(** When the first [k] iterations all capture a page, the loop with more
    iterations goes on from where they end. *)
Lemma captureLoop_split (k r i : nat) (v v' : LoopVars) (m m' : Machine World) :
  captureLoop cfg k i v m = (Some v', m') ->
  length (pages v') = length (pages v) + k ->
  captureLoop cfg (k + r) i v m = captureLoop cfg r (i + k) v' m'.
Proof.
  revert i v m. induction k as [|k IH]; intros i v m Hrun Hlen.
  - cbn in Hrun. injection Hrun as <- <-. now rewrite Nat.add_0_r.
  - cbn [captureLoop Nat.add] in Hrun |- *. rewrite bind_run in Hrun |- *.
    destruct (captureStep cfg i v m) as [[[v1|]|] m1] eqn:Es;
      try discriminate.
    + destruct (captureStep_adds_page _ _ _ Es) as (p & Hp & _).
      rewrite (IH (S i) v1 m1 Hrun).
      * f_equal. lia.
      * rewrite Hp, length_app in *. cbn [length] in *. lia.
    + cbn in Hrun. injection Hrun as <- <-. lia.
Qed.

Lemma finalTotal_last (pgs : list PageChunk) (p : PageChunk) :
  finalTotal cfg (pgs ++ [p]) = pgPage p.
Proof. unfold finalTotal. now rewrite rev_app_distr. Qed.

End LoopFacts.

(** C8.  Let the first k iterations (k at least 1) each capture a page and
    leave the reader in a state from which no strategy of [advanceOnce]
    produces a detected change.  Then the next iteration makes exactly
    [maxVerifyRetries] retries (each one a full round of the three
    strategies followed by a borrow attempt), takes no screenshot, writes
    no file and leaves the loop; [captureIaBook] returns normally with the
    k pages, and both entries of the table of contents carry as total the
    page number of the last captured page, which is also the start page of
    the closing entry. *)
Theorem stagnation_is_a_controlled_stop :
  forall (World : Type) (V : Viewer World) (cfg : Config)
         (Frozen : World -> Prop) (k n : nat) (m0 m : Machine World)
         (v : LoopVars),
    captureUntil cfg = k + S n ->
    0 < k ->
    captureLoop cfg k 0 initialVars m0 = (Some v, m) ->
    length (pages v) = k ->
    Frozen (world m) ->
    (forall w, Frozen w ->
       Frozen (brNext w) /\ Frozen (clickNext w) /\ Frozen (pressArrowRight w)
       /\ Frozen (attemptBorrowOn w)
       /\ (exists w', waitStable w = Some w' /\ Frozen w')
       /\ (exists d, readDom w = Some d
                     /\ changed (lastSig v) (lastPageNum v) (stateOfDom d)
                        = false)) ->
    exists m' earlier lastPage,
      captureIaBook cfg m0 = (Some (buildMetadata cfg v), m')
      /\ log m' = log m ++ concat (repeat retryRound (maxVerifyRetries cfg))
      /\ files m' = files m
      /\ pages v = earlier ++ [lastPage]
      /\ mdPages (buildMetadata cfg v) = pages v
      /\ map total (mdToc (buildMetadata cfg v))
         = [pgPage lastPage; pgPage lastPage]
      /\ map tocPage (mdToc (buildMetadata cfg v))
         = [Some 1%Z; Some (pgPage lastPage)].
Proof.
  intros World V cfg Frozen k n m0 m v Hcap Hk Hrun Hlen Hf Hclosed.
  destruct (@captureStep_frozen World V cfg v Frozen Hclosed k m Hk Hf)
    as (m' & Hstep & Hlog & Hfiles).
  assert (pages v <> []) as Hne.
  { intros E. rewrite E in Hlen. cbn in Hlen. lia. }
  destruct (exists_last Hne) as (earlier & lastPage & Hlast).
  exists m', earlier, lastPage.
  split.
  { unfold captureIaBook. rewrite bind_run, Hcap.
    rewrite (@captureLoop_split World V cfg k (S n) 0 _ _ _ _ Hrun); [|cbn; lia].
    cbn [captureLoop Nat.add]. rewrite bind_run, Hstep. reflexivity. }
  split; [exact Hlog|]. split; [exact Hfiles|]. split; [exact Hlast|].
  split; [reflexivity|].
  unfold buildMetadata. cbn [mdToc map total tocPage].
  rewrite Hlast, finalTotal_last. split; reflexivity.
Qed.

Lemma stagnation_is_a_controlled_stop_witness :
  exists m' earlier lastPage,
    @captureIaBook nat (bookViewer 1) sampleConfig startMachine
    = (Some (buildMetadata sampleConfig varsAfterTwoLeaves), m')
    /\ log m' = log (snd afterTwoLeaves)
                ++ concat (repeat retryRound (maxVerifyRetries sampleConfig))
    /\ files m' = files (snd afterTwoLeaves)
    /\ pages varsAfterTwoLeaves = earlier ++ [lastPage]
    /\ mdPages (buildMetadata sampleConfig varsAfterTwoLeaves)
       = pages varsAfterTwoLeaves
    /\ map total (mdToc (buildMetadata sampleConfig varsAfterTwoLeaves))
       = [pgPage lastPage; pgPage lastPage]
    /\ map tocPage (mdToc (buildMetadata sampleConfig varsAfterTwoLeaves))
       = [Some 1%Z; Some (pgPage lastPage)].
Proof.
  apply (@stagnation_is_a_controlled_stop nat (bookViewer 1) sampleConfig
           (fun w => w = 1) 2 2 startMachine (snd afterTwoLeaves)
           varsAfterTwoLeaves).
  - reflexivity.
  - lia.
  - vm_compute. reflexivity.
  - reflexivity.
  - reflexivity.
  - intros w ->. cbn. repeat split; try reflexivity.
    + exists 1. split; reflexivity.
    + eexists. split; [reflexivity|]. vm_compute. reflexivity.
Defined.

(** ** The assembler *)

Section Boundaries.

Variables (contentSorted : list ContentChunk) (toc : list TocItem).

Lemma findIndex_Some (A : Type) (p : A -> bool) (l : list A) (k : nat) :
  findIndex p l = Some k ->
  k < length l
  /\ (forall j x, j < k -> nth_error l j = Some x -> p x = false)
  /\ (forall x, nth_error l k = Some x -> p x = true).
Proof.
  revert k. induction l as [|a l IH]; intros k; cbn; [discriminate|].
  destruct (p a) eqn:Ea.
  - intros H; injection H as <-. split; [lia|]. split.
    + intros j x Hj. lia.
    + cbn. intros x H; injection H as <-. exact Ea.
  - destruct (findIndex p l) as [k'|]; [|discriminate].
    cbn. intros H; injection H as <-.
    destruct (IH k' eq_refl) as (H1 & H2 & H3).
    split; [lia|]. split.
    + intros [|j] x Hj; cbn.
      * intros H; injection H as <-. exact Ea.
      * apply H2. lia.
    + cbn. exact H3.
Qed.

Lemma findIndex_None (A : Type) (p : A -> bool) (l : list A) :
  findIndex p l = None -> forall x, In x l -> p x = false.
Proof.
  induction l as [|a l IH]; cbn; [intros _ x []|].
  destruct (p a) eqn:Ea; [discriminate|].
  destruct (findIndex p l); [discriminate|].
  intros _ x [<-|Hin]; [exact Ea|now apply IH].
Qed.

(** The boundary of [computeNextIndex] is the first chunk at or after the
    next start page, clamped from below by the cursor. *)
Lemma computeNextIndex_spec (currentIndex tocIndex : nat) :
  currentIndex <= length contentSorted ->
  exists b,
    computeNextIndex contentSorted toc currentIndex tocIndex
    = Nat.max currentIndex b
    /\ b <= length contentSorted
    /\ match nextStartPage toc tocIndex with
       | Some p => firstAtLeast contentSorted p b
       | None => b = length contentSorted
       end.
Proof.
  intros Hcur. unfold computeNextIndex, nextStartPage.
  destruct (nth_error toc (tocIndex + 1)) as [nextTocItem|].
  2:{ exists (length contentSorted). split; [lia|]. split; [lia|reflexivity]. }
  destruct (tocPage nextTocItem) as [p|].
  2:{ exists (length contentSorted). split; [lia|]. split; [lia|reflexivity]. }
  destruct (findIndex (fun c => (p <=? page c)%Z) contentSorted) as [k|] eqn:Ef.
  - destruct (findIndex_Some _ _ Ef) as (H1 & H2 & H3).
    exists k. split.
    { destruct (k <? currentIndex) eqn:E;
        [apply Nat.ltb_lt in E|apply Nat.ltb_ge in E]; lia. }
    split; [lia|]. split; [lia|]. split.
    + intros j c Hj Hc. specialize (H2 j c Hj Hc). cbn in H2. lia.
    + intros c Hc. specialize (H3 c Hc). cbn in H3. lia.
  - pose proof (findIndex_None _ _ Ef) as Hnone.
    exists (length contentSorted). split.
    { destruct (length contentSorted <? currentIndex) eqn:E;
        [apply Nat.ltb_lt in E|apply Nat.ltb_ge in E]; lia. }
    split; [lia|]. split; [lia|]. split.
    + intros j c _ Hc. apply nth_error_In in Hc.
      specialize (Hnone c Hc). cbn in Hnone. lia.
    + intros c Hc. assert (nth_error contentSorted (length contentSorted) = None)
        as E by (apply nth_error_None; lia).
      congruence.
Qed.

Lemma sectionLoop_spec (n i index : nat) :
  index <= length contentSorted ->
  chained (length contentSorted) index (sectionLoop contentSorted toc n i index)
  /\ Forall (boundOk contentSorted toc)
            (sectionLoop contentSorted toc n i index).
Proof.
  revert i index. induction n as [|n IH]; intros i index Hidx; cbn [sectionLoop].
  - split; [exact I|constructor].
  - destruct (nth_error toc i) as [tocItem|] eqn:Et.
    2:{ split; [exact I|constructor]. }
    destruct (tocPage tocItem) as [p|] eqn:Ep.
    2:{ apply IH. exact Hidx. }
    destruct (computeNextIndex_spec i Hidx) as (b & Hb & Hle & Hspec).
    destruct (IH (S i) (computeNextIndex contentSorted toc index i)) as [Hc Hf].
    { rewrite Hb. lia. }
    split.
    + cbn [chained]. rewrite Hb in *. repeat split; try lia. exact Hc.
    + constructor; [|exact Hf]. cbn. split; [congruence|].
      exists i, b. auto.
Qed.

(** The loop renders the positions with a start page among those it
    visits, in order, each with the slice that the specification asks
    for. *)
Lemma sectionLoop_positions (n i index : nat) :
  index <= length contentSorted ->
  i + n <= length toc ->
  Forall2 (sliceOk contentSorted toc)
    (filter (fun j => match nth_error toc j with
                      | Some tocItem => hasPage tocItem
                      | None => false
                      end)
            (seq i n))
    (sectionLoop contentSorted toc n i index).
Proof.
  revert i index. induction n as [|n IH]; intros i index Hidx Hlen;
    cbn [seq filter sectionLoop]; [constructor|].
  destruct (nth_error toc i) as [tocItem|] eqn:Et.
  2:{ apply nth_error_None in Et. lia. }
  unfold hasPage at 1. destruct (tocPage tocItem) as [p|] eqn:Ep.
  - destruct (computeNextIndex_spec i Hidx) as (b & Hb & Hle & Hspec).
    constructor.
    + cbn. split; [exact Et|]. exists b. auto.
    + apply IH; [rewrite Hb|]; lia.
  - apply IH; [exact Hidx|lia].
Qed.

End Boundaries.

(** C4.  For every table of contents and every sorted chunk list, the
    sectioning loop renders exactly the entries with a start page that
    stand before the last entry, in their order, one slice for each; the
    slices start at 0 and follow one another; the end of the slice of the
    entry at position i is the index of the first chunk whose page is at
    least the start page of the entry at position i + 1 (the end of the
    list when there is no such chunk or that entry has no start page),
    raised to the cursor when it lies before it; so the cursor never moves
    backwards, whatever the order of the start pages. *)
Theorem section_boundaries_clamped :
  forall (contentSorted : list ContentChunk) (toc : list TocItem),
    chained (length contentSorted) 0 (sectionBounds contentSorted toc)
    /\ Forall (boundOk contentSorted toc) (sectionBounds contentSorted toc)
    /\ Forall2 (sliceOk contentSorted toc)
               (renderedPositions toc) (sectionBounds contentSorted toc).
Proof.
  intros contentSorted toc. unfold sectionBounds, renderedPositions.
  destruct (@sectionLoop_spec contentSorted toc (length toc - 1) 0 0)
    as [H1 H2]; [lia|].
  split; [exact H1|]. split; [exact H2|].
  apply sectionLoop_positions; lia.
Qed.

(** A table of contents whose third entry starts before the second one:
    the cursor stays where it is and the section of the second entry is
    empty, it does not run backwards. *)
Example boundary_clamp_regression :
  map (fun s => (title (fst (fst s)), snd (fst s), snd s))
      (sectionBounds
         [ mkChunk 0 1 [] []; mkChunk 1 2 [] []; mkChunk 2 3 [] [];
           mkChunk 3 4 [] []; mkChunk 4 5 [] [] ]
         [ mkToc (lit "A") (Some 1%Z) 5; mkToc (lit "B") (Some 4%Z) 5;
           mkToc (lit "C") (Some 2%Z) 5; mkToc (lit "End") (Some 9%Z) 5 ])
  = [ (lit "A", 0, 3); (lit "B", 3, 3); (lit "C", 3, 5) ].
Proof. reflexivity. Qed.

Section SynthesizedToc.




End SynthesizedToc.

(** C6.  For three chunks on the pages 1, 2 and 3 and no [metadata.json],
    the assembler writes one section, "Content", with the chunks of the
    pages 1 and 2 only: the chunk of page 3, the highest page, is left
    out of the book. *)
Theorem synthesized_toc_drops_last_page :
  sections (lit "book") None threePages
  = [ (lit "Content", firstn 2 threePages, lit "one" ++ [nl; nl] ++ lit "two") ]
  /\ ~ In (mkChunk 2 3 (lit "three") (lit "out/book/pages/02-03.png"))
          (firstn 2 threePages)
  /\ In (mkChunk 2 3 (lit "three") (lit "out/book/pages/02-03.png"))
        threePages.
Proof.
  split; [vm_compute; reflexivity|]. split.
  - cbn. intros [H|[H|[]]]; discriminate H.
  - cbn. auto.
Qed.

(** ** The regular expressions of [cleanResponse] *)

Section Greedy.

Variables (c : cls) (exit : nat -> text -> option ascii -> text -> result).

Lemma greedy_stop (n : nat) (acc : text) (prev : option ascii) (s : text) :
  match s with [] => True | a :: _ => cmatch c a = false end ->
  greedy c exit n acc prev s = exit n acc prev s.
Proof. destruct s as [|a s]; cbn; [reflexivity|]. now intros ->. Qed.

Lemma greedy_cons (n : nat) (acc : text) (prev : option ascii) (a : ascii) (s : text) :
  cmatch c a = true ->
  greedy c exit n acc prev (a :: s)
  = match greedy c exit (S n) (a :: acc) (Some a) s with
    | Some r => Some r
    | None => exit n acc prev (a :: s)
    end.
Proof. cbn. now intros ->. Qed.

(** When the continuation succeeds after the whole run, that is the
    answer. *)
Lemma greedy_run (run rest : text) (r : nat * list text) :
  Forall (fun a => cmatch c a = true) run ->
  match rest with [] => True | a :: _ => cmatch c a = false end ->
  forall n acc prev,
    exit (length run + n) (rev_append run acc) (prevAfter prev run) rest = Some r ->
    greedy c exit n acc prev (run ++ rest) = Some r.
Proof.
  intros Hrun Hrest. induction Hrun as [|a run Ha Hrun IH]; intros n acc prev He.
  - cbn in *. now rewrite greedy_stop.
  - cbn [app]. rewrite greedy_cons by exact Ha.
    rewrite (IH (S n) (a :: acc) (Some a)); [reflexivity|].
    cbn [length rev_append prevAfter fold_left Nat.add] in He.
    now rewrite Nat.add_succ_r.
Qed.

End Greedy.

Section Unfolding.

Lemma matchHere_bol (r : regex) (prev : option ascii) (s : text) :
  matchHere (IBol :: r) prev s = if atBol prev then matchHere r prev s else None.
Proof. reflexivity. Qed.

Lemma matchHere_eol (r : regex) (prev : option ascii) (s : text) :
  matchHere (IEol :: r) prev s = if atEol s then matchHere r prev s else None.
Proof. reflexivity. Qed.

Lemma matchHere_one (c : cls) (r : regex) (prev : option ascii) (a : ascii) (s : text) :
  matchHere (IOne c :: r) prev (a :: s)
  = if cmatch c a then
      match matchHere r (Some a) s with
      | Some (k, caps) => Some (S k, caps)
      | None => None
      end
    else None.
Proof. reflexivity. Qed.

Lemma matchHere_rep (cap : bool) (c : cls) (min : nat) (r : regex)
  (prev : option ascii) (s : text) :
  matchHere (IRep cap c min :: r) prev s
  = greedy c
      (fun n acc prev' s' =>
         if min <=? n then
           match matchHere r prev' s' with
           | Some (k, caps) =>
               Some (n + k, if cap then rev acc :: caps else caps)
           | None => None
           end
         else None)
      0 [] prev s.
Proof. reflexivity. Qed.

End Unfolding.

Section CharClasses.

Lemma isLT_isSpace (a : ascii) : isLT a = true -> isSpace a = true.
Proof.
  unfold isLT, isSpace. intros H. apply orb_true_iff in H.
  destruct H as [H|H]; apply Nat.eqb_eq in H; now rewrite H.
Qed.

Lemma notSpace_notLT (a : ascii) : isSpace a = false -> isLT a = false.
Proof.
  intros H. destruct (isLT a) eqn:E; [|reflexivity].
  apply isLT_isSpace in E. congruence.
Qed.



End CharClasses.

Section LineStart.

Lemma greedy_lineStart (s : text) (n : nat) (acc : text) (prev : option ascii) :
  greedy CSpace
    (fun n acc prev' s' =>
       if 0 <=? n then
         match matchHere [] prev' s' with
         | Some (k, caps) => Some (n + k, if false then rev acc :: caps else caps)
         | None => None
         end
       else None)
    n acc prev s
  = Some (n + length (takeWhile isSpace s), []).
Proof.
  revert n acc prev. induction s as [|a s IH]; intros n acc prev.
  - reflexivity.
  - cbn [greedy cmatch takeWhile]. destruct (isSpace a).
    + rewrite IH. cbn [length]. do 2 f_equal. lia.
    + reflexivity.
Qed.

Lemma matchHere_lineStart (prev : option ascii) (s : text) :
  matchHere reLineStart prev s
  = if atBol prev then Some (length (takeWhile isSpace s), []) else None.
Proof.
  cbn [matchHere reLineStart]. destruct (atBol prev); [|reflexivity].
  now rewrite greedy_lineStart.
Qed.

(** Where a line starts matters to [stripLead] only in front of
    whitespace. *)
Lemma stripLead_bol (b : bool) (s : text) :
  length (takeWhile isSpace s) = 0 ->
  stripLead b s = stripLead false s.
Proof.
  destruct s as [|a s]; [reflexivity|]. cbn.
  destruct (isSpace a); [discriminate|]. now rewrite andb_false_r.
Qed.

Lemma replaceGo_lineStart (s : text) :
  (forall prev, replaceGo reLineStart [] 0 prev s = stripLead (atBol prev) s)
  /\ (forall prev k,
        k = length (takeWhile isSpace s) -> 0 < k ->
        replaceGo reLineStart [] k prev s = stripLead true s).
Proof.
  induction s as [|a s [IH0 IHk]].
  - split.
    + intros prev. cbn [replaceGo]. rewrite matchHere_lineStart.
      now destruct (atBol prev).
    + intros prev k -> Hk. cbn in Hk. lia.
  - assert (forall k,
              k = length (takeWhile isSpace s) ->
              isSpace a = true ->
              replaceGo reLineStart [] k (Some a) s = stripLead true s) as Hskip.
    { intros k Hk Ha. destruct k as [|k].
      - rewrite IH0. rewrite (@stripLead_bol true), (@stripLead_bol (atBol (Some a)));
          auto.
      - apply IHk; [exact Hk|lia]. }
    split.
    + intros prev. cbn [replaceGo]. rewrite matchHere_lineStart.
      destruct (atBol prev) eqn:Eb.
      * cbn [takeWhile stripLead andb]. destruct (isSpace a) eqn:Ea.
        -- cbn [length app]. now apply Hskip.
        -- cbn [length app]. now rewrite IH0.
      * cbn [stripLead andb]. now rewrite IH0.
    + intros prev k Hk Hpos. cbn [takeWhile] in Hk.
      destruct (isSpace a) eqn:Ea; [|cbn in Hk; lia].
      cbn [length] in Hk. subst k. cbn [replaceGo stripLead andb].
      rewrite Ea. now apply Hskip.
Qed.

Lemma replaceAll_lineStart (s : text) :
  replaceAll reLineStart [] s = stripLead true s.
Proof. unfold replaceAll. now rewrite (proj1 (replaceGo_lineStart s)). Qed.

Lemma okLead_stripLead (b : bool) (s : text) : okLead b (stripLead b s) = true.
Proof.
  revert b. induction s as [|a s IH]; intros b; [reflexivity|].
  cbn [stripLead]. destruct (b && isSpace a) eqn:E.
  - destruct b; [|discriminate]. apply IH.
  - cbn [okLead]. now rewrite E, IH.
Qed.

End LineStart.

Section LineEnd.

Lemma greedy_lineEnd (s : text) (n : nat) (acc : text) (prev : option ascii) :
  greedy CSpace
    (fun n acc prev' s' =>
       if 0 <=? n then
         match matchHere [IEol] prev' s' with
         | Some (k, caps) => Some (n + k, if false then rev acc :: caps else caps)
         | None => None
         end
       else None)
    n acc prev s
  = option_map (fun k => (n + k, [])) (eolSpan s).
Proof.
  revert n acc prev. induction s as [|a s IH]; intros n acc prev.
  - reflexivity.
  - cbn [greedy cmatch eolSpan]. destruct (isSpace a).
    + rewrite IH. destruct (eolSpan s) as [k|]; cbn [option_map].
      * do 2 f_equal. lia.
      * cbn. now destruct (isLT a).
    + cbn. now destruct (isLT a).
Qed.

Lemma matchHere_lineEnd (prev : option ascii) (s : text) :
  matchHere reLineEnd prev s = option_map (fun k => (k, [])) (eolSpan s).
Proof. cbn [matchHere reLineEnd]. now rewrite greedy_lineEnd. Qed.

Lemma eolSpan_trailing (s : text) :
  trailing s = match eolSpan s with Some _ => true | None => false end.
Proof.
  induction s as [|a s IH]; [reflexivity|].
  cbn [trailing eolSpan]. rewrite IH. destruct (isSpace a) eqn:Ea.
  - destruct (eolSpan s); cbn; [now rewrite orb_true_r|].
    rewrite orb_false_r. now destruct (isLT a).
  - cbn. now rewrite (notSpace_notLT _ Ea).
Qed.

(** A span of positive length starts with a whitespace character that is
    dropped. *)
Lemma eolSpan_succ (a : ascii) (s : text) (n : nat) :
  eolSpan (a :: s) = Some (S n) ->
  isSpace a = true /\ eolSpan s = Some n.
Proof.
  cbn [eolSpan]. destruct (isSpace a).
  - destruct (eolSpan s) as [k|].
    + intros H; injection H as <-. auto.
    + destruct (isLT a); discriminate.
  - destruct (isLT a); discriminate.
Qed.

Lemma eolSpan_short (a : ascii) (s : text) :
  eolSpan (a :: s) = Some 0 \/ eolSpan (a :: s) = None ->
  isSpace a && trailing s = false.
Proof.
  cbn [eolSpan]. rewrite eolSpan_trailing. destruct (isSpace a); [|reflexivity].
  destruct (eolSpan s); [|reflexivity]. intros [H|H]; discriminate.
Qed.

Lemma replaceGo_lineEnd (s : text) :
  (forall prev, replaceGo reLineEnd [] 0 prev s = stripTrail s)
  /\ (forall prev n,
        eolSpan s = Some n -> replaceGo reLineEnd [] n prev s = stripTrail s).
Proof.
  induction s as [|a s [IH0 IHn]].
  - split.
    + intros prev. reflexivity.
    + intros prev n H. cbn in H. injection H as <-. reflexivity.
  - assert (forall prev, replaceGo reLineEnd [] 0 prev (a :: s)
                         = stripTrail (a :: s)) as H0.
    { intros prev. cbn [replaceGo]. rewrite matchHere_lineEnd.
      destruct (eolSpan (a :: s)) as [[|n]|] eqn:E; cbn [option_map app].
      - cbn [stripTrail]. rewrite (eolSpan_short a s) by auto. now rewrite IH0.
      - destruct (eolSpan_succ _ _ E) as [Ha Hs].
        cbn [stripTrail]. rewrite Ha, eolSpan_trailing, Hs. cbn [andb].
        now apply IHn.
      - cbn [stripTrail]. rewrite (eolSpan_short a s) by auto. now rewrite IH0. }
    split; [exact H0|].
    intros prev [|n] E; [apply H0|].
    destruct (eolSpan_succ _ _ E) as [Ha Hs].
    cbn [replaceGo stripTrail]. rewrite Ha, eolSpan_trailing, Hs. cbn [andb].
    now apply IHn.
Qed.

Lemma replaceAll_lineEnd (s : text) :
  replaceAll reLineEnd [] s = stripTrail s.
Proof. unfold replaceAll. now rewrite (proj1 (replaceGo_lineEnd s)). Qed.

Lemma okLead_weaken (b : bool) (t : text) :
  okLead true t = true -> okLead b t = true.
Proof.
  destruct b; [auto|]. destruct t as [|a t]; [reflexivity|].
  cbn. intros H. apply andb_true_iff in H. now destruct H as [_ ->].
Qed.

Lemma okLead_stripTrail (b : bool) (t : text) :
  okLead b t = true -> okLead b (stripTrail t) = true.
Proof.
  revert b. induction t as [|a t IH]; intros b; [reflexivity|].
  cbn [okLead stripTrail]. intros H. apply andb_true_iff in H.
  destruct H as [H1 H2]. destruct (isSpace a && trailing t) eqn:E.
  - apply andb_true_iff in E. destruct E as [Ea _]. rewrite Ea in H1.
    destruct b; [discriminate|]. apply IH.
    destruct (isLT a); [now apply okLead_weaken|exact H2].
  - cbn [okLead]. rewrite H1. cbn. now apply IH.
Qed.

Lemma atEol_stripTrail (t : text) :
  trailing t = false -> atEol (stripTrail t) = false.
Proof.
  destruct t as [|a t]; [discriminate|].
  cbn [trailing stripTrail]. intros H.
  destruct (isSpace a) eqn:Ea; cbn [andb] in *.
  - apply orb_false_iff in H. destruct H as [Hlt Htr]. rewrite Htr.
    cbn. exact Hlt.
  - cbn. now apply notSpace_notLT.
Qed.

Lemma okTrail_stripTrail (t : text) : okTrail (stripTrail t) = true.
Proof.
  induction t as [|a t IH]; [reflexivity|].
  cbn [stripTrail]. destruct (isSpace a && trailing t) eqn:E; [exact IH|].
  cbn [okTrail]. rewrite IH, andb_true_r.
  destruct (isSpace a) eqn:Ea; [|reflexivity]. cbn [andb] in *.
  now rewrite atEol_stripTrail.
Qed.

End LineEnd.

Section PageNumberLine.

Lemma digit_notSpace (a : ascii) : isDigit a = true -> isSpace a = false.
Proof.
  unfold isDigit, isSpace. intros H. apply andb_true_iff in H.
  destruct H as [H1 H2]. apply Nat.leb_le in H1. apply Nat.leb_le in H2.
  repeat (apply orb_false_iff; split).
  - apply andb_false_iff. right. apply Nat.leb_gt. lia.
  - apply Nat.eqb_neq. lia.
  - apply Nat.eqb_neq. lia.
Qed.






Lemma pageNumber_nonEmpty (d : text) :
  d <> [] -> (1 <=? length d) = true.
Proof. destruct d; [congruence|reflexivity]. Qed.







End PageNumberLine.

Section Trimmed.

Lemma okLead_before (pre post : text) (c : ascii) (b : bool) :
  okLead b (pre ++ c :: post) = true ->
  isSpace c = true ->
  (pre = [] -> b = false)
  /\ (forall pre' d, pre = pre' ++ [d] -> isLT d = false).
Proof.
  revert b. induction pre as [|x pre IH]; intros b H Hc.
  - cbn in H. rewrite Hc in H. split.
    + intros _. now destruct b.
    + intros [|? ?] d E; discriminate E.
  - cbn [app okLead] in H. apply andb_true_iff in H. destruct H as [_ H].
    destruct (IH _ H Hc) as [H1 H2]. split; [discriminate|].
    intros [|y pre'] d E; cbn in E; injection E as -> E.
    + apply H1. exact E.
    + now apply (H2 pre').
Qed.

Lemma okTrail_after (pre post : text) (c : ascii) :
  okTrail (pre ++ c :: post) = true ->
  isSpace c = true ->
  atEol post = false.
Proof.
  induction pre as [|x pre IH]; intros H Hc.
  - cbn in H. rewrite Hc in H. cbn in H.
    apply andb_true_iff in H. destruct H as [H _].
    now apply negb_true_iff in H.
  - cbn [app okTrail] in H. apply andb_true_iff in H. destruct H as [_ H].
    now apply IH.
Qed.

Lemma linesTrimmed_intro (t : text) :
  okLead true t = true -> okTrail t = true -> linesTrimmed t.
Proof.
  intros Hl Ht pre c post -> Hc. split.
  - destruct (okLead_before _ _ _ _ Hl Hc) as [H1 H2].
    destruct pre as [|x pre]; [now specialize (H1 eq_refl)|].
    destruct (@exists_last _ (x :: pre)) as (pre' & d & E); [discriminate|].
    exists pre', d. split; [exact E|].
    intros ->. now specialize (H2 _ _ E).
  - pose proof (okTrail_after _ _ _ Ht Hc) as H.
    destruct post as [|d post]; [discriminate|].
    exists d, post. split; [reflexivity|]. intros ->. discriminate.
Qed.

Lemma cleanResponse_direct (rawText : text) :
  cleanResponse rawText
  = stripTrail (stripLead true (stripPageNumber rawText)).
Proof.
  unfold cleanResponse. now rewrite replaceAll_lineEnd, replaceAll_lineStart.
Qed.

Lemma cleanResponse_linesTrimmed (rawText : text) :
  linesTrimmed (cleanResponse rawText).
Proof.
  rewrite cleanResponse_direct. apply linesTrimmed_intro.
  - apply okLead_stripTrail, okLead_stripLead.
  - apply okTrail_stripTrail.
Qed.

End Trimmed.




(** ** File names of the page images *)

Section Decimal.

Lemma uint_digits (d : Decimal.uint) :
  Forall (fun a => isDigit a = true) (lit (NilEmpty.string_of_uint d)).
Proof.
  induction d; cbn [NilEmpty.string_of_uint lit list_ascii_of_string];
    constructor; auto.
Qed.

Lemma uint_value (d : Decimal.uint) (a : nat) :
  digitsValue (lit (NilEmpty.string_of_uint d)) (Z.of_nat a)
  = Z.of_nat (Nat.of_uint_acc d a).
Proof.
  revert a.
  induction d as [|d IH|d IH|d IH|d IH|d IH|d IH|d IH|d IH|d IH|d IH];
    intros a; unfold digitsValue in *;
    cbn [NilEmpty.string_of_uint lit list_ascii_of_string fold_left
         Nat.of_uint_acc];
    [reflexivity|..];
    rewrite Nat.tail_mul_spec, <- IH; f_equal;
    match goal with
    | |- context [digitVal ?c] =>
        let v := eval vm_compute in (digitVal c) in
        change (digitVal c) with v
    end; lia.
Qed.

Lemma ofNat_digits (n : nat) : Forall (fun a => isDigit a = true) (ofNat n).
Proof. apply uint_digits. Qed.

Lemma ofNat_value (n : nat) : digitsValue (ofNat n) 0%Z = Z.of_nat n.
Proof.
  unfold ofNat. change 0%Z with (Z.of_nat 0).
  rewrite (uint_value (Nat.to_uint n) 0).
  fold (Nat.of_uint (Nat.to_uint n)). now rewrite DecimalNat.Unsigned.of_to.
Qed.

Lemma ofNat_nonEmpty (n : nat) : ofNat n <> [].
Proof.
  unfold ofNat. intros E.
  assert (Nat.to_uint n = Decimal.Nil) as Hnil.
  { destruct (Nat.to_uint n); cbn in E; congruence. }
  pose proof (DecimalNat.Unsigned.of_to n) as H. rewrite Hnil in H.
  cbn in H. subst n. discriminate Hnil.
Qed.

Lemma zeros_value (k : nat) (D : text) :
  digitsValue (repeat "0"%char k ++ D) 0%Z = digitsValue D 0%Z.
Proof. induction k as [|k IH]; [reflexivity|exact IH]. Qed.

Lemma padStart0_digits (pad : nat) (D : text) :
  Forall (fun a => isDigit a = true) D ->
  Forall (fun a => isDigit a = true) (padStart0 pad D).
Proof.
  intros HD. unfold padStart0. apply Forall_app. split; [|exact HD].
  induction (pad - length D) as [|k IH]; cbn; constructor; auto.
Qed.

Lemma padStart0_value (pad : nat) (D : text) :
  digitsValue (padStart0 pad D) 0%Z = digitsValue D 0%Z.
Proof. apply zeros_value. Qed.

Lemma padStart0_nonEmpty (pad : nat) (D : text) : D <> [] -> padStart0 pad D <> [].
Proof.
  unfold padStart0. intros HD E. apply app_eq_nil in E. tauto.
Qed.

(** A string of digits splits into leading zeros and the digits that
    [0*(\d+)] captures: what follows the zeros, or the last zero when
    there is nothing else. *)
Lemma split_leading_zeros (D : text) :
  D <> [] ->
  Forall (fun a => isDigit a = true) D ->
  exists Z R,
    D = Z ++ R
    /\ Forall (fun a => a = "0"%char) Z
    /\ R <> []
    /\ Forall (fun a => isDigit a = true) R
    /\ (match R with a :: _ => a <> "0"%char | [] => False end
        \/ R = ["0"%char])
    /\ digitsValue R 0%Z = digitsValue D 0%Z.
Proof.
  induction D as [|a D IH]; [congruence|]. intros _ HD.
  inversion HD as [|? ? Ha HD']; subst.
  destruct (ascii_dec a "0"%char) as [->|Hne].
  - destruct D as [|b D].
    + exists [], ["0"%char]. repeat split; auto. discriminate.
    + destruct IH as (Z & R & E & HZ & HR & HRd & Hhead & Hval);
        [discriminate|exact HD'|].
      exists ("0"%char :: Z), R. rewrite E. repeat split; auto.
      rewrite <- E. exact Hval.
  - exists [], (a :: D). repeat split; auto. discriminate.
Qed.

End Decimal.

Section ScreenshotName.

Lemma search_here (r : regex) (pos : nat) (prev : option ascii) (s : text)
  (len : nat) (caps : list text) :
  matchHere r prev s = Some (len, caps) ->
  search r pos prev s = Some (pos, len, caps).
Proof. intros H. destruct s; cbn [search]; now rewrite H. Qed.

Lemma search_next (r : regex) (pos : nat) (prev : option ascii) (a : ascii) (s : text) :
  matchHere r prev (a :: s) = None ->
  search r pos prev (a :: s) = search r (S pos) (Some a) s.
Proof. intros H. cbn [search]. now rewrite H. Qed.

(** A greedy repetition fails when its continuation fails wherever the
    repetition can stop. *)
Lemma greedy_none (c : cls) (exit : nat -> text -> option ascii -> text -> result)
  (Q : nat -> text -> Prop) :
  (forall n a s, Q n (a :: s) -> cmatch c a = true -> Q (S n) s) ->
  (forall n acc prev s, Q n s -> exit n acc prev s = None) ->
  forall s n acc prev, Q n s -> greedy c exit n acc prev s = None.
Proof.
  intros Hstep Hexit. induction s as [|a s IH]; intros n acc prev HQ.
  - cbn. now apply Hexit.
  - cbn [greedy]. destruct (cmatch c a) eqn:Ec.
    + rewrite IH by (eapply Hstep; eassumption). now apply Hexit.
    + now apply Hexit.
Qed.

(** The repetition gives one character back when the continuation fails
    after the whole run and succeeds one character earlier. *)
Lemma greedy_run_back (c : cls)
  (exit : nat -> text -> option ascii -> text -> result)
  (run rest : text) (a : ascii) (r : nat * list text) :
  Forall (fun x => cmatch c x = true) run ->
  cmatch c a = true ->
  match rest with [] => True | x :: _ => cmatch c x = false end ->
  (forall n acc prev, exit n acc prev rest = None) ->
  forall n acc prev,
    exit (length run + n) (rev_append run acc) (prevAfter prev run) (a :: rest)
    = Some r ->
    greedy c exit n acc prev (run ++ a :: rest) = Some r.
Proof.
  intros Hrun Ha Hrest Hfail.
  induction Hrun as [|x run Hx Hrun IH]; intros n acc prev He.
  - cbn [app]. rewrite greedy_cons by exact Ha.
    rewrite greedy_stop by exact Hrest. rewrite Hfail. exact He.
  - cbn [app]. rewrite greedy_cons by exact Hx.
    rewrite (IH (S n) (x :: acc) (Some x)); [reflexivity|].
    cbn [length rev_append prevAfter fold_left Nat.add] in He.
    now rewrite Nat.add_succ_r.
Qed.

Lemma digit_not_hyphen (a : ascii) :
  isDigit a = true -> Ascii.eqb a "-"%char = false.
Proof.
  intros H. destruct (Ascii.eqb a "-"%char) eqn:E; [|reflexivity].
  apply Ascii.eqb_eq in E. subst a. discriminate H.
Qed.

Lemma noHyphenAfterDigits_head (a : ascii) (s : text) :
  noHyphenAfterDigits (a :: s) = true -> Ascii.eqb a "-"%char = false.
Proof.
  cbn. destruct (isDigit a) eqn:Ed.
  - intros _. now apply digit_not_hyphen.
  - now intros H%negb_true_iff.
Qed.

Lemma noHyphenAfterDigits_noIndexHere (s : text) :
  noHyphenAfterDigits s = true -> noIndexHere s = true.
Proof. destruct s as [|a s]; [reflexivity|]. cbn. now destruct (isDigit a). Qed.

Lemma zero_isDigit (x : ascii) :
  cmatch (CChar "0"%char) x = true -> isDigit x = true.
Proof. cbn. intros H%Ascii.eqb_eq. now subst x. Qed.

Lemma stopOk_step (n : nat) (a : ascii) (s : text) :
  stopOk n (a :: s) -> isDigit a = true -> stopOk (S n) s.
Proof.
  destruct n as [|n]; cbn; intros H Ha; now rewrite Ha in H.
Qed.

Lemma screenshot_noDigits (prev : option ascii) (s : text) :
  noIndexHere s = true ->
  matchHere
    [ IRep true CDigit 1; IOne (CChar "-"%char); IRep false (CChar zero) 0;
      IRep true CDigit 1; IOne CAny;
      IOne (CChar "p"%char); IOne (CChar "n"%char); IOne (CChar "g"%char) ]
    prev s = None.
Proof.
  intros Hq. rewrite matchHere_rep.
  apply greedy_none with (Q := stopOk); [| |exact Hq].
  - intros n a s' H Ha. now apply stopOk_step with (a := a).
  - intros [|n] acc prev' s' H; [reflexivity|]. cbn [Nat.leb].
    destruct s' as [|a s']; [reflexivity|].
    rewrite matchHere_one. cbn [cmatch].
    now rewrite (noHyphenAfterDigits_head _ _ H).
Qed.

Lemma screenshot_noIndex (prev : option ascii) (s : text) :
  noIndexHere s = true -> matchHere reScreenshot prev s = None.
Proof.
  intros Hq. unfold reScreenshot. rewrite matchHere_rep.
  apply greedy_none with (Q := fun _ s => noIndexHere s = true); [| |exact Hq].
  - intros n a s' H Ha. apply zero_isDigit in Ha. cbn in H. rewrite Ha in H.
    now apply noHyphenAfterDigits_noIndexHere.
  - intros n acc prev' s' Hq'. cbn [Nat.leb].
    now rewrite screenshot_noDigits.
Qed.

Lemma noDigitHyphen_cons (a : ascii) (s : text) :
  noDigitHyphen (a :: s)
  = negb (isDigit a
          && match s with
             | b :: _ => Ascii.eqb b "-"%char
             | [] => false
             end)
    && noDigitHyphen s.
Proof. reflexivity. Qed.

Lemma noHyphenAfterDigits_dir (dir rest : text) (a : ascii) :
  isDigit a = true ->
  noDigitHyphen (a :: dir) = true ->
  noHyphenAfterDigits (dir ++ "/"%char :: rest) = true.
Proof.
  revert a. induction dir as [|b dir IH]; intros a Ha H; [reflexivity|].
  rewrite noDigitHyphen_cons, Ha in H. cbn [andb] in H.
  apply andb_true_iff in H. destruct H as [Hb H].
  cbn [app noHyphenAfterDigits]. destruct (isDigit b) eqn:Eb.
  - now apply IH with (a := b).
  - exact Hb.
Qed.

Lemma noIndexHere_dir (dir rest : text) :
  noDigitHyphen dir = true ->
  noIndexHere (dir ++ "/"%char :: rest) = true.
Proof.
  destruct dir as [|a dir]; [reflexivity|]. intros H.
  cbn [app noIndexHere]. destruct (isDigit a) eqn:Ea; [|reflexivity].
  now apply noHyphenAfterDigits_dir with (a := a).
Qed.

Lemma noDigitHyphen_tail (a : ascii) (dir : text) :
  noDigitHyphen (a :: dir) = true -> noDigitHyphen dir = true.
Proof. rewrite noDigitHyphen_cons. now intros H%andb_true_iff. Qed.

(** No match starts in a directory part in which no digit is followed by a
    hyphen. *)
Lemma search_skips_dir (dir rest : text) (pos : nat) (prev : option ascii) :
  noDigitHyphen dir = true ->
  search reScreenshot pos prev (dir ++ "/"%char :: rest)
  = search reScreenshot (pos + length dir + 1) (Some "/"%char) rest.
Proof.
  revert pos prev. induction dir as [|a dir IH]; intros pos prev Hdir.
  - cbn [app]. rewrite search_next by (now apply screenshot_noIndex).
    f_equal. cbn. lia.
  - cbn [app]. rewrite search_next.
    + rewrite IH by (now apply noDigitHyphen_tail with (a := a)).
      f_equal. cbn [length]. lia.
    + apply screenshot_noIndex. now apply (@noIndexHere_dir (a :: dir) rest).
Qed.

Lemma screenshot_ext (prev : option ascii) :
  matchHere
    [ IOne CAny; IOne (CChar "p"%char); IOne (CChar "n"%char);
      IOne (CChar "g"%char) ]
    prev (lit ".png") = Some (4, []).
Proof. reflexivity. Qed.

Lemma rev_rev_append (D : text) : rev (rev_append D []) = D.
Proof. now rewrite rev_append_rev, app_nil_r, rev_involutive. Qed.

Lemma screenshot_page (prev : option ascii) (D2 : text) :
  D2 <> [] ->
  Forall (fun a => isDigit a = true) D2 ->
  matchHere
    [ IRep true CDigit 1; IOne CAny;
      IOne (CChar "p"%char); IOne (CChar "n"%char); IOne (CChar "g"%char) ]
    prev (D2 ++ lit ".png") = Some (length D2 + 4, [D2]).
Proof.
  intros Hne Hd. rewrite matchHere_rep.
  apply greedy_run; [exact Hd|reflexivity|].
  rewrite Nat.add_0_r, (pageNumber_nonEmpty Hne), screenshot_ext.
  now rewrite rev_rev_append.
Qed.

Lemma digit_not_nul (a : ascii) :
  isDigit a = true -> cmatch (CChar zero) a = false.
Proof.
  intros H. cbn. destruct (Ascii.eqb a zero) eqn:E; [|reflexivity].
  apply Ascii.eqb_eq in E. subst a. discriminate H.
Qed.

Lemma screenshot_tail (prev : option ascii) (D2 : text) :
  D2 <> [] ->
  Forall (fun a => isDigit a = true) D2 ->
  matchHere
    [ IRep false (CChar zero) 0; IRep true CDigit 1; IOne CAny;
      IOne (CChar "p"%char); IOne (CChar "n"%char); IOne (CChar "g"%char) ]
    prev (D2 ++ lit ".png") = Some (length D2 + 4, [D2]).
Proof.
  intros Hne Hd. rewrite matchHere_rep, greedy_stop.
  - cbn [Nat.leb]. now rewrite screenshot_page.
  - destruct D2 as [|a D2]; [congruence|]. cbn [app].
    apply digit_not_nul. now inversion Hd.
Qed.

Lemma screenshot_digits (prev : option ascii) (R D2 : text) :
  R <> [] ->
  Forall (fun a => isDigit a = true) R ->
  D2 <> [] ->
  Forall (fun a => isDigit a = true) D2 ->
  matchHere
    [ IRep true CDigit 1; IOne (CChar "-"%char); IRep false (CChar zero) 0;
      IRep true CDigit 1; IOne CAny;
      IOne (CChar "p"%char); IOne (CChar "n"%char); IOne (CChar "g"%char) ]
    prev (R ++ "-"%char :: D2 ++ lit ".png")
  = Some (length R + S (length D2 + 4), [R; D2]).
Proof.
  intros HR HRd HD HDd. rewrite matchHere_rep.
  apply greedy_run; [exact HRd|reflexivity|].
  rewrite Nat.add_0_r, (pageNumber_nonEmpty HR), matchHere_one.
  cbn [cmatch]. rewrite Ascii.eqb_refl, screenshot_tail by assumption.
  now rewrite rev_rev_append.
Qed.

(** The match at the start of a file name: the zeros, the digits of the
    index, the hyphen, the digits of the page and the extension. *)
Lemma screenshot_here (prev : option ascii) (Z R D2 : text) :
  Forall (fun a => a = "0"%char) Z ->
  R <> [] ->
  Forall (fun a => isDigit a = true) R ->
  (match R with a :: _ => a <> "0"%char | [] => False end \/ R = ["0"%char]) ->
  D2 <> [] ->
  Forall (fun a => isDigit a = true) D2 ->
  matchHere reScreenshot prev (Z ++ R ++ "-"%char :: D2 ++ lit ".png")
  = Some (length Z + (length R + S (length D2 + 4)), [R; D2]).
Proof.
  intros HZ HR HRd Hhead HD HDd. unfold reScreenshot. rewrite matchHere_rep.
  assert (Forall (fun x => cmatch (CChar "0"%char) x = true) Z) as HZ'.
  { eapply Forall_impl; [|exact HZ]. now intros a ->. }
  destruct Hhead as [Hhead| ->].
  - apply greedy_run; [exact HZ'| |].
    + destruct R as [|a R]; [contradiction|]. cbn.
      destruct (Ascii.eqb a "0"%char) eqn:E; [|reflexivity].
      apply Ascii.eqb_eq in E. contradiction.
    + cbn [Nat.leb]. rewrite screenshot_digits by assumption.
      now rewrite Nat.add_0_r.
  - cbn [app]. apply greedy_run_back; [exact HZ'|reflexivity|reflexivity| |].
    + intros n acc prev'. cbn [Nat.leb].
      now rewrite screenshot_noDigits.
    + cbn [Nat.leb].
      rewrite (@screenshot_digits _ ["0"%char] D2) by assumption.
      now rewrite Nat.add_0_r.
Qed.

Lemma takeWhile_all (p : ascii -> bool) (s : text) :
  Forall (fun a => p a = true) s -> takeWhile p s = s.
Proof. induction 1 as [|a s Ha Hs IH]; cbn; [reflexivity|]. now rewrite Ha, IH. Qed.

Lemma parseInt_digits (R : text) :
  R <> [] ->
  Forall (fun a => isDigit a = true) R ->
  parseInt R = Some (digitsValue R 0).
Proof.
  intros HR HRd. destruct R as [|a R]; [congruence|].
  pose proof HRd as HRd'. inversion HRd as [|? ? Ha HR']; subst.
  unfold parseInt. cbn [dropWhile]. rewrite (digit_notSpace _ Ha).
  rewrite (digit_not_hyphen _ Ha).
  assert (Ascii.eqb a "+"%char = false) as ->.
  { destruct (Ascii.eqb a "+"%char) eqn:E; [|reflexivity].
    apply Ascii.eqb_eq in E. subst a. discriminate Ha. }
  now rewrite (takeWhile_all _ HRd').
Qed.

Lemma ofZ_of_nat (p : nat) : ofZ (Z.of_nat p) = ofNat p.
Proof.
  unfold ofZ. destruct (Z.of_nat p) eqn:E; try lia; now rewrite <- E, Nat2Z.id.
Qed.

(** The parser on a file name that follows any directory part. *)
Lemma parse_fileName (pos : nat) (prev : option ascii) (pad i p : nat) :
  match search reScreenshot pos prev (fileName pad i (Z.of_nat p)) with
  | Some (_, _, [g1; g2]) =>
      if nonEmpty g1 && nonEmpty g2 then
        match parseInt g1, parseInt g2 with
        | Some i', Some p' => Some (i', p')
        | _, _ => None
        end
      else None
  | _ => None
  end = Some (Z.of_nat i, Z.of_nat p).
Proof.
  unfold fileName. rewrite ofZ_of_nat.
  pose proof (padStart0_digits pad (ofNat_digits i)) as Hd1.
  pose proof (padStart0_nonEmpty pad (ofNat_nonEmpty i)) as Hn1.
  pose proof (padStart0_digits pad (ofNat_digits p)) as Hd2.
  pose proof (padStart0_nonEmpty pad (ofNat_nonEmpty p)) as Hn2.
  destruct (split_leading_zeros Hn1 Hd1)
    as (Z & R & E & HZ & HR & HRd & Hhead & Hval).
  rewrite E, <- !app_assoc. cbn [app].
  rewrite (@search_here _ pos _ _ _ _ (screenshot_here prev HZ HR HRd Hhead Hn2 Hd2)).
  rewrite (parseInt_digits HR HRd), (parseInt_digits Hn2 Hd2).
  rewrite Hval, !padStart0_value, !ofNat_value.
  destruct R; [congruence|].
  destruct (padStart0 pad (ofNat p)); [congruence|]. reflexivity.
Qed.

(** The pattern on a directory part.  What fails on a text [s] also fails
    on [s] followed by a character [x] and a text [t], as long as no item
    takes [x], or the items after the one that takes it fail on [t]. *)
Section DirectoryPart.

Variables (x : ascii) (t : text).





End DirectoryPart.



End ScreenshotName.




(* ------------------------------------------------------------------ *)
(** ** The order of [content.json] *)

Section InsertionSort.

Lemma chunkCmp_le (a b : ContentChunk) :
  (chunkCmp a b <=? 0)%Z = true <-> lexLe a b.
Proof.
  unfold chunkCmp, lexLe. destruct (index a =? index b)%Z eqn:E; cbn [negb].
  - apply Z.eqb_eq in E. rewrite Z.leb_le. lia.
  - apply Z.eqb_neq in E. rewrite Z.leb_le. lia.
Qed.

Lemma lexLe_total (a b : ContentChunk) : lexLe a b \/ lexLe b a.
Proof. unfold lexLe. lia. Qed.

Lemma lexLe_trans (a b c : ContentChunk) : lexLe a b -> lexLe b c -> lexLe a c.
Proof. unfold lexLe. lia. Qed.

Lemma insertBy_perm (x : ContentChunk) (l : list ContentChunk) :
  Permutation (x :: l) (insertBy chunkCmp x l).
Proof.
  induction l as [|y l IH]; cbn [insertBy]; [reflexivity|].
  destruct (chunkCmp x y <=? 0)%Z; [reflexivity|].
  rewrite perm_swap. now apply perm_skip.
Qed.

Lemma insertBy_sorted (x : ContentChunk) (l : list ContentChunk) :
  StronglySorted lexLe l -> StronglySorted lexLe (insertBy chunkCmp x l).
Proof.
  induction 1 as [|y l Hs IH Hy]; cbn [insertBy].
  - repeat constructor.
  - destruct (chunkCmp x y <=? 0)%Z eqn:E.
    + apply chunkCmp_le in E. constructor; [now constructor|].
      constructor; [exact E|].
      eapply Forall_impl; [|exact Hy]. intros c Hc.
      now apply lexLe_trans with (b := y).
    + constructor; [exact IH|].
      assert (lexLe y x) as Hyx.
      { destruct (lexLe_total x y) as [H|H]; [|exact H].
        apply chunkCmp_le in H. congruence. }
      apply (Permutation_Forall (insertBy_perm x l)).
      now constructor.
Qed.

Lemma sortBy_sorted_fixed (l : list ContentChunk) :
  StronglySorted lexLe l -> sortBy chunkCmp l = l.
Proof.
  induction 1 as [|x l Hs IH Hx]; [reflexivity|].
  cbn [sortBy fold_right]. fold (sortBy chunkCmp l). rewrite IH.
  destruct l as [|y l]; [reflexivity|]. cbn [insertBy].
  inversion Hx as [|? ? Hxy _]; subst.
  apply chunkCmp_le in Hxy. now rewrite Hxy.
Qed.

Lemma sortBy_perm (l : list ContentChunk) :
  Permutation l (sortBy chunkCmp l).
Proof.
  induction l as [|x l IH]; [constructor|].
  cbn [sortBy fold_right]. fold (sortBy chunkCmp l).
  rewrite <- insertBy_perm. now apply perm_skip.
Qed.

Lemma sortBy_sorted (l : list ContentChunk) :
  StronglySorted lexLe (sortBy chunkCmp l).
Proof.
  induction l as [|x l IH]; [constructor|].
  cbn [sortBy fold_right]. fold (sortBy chunkCmp l).
  now apply insertBy_sorted.
Qed.

End InsertionSort.

(** X1.  The list written to [content.json] (and the list the assembler
    sorts again) holds the same chunks as the list that is sorted, each as
    often, in ascending order of index and, for equal indices, of page. *)
Theorem sortBy_chunkCmp_sorted_permutation :
  forall content : list ContentChunk,
    Permutation content (sortBy chunkCmp content)
    /\ StronglySorted lexLe (sortBy chunkCmp content).
Proof. intros content. split; [apply sortBy_perm|apply sortBy_sorted]. Qed.

(** X2.  Sorting is idempotent: the sort of the assembler leaves the list
    that the transcription program wrote as it is. *)
Theorem sortBy_chunkCmp_idempotent :
  forall content : list ContentChunk,
    sortBy chunkCmp (sortBy chunkCmp content) = sortBy chunkCmp content.
Proof. intros content. apply sortBy_sorted_fixed, sortBy_sorted. Qed.

(* ------------------------------------------------------------------ *)
(** ** More on the transcription loop *)

Section OcrLoopMore.

Variables (maxRetries : nat) (idx pg : Z) (path : text) (svc : service).

Lemma ocrLoop_accept_step (fuel retries : nat) (raw : text) :
  svc retries = Some raw ->
  nonEmpty (cleanResponse raw) = true ->
  isRefusal (cleanResponse raw) = false ->
  ocrLoop (S fuel) maxRetries idx pg path svc retries
  = (Done (mkChunk idx pg (cleanResponse raw) path),
     [Call retries (if retries <? 2 then Temp0 else Temp05) (2 <? retries)]).
Proof. intros Hs Hn Hr. cbn [ocrLoop]. now rewrite Hs, Hn, Hr. Qed.

Lemma ocrLoop_refused_then_read (n : nat) (good : text) :
  (forall k, k < n -> exists raw,
      svc k = Some raw /\ isRefusal (cleanResponse raw) = true) ->
  svc n = Some good ->
  nonEmpty (cleanResponse good) = true ->
  isRefusal (cleanResponse good) = false ->
  n < maxRetries ->
  forall fuel retries,
    retries <= n -> n - retries < fuel ->
    fst (ocrLoop fuel maxRetries idx pg path svc retries)
    = Done (mkChunk idx pg (cleanResponse good) path)
    /\ calls (snd (ocrLoop fuel maxRetries idx pg path svc retries))
       = S (n - retries)
    /\ delays (snd (ocrLoop fuel maxRetries idx pg path svc retries))
       = map (fun attempt => Nat.min (500 * attempt) 5000)
             (seq (S retries) (n - retries)).
Proof.
  intros Href Hgood Hne Hnr Hn.
  induction fuel as [|fuel IH]; intros retries Hle Hfuel; [lia|].
  destruct (Nat.eq_dec retries n) as [->|Hlt].
  - rewrite (@ocrLoop_accept_step fuel n good Hgood Hne Hnr).
    rewrite Nat.sub_diag. repeat split.
  - destruct (Href retries) as (raw & Hs & Hr); [lia|].
    rewrite (@ocrLoop_refusal_step maxRetries idx pg path fuel svc retries raw Hs Hr).
    assert ((maxRetries <=? S retries) = false) as -> by (apply Nat.leb_gt; lia).
    destruct (IH (S retries)) as (H1 & H2 & H3); [lia|lia|].
    cbn [fst snd]. repeat split.
    + exact H1.
    + unfold calls in *. cbn [filter length]. rewrite H2. lia.
    + unfold delays in *. cbn [flat_map app]. rewrite H3.
      replace (n - retries) with (S (n - S retries)) by lia. reflexivity.
Qed.

Lemma ocrLoop_blank_then_read (n : nat) (good : text) :
  (forall k, k < n -> exists raw,
      svc k = Some raw /\ cleanResponse raw = []) ->
  svc n = Some good ->
  nonEmpty (cleanResponse good) = true ->
  isRefusal (cleanResponse good) = false ->
  forall fuel retries,
    retries <= n -> n - retries < fuel ->
    fst (ocrLoop fuel maxRetries idx pg path svc retries)
    = Done (mkChunk idx pg (cleanResponse good) path)
    /\ calls (snd (ocrLoop fuel maxRetries idx pg path svc retries))
       = S (n - retries)
    /\ delays (snd (ocrLoop fuel maxRetries idx pg path svc retries)) = [].
Proof.
  intros Hblank Hgood Hne Hnr.
  induction fuel as [|fuel IH]; intros retries Hle Hfuel; [lia|].
  destruct (Nat.eq_dec retries n) as [->|Hlt].
  - rewrite (@ocrLoop_accept_step fuel n good Hgood Hne Hnr).
    rewrite Nat.sub_diag. repeat split.
  - destruct (Hblank retries) as (raw & Hs & Hr); [lia|].
    rewrite (@ocrLoop_empty_step maxRetries idx pg path fuel svc retries raw Hs Hr).
    destruct (IH (S retries)) as (H1 & H2 & H3); [lia|lia|].
    cbn [fst snd]. repeat split.
    + exact H1.
    + unfold calls in *. cbn [filter length]. rewrite H2. lia.
    + unfold delays in *. cbn [flat_map app]. exact H3.
Qed.

(** What holds of every trace of the loop. *)
Lemma ocrLoop_trace (fuel retries : nat) :
  Forall (fun ms => 500 <= ms <= 5000)
         (delays (snd (ocrLoop fuel maxRetries idx pg path svc retries)))
  /\ length (delays (snd (ocrLoop fuel maxRetries idx pg path svc retries)))
     <= maxRetries - S retries
  /\ calls (snd (ocrLoop fuel maxRetries idx pg path svc retries)) <= fuel
  /\ callNumbers (snd (ocrLoop fuel maxRetries idx pg path svc retries))
     = seq retries
           (calls (snd (ocrLoop fuel maxRetries idx pg path svc retries)))
  /\ Forall requestOk (snd (ocrLoop fuel maxRetries idx pg path svc retries)).
Proof.
  revert retries. induction fuel as [|fuel IH]; intros retries.
  - cbn. repeat split; try lia; constructor.
  - specialize (IH (S retries)). cbn [ocrLoop].
    destruct (svc retries) as [raw|].
    2:{ unfold delays, calls, callNumbers;
        cbn [fst snd flat_map filter length app seq]; repeat split;
        [constructor|lia|lia|repeat constructor]. }
    destruct (nonEmpty (cleanResponse raw)); cbn [negb].
    + destruct (isRefusal (cleanResponse raw)).
      * destruct (maxRetries <=? S retries) eqn:E.
        { unfold delays, calls, callNumbers;
        cbn [fst snd flat_map filter length app seq]; repeat split;
        [constructor|lia|lia|repeat constructor]. }
        apply Nat.leb_gt in E.
        destruct (ocrLoop fuel maxRetries idx pg path svc (S retries))
          as [o tr].
        cbn [fst snd] in *. destruct IH as (H1 & H2 & H3 & H4 & H5).
        unfold delays, calls, callNumbers in *.
        cbn [flat_map filter length app]. repeat split.
        -- constructor; [lia|exact H1].
        -- cbn [length]. lia.
        -- lia.
        -- cbn [seq]. now rewrite H4.
        -- constructor; [cbn; auto|]. constructor; [exact I|exact H5].
      * unfold delays, calls, callNumbers;
        cbn [fst snd flat_map filter length app seq]; repeat split;
        [constructor|lia|lia|repeat constructor].
    + destruct (ocrLoop fuel maxRetries idx pg path svc (S retries))
        as [o tr].
      cbn [fst snd] in *. destruct IH as (H1 & H2 & H3 & H4 & H5).
      unfold delays, calls, callNumbers in *.
      cbn [flat_map filter length app]. repeat split.
      * exact H1.
      * lia.
      * lia.
      * cbn [seq]. now rewrite H4.
      * constructor; [cbn; auto|exact H5].
Qed.

(** The chunk that the loop returns holds the answer to its last call. *)
Lemma ocrLoop_done_last (fuel retries : nat) (c : ContentChunk) :
  fst (ocrLoop fuel maxRetries idx pg path svc retries) = Done c ->
  exists n raw,
    calls (snd (ocrLoop fuel maxRetries idx pg path svc retries)) = S n
    /\ svc (retries + n) = Some raw
    /\ c = mkChunk idx pg (cleanResponse raw) path
    /\ nonEmpty (cleanResponse raw) = true
    /\ isRefusal (cleanResponse raw) = false.
Proof.
  revert retries. induction fuel as [|fuel IH]; intros retries; [discriminate|].
  cbn [ocrLoop]. destruct (svc retries) as [raw|] eqn:Es; [|discriminate].
  destruct (nonEmpty (cleanResponse raw)) eqn:En; cbn [negb].
  - destruct (isRefusal (cleanResponse raw)) eqn:Er.
    + destruct (maxRetries <=? S retries); [discriminate|].
      specialize (IH (S retries)).
      destruct (ocrLoop fuel maxRetries idx pg path svc (S retries)) as [o tr].
      cbn [fst snd] in *. intros H.
      destruct (IH H) as (n & raw' & Hc & Hs & Hrest).
      exists (S n), raw'. split; [unfold calls in *; cbn; now rewrite Hc|].
      split; [now rewrite Nat.add_succ_r|exact Hrest].
    + cbn. intros H. injection H as <-. exists 0, raw.
      rewrite Nat.add_0_r. auto.
  - specialize (IH (S retries)).
    destruct (ocrLoop fuel maxRetries idx pg path svc (S retries)) as [o tr].
    cbn [fst snd] in *. intros H.
    destruct (IH H) as (n & raw' & Hc & Hs & Hrest).
    exists (S n), raw'. split; [unfold calls in *; cbn; now rewrite Hc|].
    split; [now rewrite Nat.add_succ_r|exact Hrest].
Qed.

End OcrLoopMore.

Section CollectMore.

Variables (fuel maxRetries : nat).

(** The array of [Promise.all]: one entry for each image, in order. *)
Lemma collect_results (images : list (text * service))
  (content : list ContentChunk) :
  collect fuel maxRetries images = Some (Some content) ->
  exists results,
    Forall2 (taskResult fuel maxRetries) images results
    /\ content = filterBoolean results.
Proof.
  revert content. induction images as [|[p svc] images IH]; intros content.
  - cbn. intros H; injection H as <-. exists []. split; [constructor|reflexivity].
  - cbn [collect]. destruct (parseScreenshot p) as [[i pg]|] eqn:Ep;
      [|discriminate].
    destruct (collect fuel maxRetries images) as [others|]; [|discriminate].
    destruct (fst (ocrLoop fuel maxRetries i pg p svc 0)) eqn:E.
    + destruct others as [l|]; [|discriminate].
      intros H; injection H as <-.
      destruct (IH l eq_refl) as (results & Hall & ->).
      destruct (ocrLoop_done_last _ _ _ _ _ _ _ E)
        as (n & raw & Hc & Hs & -> & Hne & Hr).
      exists (Some (mkChunk i pg (cleanResponse raw) p) :: results).
      split; [|reflexivity]. constructor; [|exact Hall].
      exists i, pg. split; [exact Ep|]. exists n, raw. cbn [fst snd chunkText].
      split; [exact Hc|]. split; [exact Hs|]. split; [reflexivity|].
      split; [|split; [exact Hr|apply cleanResponse_linesTrimmed]].
      intros E0. rewrite E0 in Hne. discriminate.
    + destruct others as [l|]; [|discriminate].
      intros H; injection H as <-.
      destruct (IH l eq_refl) as (results & Hall & ->).
      exists (None :: results). split; [|reflexivity].
      constructor; [|exact Hall]. exists i, pg. split; [exact Ep|exact E].
    + discriminate.
Qed.

End CollectMore.

(** X3.  When the run writes [content.json], the array of [Promise.all]
    has one entry for each image, in the order of the images: nothing for
    an image whose loop failed, and otherwise one chunk with the index and
    the page that the file name of that image encodes, the path of that
    image, and, as text, the cleaned answer to the last call that the loop
    of that image made, a text that is not empty, is not a refusal and has
    no whitespace at the start or at the end of a line.  [content.json]
    holds the chunks of this array, sorted: at most one for each image. *)
Theorem written_chunks_come_from_their_images :
  forall (fuel maxRetries : nat) (images : list (text * service))
         (content : list ContentChunk),
    main fuel maxRetries images = Written content ->
    exists results : list (option ContentChunk),
      Forall2 (taskResult fuel maxRetries) images results
      /\ content = sortBy chunkCmp (filterBoolean results).
Proof.
  intros fuel maxRetries images content Hmain. unfold main in Hmain.
  destruct images as [|x l] eqn:El; [discriminate|]. rewrite <- El in *.
  destruct (collect fuel maxRetries images) as [[content0|]|] eqn:Ec;
    try discriminate.
  injection Hmain as <-.
  destruct (collect_results _ _ _ Ec) as (results & Hall & ->).
  exists results. split; [exact Hall|reflexivity].
Qed.

Lemma written_chunks_come_from_their_images_witness :
  exists results : list (option ContentChunk),
    Forall2 (taskResult 5 3)
            [(lit "00-01.png", sorryTwiceThenText);
             (lit "01-02.png", alwaysSorry)]
            results
    /\ [mkChunk 0 1 (lit "Hello") (lit "00-01.png")]
       = sortBy chunkCmp (filterBoolean results).
Proof.
  apply (@written_chunks_come_from_their_images 5 3
           [(lit "00-01.png", sorryTwiceThenText);
            (lit "01-02.png", alwaysSorry)]
           [mkChunk 0 1 (lit "Hello") (lit "00-01.png")]).
  vm_compute. reflexivity.
Defined.

(** X4.  When the service refuses the first n calls for an image and then
    answers with a text that is not empty and not a refusal, and n is below
    the retry bound, the loop makes exactly n + 1 calls, waits
    min(500 * k, 5000) ms after the k-th refusal, and returns the chunk
    with the cleaned text of the last answer. *)
Theorem refusals_then_text_is_read :
  forall (maxRetries fuel : nat) (idx pg : Z) (path : text) (svc : service)
         (n : nat) (good : text),
    (forall k, k < n -> exists raw,
        svc k = Some raw /\ isRefusal (cleanResponse raw) = true) ->
    svc n = Some good ->
    nonEmpty (cleanResponse good) = true ->
    isRefusal (cleanResponse good) = false ->
    n < maxRetries ->
    n < fuel ->
    fst (ocrLoop fuel maxRetries idx pg path svc 0)
    = Done (mkChunk idx pg (cleanResponse good) path)
    /\ calls (snd (ocrLoop fuel maxRetries idx pg path svc 0)) = S n
    /\ delays (snd (ocrLoop fuel maxRetries idx pg path svc 0))
       = map (fun attempt => Nat.min (500 * attempt) 5000) (seq 1 n).
Proof.
  intros maxRetries fuel idx pg path svc n good Href Hgood Hne Hnr Hn Hfuel.
  destruct (@ocrLoop_refused_then_read maxRetries idx pg path svc n good
              Href Hgood Hne Hnr Hn fuel 0) as (H1 & H2 & H3); [lia|lia|].
  rewrite Nat.sub_0_r in H2, H3. auto.
Qed.

Lemma refusals_then_text_is_read_witness :
  fst (ocrLoop 3 30 0 1 (lit "00-01.png") sorryTwiceThenText 0)
  = Done (mkChunk 0 1 (cleanResponse (lit "Hello")) (lit "00-01.png"))
  /\ calls (snd (ocrLoop 3 30 0 1 (lit "00-01.png") sorryTwiceThenText 0)) = 3
  /\ delays (snd (ocrLoop 3 30 0 1 (lit "00-01.png") sorryTwiceThenText 0))
     = map (fun attempt => Nat.min (500 * attempt) 5000) (seq 1 2).
Proof.
  apply (@refusals_then_text_is_read 30 3 0%Z 1%Z (lit "00-01.png")
           sorryTwiceThenText 2 (lit "Hello")).
  - intros [|[|k]] Hk; [| |lia]; exists (lit "I'm sorry"); split; reflexivity.
  - reflexivity.
  - reflexivity.
  - reflexivity.
  - lia.
  - lia.
Defined.

(** X5.  When the first n answers for an image clean to the empty text and
    the next one is a text that is not empty and not a refusal, the loop
    makes n + 1 calls without any wait and returns the chunk, whatever the
    retry bound is (also when n exceeds it). *)
Theorem blanks_then_text_is_read :
  forall (maxRetries fuel : nat) (idx pg : Z) (path : text) (svc : service)
         (n : nat) (good : text),
    (forall k, k < n -> exists raw,
        svc k = Some raw /\ cleanResponse raw = []) ->
    svc n = Some good ->
    nonEmpty (cleanResponse good) = true ->
    isRefusal (cleanResponse good) = false ->
    n < fuel ->
    fst (ocrLoop fuel maxRetries idx pg path svc 0)
    = Done (mkChunk idx pg (cleanResponse good) path)
    /\ calls (snd (ocrLoop fuel maxRetries idx pg path svc 0)) = S n
    /\ delays (snd (ocrLoop fuel maxRetries idx pg path svc 0)) = [].
Proof.
  intros maxRetries fuel idx pg path svc n good Hblank Hgood Hne Hnr Hfuel.
  destruct (@ocrLoop_blank_then_read maxRetries idx pg path svc n good
              Hblank Hgood Hne Hnr fuel 0) as (H1 & H2 & H3); [lia|lia|].
  rewrite Nat.sub_0_r in H2. auto.
Qed.

Lemma blanks_then_text_is_read_witness :
  fst (ocrLoop 3 1 0 1 (lit "00-01.png") blankTwiceThenText 0)
  = Done (mkChunk 0 1 (cleanResponse (lit "Hello")) (lit "00-01.png"))
  /\ calls (snd (ocrLoop 3 1 0 1 (lit "00-01.png") blankTwiceThenText 0)) = 3
  /\ delays (snd (ocrLoop 3 1 0 1 (lit "00-01.png") blankTwiceThenText 0)) = [].
Proof.
  apply (@blanks_then_text_is_read 1 3 0%Z 1%Z (lit "00-01.png")
           blankTwiceThenText 2 (lit "Hello")).
  - intros [|[|k]] Hk; [| |lia]; exists [sp; nl]; split; reflexivity.
  - reflexivity.
  - reflexivity.
  - reflexivity.
  - lia.
Defined.

(** X6.  Whatever the service answers and however long the loop runs, every
    wait of an image's task lasts between 500 and 5000 ms, and the task
    waits at most (retry bound - 1) times. *)
Theorem backoff_is_capped_and_counted :
  forall (maxRetries fuel : nat) (idx pg : Z) (path : text) (svc : service),
    Forall (fun ms => 500 <= ms <= 5000)
           (delays (snd (ocrLoop fuel maxRetries idx pg path svc 0)))
    /\ length (delays (snd (ocrLoop fuel maxRetries idx pg path svc 0)))
       <= maxRetries - 1.
Proof.
  intros maxRetries fuel idx pg path svc.
  destruct (ocrLoop_trace maxRetries idx pg path svc fuel 0)
    as (H1 & H2 & _). auto.
Qed.

(** X7.  The calls of an image's task are numbered 0, 1, 2, ... without a
    gap; the calls 0 and 1 ask for temperature 0 and the later ones for
    0.5; the sentence that justifies the task is added to the prompt from
    call 3 on; and the loop makes at most one call per step. *)
Theorem requests_follow_the_retry_count :
  forall (maxRetries fuel : nat) (idx pg : Z) (path : text) (svc : service),
    callNumbers (snd (ocrLoop fuel maxRetries idx pg path svc 0))
    = seq 0 (calls (snd (ocrLoop fuel maxRetries idx pg path svc 0)))
    /\ Forall requestOk (snd (ocrLoop fuel maxRetries idx pg path svc 0))
    /\ calls (snd (ocrLoop fuel maxRetries idx pg path svc 0)) <= fuel.
Proof.
  intros maxRetries fuel idx pg path svc.
  destruct (ocrLoop_trace maxRetries idx pg path svc fuel 0)
    as (_ & _ & H3 & H4 & H5). auto.
Qed.

(* ------------------------------------------------------------------ *)
(** ** More on the cleaning of an answer *)

Section CleaningMore.

Lemma stripLead_content (b : bool) (s : text) :
  filter (fun a => negb (isSpace a)) (stripLead b s)
  = filter (fun a => negb (isSpace a)) s.
Proof.
  revert b. induction s as [|a s IH]; intros b; [reflexivity|].
  cbn [stripLead]. destruct (b && isSpace a) eqn:E.
  - apply andb_true_iff in E. destruct E as [_ Ea].
    cbn [filter]. rewrite Ea. cbn [negb]. apply IH.
  - cbn [filter]. now rewrite IH.
Qed.

Lemma stripTrail_content (s : text) :
  filter (fun a => negb (isSpace a)) (stripTrail s)
  = filter (fun a => negb (isSpace a)) s.
Proof.
  induction s as [|a s IH]; [reflexivity|].
  cbn [stripTrail]. destruct (isSpace a && trailing s) eqn:E.
  - apply andb_true_iff in E. destruct E as [Ea _].
    cbn [filter]. rewrite Ea. cbn [negb]. exact IH.
  - cbn [filter]. now rewrite IH.
Qed.

Lemma pageNumber_noDigit (prev : option ascii) (s : text) :
  Forall (fun a => isDigit a = false) s ->
  matchHere rePageNumber prev s = None.
Proof.
  intros Hs. unfold rePageNumber. rewrite matchHere_bol.
  destruct (atBol prev); [|reflexivity]. rewrite matchHere_rep.
  apply greedy_none
    with (Q := fun _ s => Forall (fun a => isDigit a = false) s);
    [| |exact Hs].
  - intros n a s' H _. now inversion H.
  - intros n acc prev' s' H. cbn [Nat.leb]. rewrite matchHere_rep.
    rewrite greedy_none
      with (Q := fun n s => n = 0 /\ Forall (fun a => isDigit a = false) s);
      [reflexivity| | |now split].
    + intros n' a s'' [_ Hd] Ha. inversion Hd; subst. cbn in Ha. congruence.
    + intros n' acc' prev'' s'' [-> _]. reflexivity.
Qed.

Lemma search_noDigit (pos : nat) (prev : option ascii) (s : text) :
  Forall (fun a => isDigit a = false) s ->
  search rePageNumber pos prev s = None.
Proof.
  intros Hs. revert pos prev.
  induction Hs as [|a s Ha Hs IH]; intros pos prev.
  - cbn [search]. now rewrite pageNumber_noDigit by constructor.
  - cbn [search]. rewrite pageNumber_noDigit by (now constructor). apply IH.
Qed.

Lemma space_notDigit (a : ascii) : isSpace a = true -> isDigit a = false.
Proof.
  intros H. destruct (isDigit a) eqn:E; [|reflexivity].
  apply digit_notSpace in E. congruence.
Qed.

Lemma stripLead_spaces (s : text) :
  Forall (fun a => isSpace a = true) s -> stripLead true s = [].
Proof.
  induction 1 as [|a s Ha Hs IH]; [reflexivity|].
  cbn [stripLead]. now rewrite Ha.
Qed.

End CleaningMore.

(** X8.  The two trimming replacements only ever remove whitespace: the
    characters of the cleaned answer that are not whitespace are those of
    the answer after the page-number line was removed, in the same
    order. *)
Theorem trimming_removes_whitespace_only :
  forall rawText : text,
    filter (fun a => negb (isSpace a)) (cleanResponse rawText)
    = filter (fun a => negb (isSpace a)) (stripPageNumber rawText).
Proof.
  intros rawText. rewrite cleanResponse_direct.
  now rewrite stripTrail_content, stripLead_content.
Qed.

(** X9.  An answer without any digit has nothing removed as a page number,
    so the cleaning step keeps all of its characters that are not
    whitespace. *)
Theorem digit_free_answer_keeps_its_text :
  forall rawText : text,
    Forall (fun a => isDigit a = false) rawText ->
    stripPageNumber rawText = rawText
    /\ filter (fun a => negb (isSpace a)) (cleanResponse rawText)
       = filter (fun a => negb (isSpace a)) rawText.
Proof.
  intros rawText Hd.
  assert (stripPageNumber rawText = rawText) as E.
  { unfold stripPageNumber, replaceFirst, exec. now rewrite search_noDigit. }
  split; [exact E|].
  rewrite cleanResponse_direct, stripTrail_content, stripLead_content.
  now rewrite E.
Qed.

Lemma digit_free_answer_keeps_its_text_witness :
  stripPageNumber (lit " Hello" ++ [nl; nl] ++ lit "World ")
  = lit " Hello" ++ [nl; nl] ++ lit "World "
  /\ filter (fun a => negb (isSpace a))
            (cleanResponse (lit " Hello" ++ [nl; nl] ++ lit "World "))
     = filter (fun a => negb (isSpace a))
              (lit " Hello" ++ [nl; nl] ++ lit "World ").
Proof.
  apply (@digit_free_answer_keeps_its_text
           (lit " Hello" ++ [nl; nl] ++ lit "World ")).
  repeat constructor.
Defined.

(** X10.  An answer made of whitespace only (spaces, tabs, newlines)
    cleans to the empty text, which the loop takes as no answer: it calls
    again at once, without a wait and without looking at the retry
    bound. *)
Theorem blank_answer_is_retried_at_once :
  forall (maxRetries fuel : nat) (idx pg : Z) (path : text) (svc : service)
         (retries : nat) (rawText : text),
    Forall (fun a => isSpace a = true) rawText ->
    svc retries = Some rawText ->
    cleanResponse rawText = []
    /\ ocrLoop (S fuel) maxRetries idx pg path svc retries
       = (fst (ocrLoop fuel maxRetries idx pg path svc (S retries)),
          Call retries (if retries <? 2 then Temp0 else Temp05) (2 <? retries)
            :: snd (ocrLoop fuel maxRetries idx pg path svc (S retries))).
Proof.
  intros maxRetries fuel idx pg path svc retries rawText Hws Hs.
  assert (cleanResponse rawText = []) as E.
  { rewrite cleanResponse_direct.
    assert (stripPageNumber rawText = rawText) as ->.
    { unfold stripPageNumber, replaceFirst, exec. rewrite search_noDigit;
        [reflexivity|].
      eapply Forall_impl; [|exact Hws]. apply space_notDigit. }
    now rewrite stripLead_spaces. }
  split; [exact E|]. now apply ocrLoop_empty_step with (raw := rawText).
Qed.

Lemma blank_answer_is_retried_at_once_witness :
  cleanResponse [sp; nl] = []
  /\ ocrLoop (S 2) 1 0 1 (lit "00-01.png") blankTwiceThenText 0
     = (fst (ocrLoop 2 1 0 1 (lit "00-01.png") blankTwiceThenText (S 0)),
        Call 0 (if 0 <? 2 then Temp0 else Temp05) (2 <? 0)
          :: snd (ocrLoop 2 1 0 1 (lit "00-01.png") blankTwiceThenText (S 0))).
Proof.
  apply (@blank_answer_is_retried_at_once 1 2 0%Z 1%Z (lit "00-01.png")
           blankTwiceThenText 0 [sp; nl]).
  - repeat constructor.
  - reflexivity.
Defined.

Section BadNames.

Lemma noHyphen_noHyphenAfterDigits (s : text) :
  Forall (fun c => c <> "-"%char) s -> noHyphenAfterDigits s = true.
Proof.
  induction 1 as [|a s Ha Hs IH]; [reflexivity|].
  cbn [noHyphenAfterDigits]. destruct (isDigit a); [exact IH|].
  apply negb_true_iff. destruct (Ascii.eqb a "-"%char) eqn:E; [|reflexivity].
  apply Ascii.eqb_eq in E. contradiction.
Qed.

Lemma search_noHyphen (pos : nat) (prev : option ascii) (s : text) :
  Forall (fun c => c <> "-"%char) s ->
  search reScreenshot pos prev s = None.
Proof.
  intros Hs. revert pos prev.
  induction Hs as [|a s Ha Hs IH]; intros pos prev.
  - cbn [search]. now rewrite screenshot_noIndex.
  - cbn [search]. rewrite screenshot_noIndex; [apply IH|].
    apply noHyphenAfterDigits_noIndexHere, noHyphen_noHyphenAfterDigits.
    now constructor.
Qed.

Lemma collect_bad_name (fuel maxRetries : nat)
  (before after : list (text * service)) (p : text) (svc : service) :
  parseScreenshot p = None ->
  collect fuel maxRetries (before ++ (p, svc) :: after) = None.
Proof.
  intros Hp. induction before as [|[q s] before IH].
  - cbn [app collect]. now rewrite Hp.
  - cbn [app collect]. rewrite IH. now destruct (parseScreenshot q) as [[? ?]|].
Qed.

End BadNames.

(** X11.  One image whose path holds no hyphen makes the assert on file
    names fail and the whole run end without [content.json], wherever the
    image stands in the list and whatever the other images would give. *)
Theorem name_without_hyphen_aborts_the_run :
  forall (fuel maxRetries : nat) (before after : list (text * service))
         (path : text) (svc : service),
    Forall (fun c => c <> "-"%char) path ->
    parseScreenshot path = None
    /\ main fuel maxRetries (before ++ (path, svc) :: after) = Aborted.
Proof.
  intros fuel maxRetries before after path svc Hp.
  assert (parseScreenshot path = None) as E.
  { unfold parseScreenshot, exec. now rewrite search_noHyphen. }
  split; [exact E|]. unfold main.
  rewrite (@collect_bad_name fuel maxRetries before after path svc E).
  now destruct (before ++ (path, svc) :: after).
Qed.

Lemma name_without_hyphen_aborts_the_run_witness :
  parseScreenshot (lit "out/book/pages/cover.png") = None
  /\ main 3 30 ([(lit "00-01.png", sorryTwiceThenText)]
                  ++ (lit "out/book/pages/cover.png", alwaysSorry) :: [])
     = Aborted.
Proof.
  apply (@name_without_hyphen_aborts_the_run 3 30
           [(lit "00-01.png", sorryTwiceThenText)] []
           (lit "out/book/pages/cover.png") alwaysSorry).
  repeat constructor; discriminate.
Defined.

(* ------------------------------------------------------------------ *)
(** ** More on the assembler *)

Section NormalizeMore.

Lemma In_replaceGo (r : regex) (repl : text) (x : ascii) (s : text) :
  forall skip prev,
    In x (replaceGo r repl skip prev s) -> In x repl \/ In x s.
Proof.
  induction s as [|a s IH]; intros skip prev.
  - destruct skip as [|k]; cbn [replaceGo]; [|tauto].
    destruct (matchHere r prev []) as [[[|len] caps]|];
      rewrite ?app_nil_r; tauto.
  - destruct skip as [|k]; cbn [replaceGo].
    + destruct (matchHere r prev (a :: s)) as [[[|len] caps]|].
      * intros H. apply in_app_or in H. destruct H as [H|[H|H]].
        -- now left.
        -- right. now left.
        -- apply IH in H. cbn. tauto.
      * intros H. apply in_app_or in H. destruct H as [H|H]; [now left|].
        apply IH in H. cbn. tauto.
      * intros [H|H]; [right; now left|]. apply IH in H. cbn. tauto.
    + intros H. apply IH in H. cbn. tauto.
Qed.

Lemma replaceGo_cr_free (prev : option ascii) (s : text) :
  ~ In cr (replaceGo reCR [] 0 prev s).
Proof.
  revert prev. induction s as [|a s IH]; intros prev.
  - cbn. intros [].
  - cbn [replaceGo matchHere reCR cmatch].
    destruct (Ascii.eqb a cr) eqn:E.
    + cbn. apply IH.
    + cbn. intros [H|H].
      * subst a. now rewrite Ascii.eqb_refl in E.
      * now apply IH in H.
Qed.

Lemma dropWhile_head (p : ascii -> bool) (s : text) (a : ascii) (rest : text) :
  dropWhile p s = a :: rest -> p a = false.
Proof.
  induction s as [|b s IH]; cbn; [discriminate|].
  destruct (p b) eqn:E; [exact IH|]. intros H; injection H as <- _. exact E.
Qed.

Lemma dropWhile_suffix (p : ascii -> bool) (s : text) :
  exists w, s = w ++ dropWhile p s.
Proof.
  induction s as [|b s [w IH]]; [now exists []|]. cbn.
  destruct (p b).
  - exists (b :: w). cbn. now rewrite <- IH.
  - now exists [].
Qed.

Lemma trim_edges (s : text) :
  (forall a rest, trim s = a :: rest -> isSpace a = false)
  /\ (forall front b, trim s = front ++ [b] -> isSpace b = false).
Proof.
  unfold trim, trimEnd, trimStart. split.
  - intros a rest H.
    destruct (dropWhile_suffix isSpace (rev (dropWhile isSpace s))) as [w Hw].
    apply (f_equal (@rev ascii)) in Hw.
    rewrite rev_involutive, rev_app_distr, H in Hw. cbn in Hw.
    now apply dropWhile_head in Hw.
  - intros front b H. apply (f_equal (@rev ascii)) in H.
    rewrite rev_involutive, rev_app_distr in H. cbn in H.
    now apply dropWhile_head in H.
Qed.

End NormalizeMore.

(** X12.  The text that the assembler takes from a chunk holds no carriage
    return and no newline, and neither starts nor ends with whitespace. *)
Theorem normalizeChunkText_is_one_trimmed_line :
  forall t : text,
    ~ In cr (normalizeChunkText t)
    /\ ~ In nl (normalizeChunkText t)
    /\ (forall a rest, normalizeChunkText t = a :: rest -> isSpace a = false)
    /\ (forall front b,
          normalizeChunkText t = front ++ [b] -> isSpace b = false).
Proof.
  intros t. split; [|split].
  - unfold normalizeChunkText, replaceAll. intros H. apply In_trim in H.
    apply In_replaceGo in H. destruct H as [[H|[]]|H]; [discriminate H|].
    apply In_replaceGo in H. destruct H as [[H|[H|[]]]|H];
      [discriminate H|discriminate H|].
    now apply replaceGo_cr_free in H.
  - apply normalizeChunkText_newline_free.
  - apply trim_edges.
Qed.

Section SectionTextMore.

Lemma count_nl_normalize (t : text) :
  count_occ ascii_dec (normalizeChunkText t) nl = 0.
Proof. apply count_occ_not_In, normalizeChunkText_newline_free. Qed.

End SectionTextMore.

(** X13.  In the text of a section, newlines stand only between the
    chunks, two for each boundary: a section of n chunks (n at least 1)
    holds exactly 2 (n - 1) newlines. *)
Theorem sectionText_breaks_between_chunks_only :
  forall chunks : list ContentChunk,
    count_occ ascii_dec (sectionText chunks) nl = 2 * (length chunks - 1).
Proof.
  unfold sectionText. induction chunks as [|c chunks IH]; [reflexivity|].
  destruct chunks as [|d chunks].
  - cbn [map join length]. rewrite count_nl_normalize. reflexivity.
  - cbn [map join] in IH |- *. rewrite !count_occ_app, count_nl_normalize.
    cbn [map join] in IH. rewrite IH. cbn [length count_occ].
    destruct (ascii_dec nl nl); [lia|congruence].
Qed.

Section Slices.

Variables (A : Type).

Lemma firstn_then_skipn (n m : nat) (l : list A) :
  firstn n l ++ firstn m (skipn n l) = firstn (n + m) l.
Proof.
  revert l. induction n as [|n IH]; intros l; [reflexivity|].
  destruct l as [|x l]; cbn; [now rewrite firstn_nil|]. now rewrite IH.
Qed.

Lemma slice_app (a b c : nat) (l : list A) :
  a <= b -> b <= c -> slice a b l ++ slice b c l = slice a c l.
Proof.
  intros Hab Hbc. unfold slice.
  assert (skipn b l = skipn (b - a) (skipn a l)) as ->.
  { rewrite skipn_skipn. f_equal. lia. }
  rewrite firstn_then_skipn. f_equal. lia.
Qed.

Lemma slice_all (l : list A) : slice 0 (length l) l = l.
Proof. unfold slice. cbn [skipn]. rewrite Nat.sub_0_r. apply firstn_all. Qed.

Lemma slice_empty (a : nat) (l : list A) : slice a a l = [].
Proof. unfold slice. now rewrite Nat.sub_diag. Qed.

End Slices.

Section Coverage.

Variables (contentSorted : list ContentChunk) (toc : list TocItem).

Lemma chained_concat (l : list (TocItem * nat * nat)) (cursor : nat) :
  chained (length contentSorted) cursor l ->
  exists k,
    cursor <= k /\ (k <= length contentSorted \/ k = cursor)
    /\ concat (map (fun s => slice (snd (fst s)) (snd s) contentSorted) l)
       = slice cursor k contentSorted.
Proof.
  revert cursor. induction l as [|[[t from] to] l IH]; intros cursor H.
  - exists cursor. split; [lia|]. split; [now right|].
    cbn. now rewrite slice_empty.
  - cbn [chained] in H. destruct H as (-> & Hle & Hlen & Hc).
    destruct (IH to Hc) as (k & Hk & Hk' & E).
    exists k. split; [lia|]. split; [left; lia|].
    cbn [map concat fst snd]. rewrite E. now apply slice_app.
Qed.

(** The boundary in front of an entry that no chunk reaches. *)
Lemma computeNextIndex_unreached (currentIndex tocIndex : nat) :
  currentIndex <= length contentSorted ->
  match nextStartPage toc tocIndex with
  | None => True
  | Some q => forall c, In c contentSorted -> (page c < q)%Z
  end ->
  computeNextIndex contentSorted toc currentIndex tocIndex
  = length contentSorted.
Proof.
  intros Hcur Hq. unfold computeNextIndex, nextStartPage in *.
  destruct (nth_error toc (tocIndex + 1)) as [e|]; [|reflexivity].
  destruct (tocPage e) as [q|]; [|reflexivity].
  destruct (findIndex (fun c => (q <=? page c)%Z) contentSorted) as [k|] eqn:Ef.
  - exfalso. destruct (findIndex_Some _ _ Ef) as (Hk & _ & H3).
    destruct (nth_error contentSorted k) as [c|] eqn:Ec.
    + specialize (H3 c eq_refl). cbn in H3.
      apply nth_error_In in Ec. specialize (Hq c Ec). lia.
    + apply nth_error_None in Ec. lia.
  - destruct (length contentSorted <? currentIndex) eqn:E; [|reflexivity].
    apply Nat.ltb_lt in E. lia.
Qed.

Lemma sectionLoop_covers (t : TocItem) (n i index : nat) :
  index <= length contentSorted ->
  nth_error toc (i + n) = Some t ->
  tocPage t <> None ->
  (forall j, j < i + n -> nth_error toc j <> None) ->
  match nextStartPage toc (i + n) with
  | None => True
  | Some q => forall c, In c contentSorted -> (page c < q)%Z
  end ->
  concat (map (fun s => slice (snd (fst s)) (snd s) contentSorted)
              (sectionLoop contentSorted toc (S n) i index))
  = slice index (length contentSorted) contentSorted.
Proof.
  revert i index. induction n as [|n IH]; intros i index Hidx Ht Hp Hex Hq.
  - rewrite Nat.add_0_r in *. cbn [sectionLoop]. rewrite Ht.
    destruct (tocPage t) as [p|]; [|congruence].
    cbn [map concat fst snd]. rewrite app_nil_r.
    now rewrite computeNextIndex_unreached.
  - replace (i + S n) with (S i + n) in * by lia.
    remember (S n) as m. cbn [sectionLoop]. subst m.
    destruct (nth_error toc i) as [u|] eqn:Eu.
    2:{ exfalso. apply (Hex i); [lia|exact Eu]. }
    destruct (tocPage u) as [p|].
    + cbn [map concat fst snd].
      destruct (computeNextIndex_spec contentSorted toc i Hidx)
        as (b & Hb & Hble & _).
      rewrite IH; try assumption; [|rewrite Hb; lia].
      apply slice_app; rewrite Hb; lia.
    + now apply IH.
Qed.

End Coverage.

(** X14.  The slices of the sections follow one another from the first
    sorted chunk on: put end to end, the chunks of all sections are a
    prefix of the sorted chunk list, so no chunk is written twice or out
    of order, and all chunks that are left out stand at the end. *)
Theorem sections_are_a_prefix_of_the_chunks :
  forall (bookId : text) (metadata : option BookMetadata)
         (content : list ContentChunk),
    exists k,
      k <= length content
      /\ concat (map (fun s => snd (fst s)) (sections bookId metadata content))
         = firstn k (sortBy chunkCmp content).
Proof.
  intros bookId metadata content. unfold sections.
  set (cs := sortBy chunkCmp content).
  set (t := effectiveToc bookId metadata content).
  destruct (@sectionLoop_spec cs t (length t - 1) 0 0) as [Hc _]; [lia|].
  destruct (@chained_concat cs _ _ Hc) as (k & _ & Hk & E).
  exists k. split.
  - destruct Hk as [Hk| ->]; [|lia]. unfold cs in Hk.
    now rewrite length_sortBy in Hk.
  - rewrite map_map. unfold sectionBounds.
    erewrite map_ext; [rewrite E|].
    + unfold slice. cbn [skipn]. now rewrite Nat.sub_0_r.
    + now intros [[u from] to].
Qed.

(** X15.  With a table of contents from [metadata.json] whose entry before
    the last has a start page and whose last entry has either no start
    page or a start page above the page of every chunk, the sections hold
    all chunks: put end to end they are the sorted chunk list. *)
Theorem sections_cover_all_chunks :
  forall (bookId : text) (m : BookMetadata) (mt : BookMeta)
         (front : list TocItem) (t e : TocItem) (content : list ContentChunk),
    meta m = Some mt ->
    toc m = Some (front ++ [t; e]) ->
    tocPage t <> None ->
    match tocPage e with
    | None => True
    | Some q => forall c, In c content -> (page c < q)%Z
    end ->
    concat (map (fun s => snd (fst s)) (sections bookId (Some m) content))
    = sortBy chunkCmp content.
Proof.
  intros bookId m mt front t e content Hm Ht Hp He.
  unfold sections, effectiveToc. cbn [unusable]. rewrite Hm, Ht.
  assert (match front ++ [t; e] with [] => true | _ :: _ => false end = false)
    as -> by (now destruct front).
  set (cs := sortBy chunkCmp content). set (tc := front ++ [t; e]).
  rewrite map_map. unfold sectionBounds.
  assert (length tc - 1 = S (length front)) as ->.
  { unfold tc. rewrite length_app. cbn. lia. }
  erewrite map_ext.
  - rewrite (@sectionLoop_covers cs tc t (length front) 0 0).
    + apply slice_all.
    + lia.
    + unfold tc. cbn [Nat.add]. rewrite nth_error_app2 by lia.
      now rewrite Nat.sub_diag.
    + exact Hp.
    + intros j Hj. apply nth_error_Some. unfold tc.
      rewrite length_app. cbn in *. lia.
    + unfold nextStartPage, tc. cbn [Nat.add].
      rewrite nth_error_app2 by lia.
      replace (length front + 1 - length front) with 1 by lia. cbn.
      destruct (tocPage e) as [q|]; [|exact I].
      intros c Hc. apply He. unfold cs in Hc. now apply In_sortBy in Hc.
  - now intros [[u from] to].
Qed.

Lemma sections_cover_all_chunks_witness :
  concat (map (fun s => snd (fst s))
              (sections (lit "book")
                 (Some (Assemble.mkMetadata (Some (mkMeta [] (lit "A book") []))
                          (Some ([] ++ [mkToc (lit "A book") (Some 1%Z) 3;
                                        mkToc (lit "End") (Some 4%Z) 3]))))
                 threePages))
  = sortBy chunkCmp threePages.
Proof.
  apply (@sections_cover_all_chunks (lit "book")
           (Assemble.mkMetadata (Some (mkMeta [] (lit "A book") []))
              (Some ([] ++ [mkToc (lit "A book") (Some 1%Z) 3;
                            mkToc (lit "End") (Some 4%Z) 3])))
           (mkMeta [] (lit "A book") []) []
           (mkToc (lit "A book") (Some 1%Z) 3) (mkToc (lit "End") (Some 4%Z) 3)
           threePages).
  - reflexivity.
  - reflexivity.
  - discriminate.
  - cbn. intros c [<-|[<-|[<-|[]]]]; cbn; lia.
Defined.





(* ------------------------------------------------------------------ *)
(** ** More on the capture loop *)

Section CaptureMore.

Context {World : Type} {V : Viewer World}.

Local Open Scope script_scope.

(** One strategy of [advanceOnce]: the action, the wait and the reading of
    the state. *)
Lemma strategy_run (A : Type) (e : event) (f : World -> World)
  (k : BrState -> M World A) (m : Machine World) :
  exists m1,
    log m1 = log m ++ [e; EvWait]
    /\ files m1 = files m
    /\ ((act e f ;;; waitForPageStable ;;; st <- getBrState ;; k st) m
        = (None, m1)
        \/ exists st,
             (act e f ;;; waitForPageStable ;;; st <- getBrState ;; k st) m
             = k st m1).
Proof.
  destruct m as [w lg fs].
  unfold act, waitForPageStable, tryAct, getBrState, query, ret.
  rewrite !bind_run. cbn [world log files].
  destruct (waitStable (f w)) as [w1|].
  - rewrite !bind_run. cbn [world log files].
    destruct (readDom w1) as [d|].
    + exists (mkMachine w1 ((lg ++ [e]) ++ [EvWait]) fs).
      cbn. rewrite <- app_assoc. split; [reflexivity|]. split; [reflexivity|].
      right. now exists (stateOfDom d).
    + exists (mkMachine w1 ((lg ++ [e]) ++ [EvWait]) fs).
      cbn. rewrite <- app_assoc. split; [reflexivity|]. split; [reflexivity|].
      now left.
  - exists (mkMachine (f w) ((lg ++ [e]) ++ [EvWait]) fs).
    cbn. rewrite <- app_assoc. split; [reflexivity|]. split; [reflexivity|].
    now left.
Qed.

(** What a call of [advanceOnce] leaves behind, however it ends. *)
Lemma advanceOnce_log (prevSig : text) (prevPage : Z) (m : Machine World) :
  files (snd (advanceOnce prevSig prevPage m)) = files m
  /\ exists delta,
       log (snd (advanceOnce prevSig prevPage m)) = log m ++ delta
       /\ advancePrefix delta
       /\ (fst (advanceOnce prevSig prevPage m) = Some false ->
           delta = advanceRound).
Proof.
  unfold advanceOnce, advancePrefix.
  edestruct (@strategy_run bool EvNext brNext) as (m1 & Hl1 & Hf1 & [->|[st1 ->]]).
  { cbn [fst snd]. split; [exact Hf1|]. eexists. split; [exact Hl1|].
    split; [auto|discriminate]. }
  destruct (changed prevSig prevPage st1).
  { cbn [ret fst snd]. split; [exact Hf1|]. eexists. split; [exact Hl1|].
    split; [auto|discriminate]. }
  edestruct (@strategy_run bool EvClick clickNext) as (m2 & Hl2 & Hf2 & [->|[st2 ->]]).
  { cbn [fst snd]. split; [congruence|]. eexists. split.
    - rewrite Hl2, Hl1, <- app_assoc. reflexivity.
    - split; [auto|discriminate]. }
  destruct (changed prevSig prevPage st2).
  { cbn [ret fst snd]. split; [congruence|]. eexists. split.
    - rewrite Hl2, Hl1, <- app_assoc. reflexivity.
    - split; [auto|discriminate]. }
  edestruct (@strategy_run bool EvKey pressArrowRight)
    as (m3 & Hl3 & Hf3 & [->|[st3 ->]]).
  { cbn [fst snd]. split; [congruence|]. eexists. split.
    - rewrite Hl3, Hl2, Hl1, <- !app_assoc. reflexivity.
    - split; [auto|discriminate]. }
  cbn [ret fst snd]. split; [congruence|]. eexists. split.
  - rewrite Hl3, Hl2, Hl1, <- !app_assoc. reflexivity.
  - split; [auto|reflexivity].
Qed.

(** One strategy of [advanceOnce] in terms of what it observes. *)
Lemma strategy_observe (A : Type) (e : event) (f : World -> World)
  (k : BrState -> M World A) (m : Machine World) :
  exists failed,
    (act e f ;;; waitForPageStable ;;; st <- getBrState ;; k st) m
    = match observeAfter f (world m) with
      | Some (w1, st) => k st (mkMachine w1 (log m ++ [e; EvWait]) (files m))
      | None => (None, failed)
      end.
Proof.
  destruct m as [w lg fs].
  unfold observeAfter, act, waitForPageStable, tryAct, getBrState, query, ret.
  rewrite !bind_run. cbn [world log files].
  destruct (waitStable (f w)) as [w1|]; [|eexists; reflexivity].
  rewrite !bind_run. cbn [world log files].
  destruct (readDom w1) as [d|]; [|eexists; reflexivity].
  exists (mkMachine w lg fs). now rewrite <- app_assoc.
Qed.

(** The strategies of [advanceOnce] one after the other: each runs only
    when the one before it showed no change. *)
Lemma advanceOnce_outcome (prevSig : text) (prevPage : Z)
  (m m' : Machine World) (b : bool) :
  advanceOnce prevSig prevPage m = (Some b, m') ->
  exists w1 st1,
    observeAfter brNext (world m) = Some (w1, st1)
    /\ if changed prevSig prevPage st1 then
         b = true
         /\ m' = mkMachine w1 (log m ++ [EvNext; EvWait]) (files m)
       else
         exists w2 st2,
           observeAfter clickNext w1 = Some (w2, st2)
           /\ if changed prevSig prevPage st2 then
                b = true
                /\ m' = mkMachine w2
                          (log m ++ [EvNext; EvWait; EvClick; EvWait])
                          (files m)
              else
                exists w3 st3,
                  observeAfter pressArrowRight w2 = Some (w3, st3)
                  /\ b = changed prevSig prevPage st3
                  /\ m' = mkMachine w3 (log m ++ advanceRound) (files m).
Proof.
  unfold advanceOnce.
  edestruct (@strategy_observe bool EvNext brNext) as (f1 & ->).
  destruct (observeAfter brNext (world m)) as [[w1 st1]|]; [|discriminate].
  intros H. exists w1, st1. split; [reflexivity|].
  destruct (changed prevSig prevPage st1).
  { cbn in H. injection H as <- <-. auto. }
  revert H.
  edestruct (@strategy_observe bool EvClick clickNext) as (f2 & ->).
  cbn [world log files].
  destruct (observeAfter clickNext w1) as [[w2 st2]|]; [|discriminate].
  intros H. exists w2, st2. split; [reflexivity|].
  destruct (changed prevSig prevPage st2).
  { cbn in H. injection H as <- <-. rewrite <- app_assoc. auto. }
  revert H.
  edestruct (@strategy_observe bool EvKey pressArrowRight) as (f3 & ->).
  cbn [world log files].
  destruct (observeAfter pressArrowRight w2) as [[w3 st3]|]; [|discriminate].
  intros H. exists w3, st3. split; [reflexivity|].
  cbn in H. injection H as <- <-. rewrite <- !app_assoc. auto.
Qed.

Lemma advancePrefix_counts (delta : list event) :
  advancePrefix delta ->
  nexts delta = 1 /\ clicks delta <= 1 /\ borrows delta = 0 /\ shots delta = 0.
Proof. intros [->|[->| ->]]; cbn; lia. Qed.

Lemma counts_app (a b : list event) :
  nexts (a ++ b) = nexts a + nexts b
  /\ clicks (a ++ b) = clicks a + clicks b
  /\ borrows (a ++ b) = borrows a + borrows b
  /\ shots (a ++ b) = shots a + shots b.
Proof.
  unfold nexts, clicks, borrows, shots.
  now rewrite !filter_app, !length_app.
Qed.

(** The retries of lines 454-459, however they end: at most [left] rounds,
    each with one [br.next()] and at most one borrow attempt, no
    screenshot and no file. *)
Lemma verifyLoop_log (v : LoopVars) (left tried : nat) (st : BrState)
  (m : Machine World) :
  files (snd (verifyLoop v left tried st m)) = files m
  /\ (forall st' tried',
        fst (verifyLoop v left tried st m) = Some (st', tried') ->
        tried' <= tried + left)
  /\ exists delta,
       log (snd (verifyLoop v left tried st m)) = log m ++ delta
       /\ nexts delta <= left /\ borrows delta <= left /\ shots delta = 0.
Proof.
  revert tried m. induction left as [|left IH]; intros tried m.
  - cbn. split; [reflexivity|]. split.
    + intros st' tried' H. injection H as _ <-. lia.
    + exists []. rewrite app_nil_r. cbn. auto.
  - cbn [verifyLoop]. rewrite bind_run.
    destruct (advanceOnce_log (lastSig v) (lastPageNum v) m)
      as (Hf & delta & Hl & Hp & _).
    destruct (advancePrefix_counts Hp) as (Hn & _ & Hb & Hs).
    destruct (advanceOnce (lastSig v) (lastPageNum v) m) as [[[|]|] m1];
      cbn [fst snd] in Hf, Hl.
    + unfold getBrState, query, ret. rewrite !bind_run.
      destruct (readDom (world m1)) as [d|]; cbn [fst snd].
      * split; [exact Hf|]. split.
        -- intros st' tried' H. injection H as _ <-. lia.
        -- exists delta. repeat split; try assumption; lia.
      * split; [exact Hf|]. split; [discriminate|].
        exists delta. repeat split; try assumption; lia.
    + assert ((act EvBorrow attemptBorrowOn ;;;
               verifyLoop v left (S tried) st) m1
              = verifyLoop v left (S tried) st
                  (mkMachine (attemptBorrowOn (world m1))
                             (log m1 ++ [EvBorrow]) (files m1))) as ->
        by reflexivity.
      specialize (IH (S tried)
                     (mkMachine (attemptBorrowOn (world m1))
                                (log m1 ++ [EvBorrow]) (files m1))).
      destruct IH as (Hf2 & Ht2 & delta2 & Hl2 & Hn2 & Hb2 & Hs2).
      cbn [world log files] in *.
      split; [congruence|]. split.
      * intros st' tried' H. specialize (Ht2 st' tried' H). lia.
      * exists (delta ++ [EvBorrow] ++ delta2). split.
        -- rewrite Hl2, Hl. now rewrite <- !app_assoc.
        -- destruct (counts_app delta ([EvBorrow] ++ delta2))
             as (E1 & _ & E3 & E4).
           destruct (counts_app [EvBorrow] delta2) as (F1 & _ & F3 & F4).
           rewrite E1, E3, E4, F1, F3, F4. cbn. lia.
    + cbn [fst snd]. split; [exact Hf|]. split; [discriminate|].
      exists delta. repeat split; try assumption; lia.
Qed.

(** The check at the start of an iteration, however it ends. *)
Lemma ensureAdvanced_log (cfg : Config) (i : nat) (v : LoopVars)
  (m : Machine World) :
  files (snd (ensureAdvanced cfg i v m)) = files m
  /\ exists delta,
       log (snd (ensureAdvanced cfg i v m)) = log m ++ delta
       /\ nexts delta <= maxVerifyRetries cfg
       /\ borrows delta <= maxVerifyRetries cfg
       /\ shots delta = 0
       /\ (i = 0 -> delta = []).
Proof.
  unfold ensureAdvanced, getBrState, query, ret. rewrite !bind_run.
  destruct (readDom (world m)) as [d|]; cbn [fst snd].
  2:{ split; [reflexivity|]. exists []. rewrite app_nil_r. cbn.
      repeat split; lia. }
  destruct ((0 <? i) && unchanged (lastSig v) (lastPageNum v) (stateOfDom d))
    eqn:E.
  - apply andb_true_iff in E. destruct E as [Ei _]. apply Nat.ltb_lt in Ei.
    rewrite bind_run.
    destruct (verifyLoop_log v (maxVerifyRetries cfg) 0 (stateOfDom d) m)
      as (Hf & _ & delta & Hl & Hn & Hb & Hs).
    destruct (verifyLoop v (maxVerifyRetries cfg) 0 (stateOfDom d) m)
      as [[[st' tried]|] m1]; cbn [fst snd] in *.
    + destruct ((maxVerifyRetries cfg <=? tried)
                && unchanged (lastSig v) (lastPageNum v) st'); cbn [fst snd];
        (split; [exact Hf|]; exists delta; repeat split; try assumption; lia).
    + split; [exact Hf|]. exists delta. repeat split; try assumption; lia.
  - cbn [fst snd]. split; [reflexivity|]. exists []. rewrite app_nil_r. cbn.
    repeat split; lia.
Qed.

End CaptureMore.

(** X17.  A call of [advanceOnce] that returns tries its strategies in the
    fixed order br.next(), click, arrow key, each followed by one wait and
    one reading of the state, and stops at the first strategy after which
    the state shows a change: it returns true with the events of the first
    strategy when the state after br.next() has changed; otherwise true
    with the events of the first two when the state after the click has
    changed; otherwise it runs all three and returns whether the state
    after the arrow key has changed.  It writes no file. *)
Theorem advanceOnce_escalates_in_order :
  forall (World : Type) (V : Viewer World) (prevSig : text) (prevPage : Z)
         (m m' : Machine World) (b : bool),
    advanceOnce prevSig prevPage m = (Some b, m') ->
    files m' = files m
    /\ (exists delta,
          log m' = log m ++ delta
          /\ advancePrefix delta
          /\ (b = false -> delta = advanceRound))
    /\ exists w1 st1,
         observeAfter brNext (world m) = Some (w1, st1)
         /\ if changed prevSig prevPage st1 then
              b = true
              /\ m' = mkMachine w1 (log m ++ [EvNext; EvWait]) (files m)
            else
              exists w2 st2,
                observeAfter clickNext w1 = Some (w2, st2)
                /\ if changed prevSig prevPage st2 then
                     b = true
                     /\ m' = mkMachine w2
                               (log m ++ [EvNext; EvWait; EvClick; EvWait])
                               (files m)
                   else
                     exists w3 st3,
                       observeAfter pressArrowRight w2 = Some (w3, st3)
                       /\ b = changed prevSig prevPage st3
                       /\ m' = mkMachine w3 (log m ++ advanceRound) (files m).
Proof.
  intros World V prevSig prevPage m m' b H.
  destruct (advanceOnce_log prevSig prevPage m) as (Hf & delta & Hl & Hp & Hb).
  rewrite H in Hf, Hl, Hb. cbn [fst snd] in *.
  split; [exact Hf|]. split.
  - exists delta. split; [exact Hl|]. split; [exact Hp|].
    intros ->. now apply Hb.
  - now apply advanceOnce_outcome.
Qed.

Lemma advanceOnce_escalates_in_order_witness :
  files (mkMachine 1 [EvNext; EvWait; EvClick; EvWait; EvKey; EvWait] [])
  = files startMachine
  /\ (exists delta,
        log (mkMachine 1 [EvNext; EvWait; EvClick; EvWait; EvKey; EvWait] [])
        = log startMachine ++ delta
        /\ advancePrefix delta
        /\ (true = false -> delta = advanceRound))
  /\ exists w1 st1,
       @observeAfter nat keyOnlyViewer (@brNext nat keyOnlyViewer) (world startMachine)
       = Some (w1, st1)
       /\ if changed (lit "leaf0|1") 1%Z st1 then
            true = true
            /\ mkMachine 1 [EvNext; EvWait; EvClick; EvWait; EvKey; EvWait] []
               = mkMachine w1 (log startMachine ++ [EvNext; EvWait])
                           (files startMachine)
          else
            exists w2 st2,
              @observeAfter nat keyOnlyViewer (@clickNext nat keyOnlyViewer) w1 = Some (w2, st2)
              /\ if changed (lit "leaf0|1") 1%Z st2 then
                   true = true
                   /\ mkMachine 1
                        [EvNext; EvWait; EvClick; EvWait; EvKey; EvWait] []
                      = mkMachine w2
                          (log startMachine
                           ++ [EvNext; EvWait; EvClick; EvWait])
                          (files startMachine)
                 else
                   exists w3 st3,
                     @observeAfter nat keyOnlyViewer
                       (@pressArrowRight nat keyOnlyViewer) w2
                     = Some (w3, st3)
                     /\ true = changed (lit "leaf0|1") 1%Z st3
                     /\ mkMachine 1
                          [EvNext; EvWait; EvClick; EvWait; EvKey; EvWait] []
                        = mkMachine w3 (log startMachine ++ advanceRound)
                                    (files startMachine).
Proof.
  apply (@advanceOnce_escalates_in_order nat keyOnlyViewer
           (lit "leaf0|1") 1%Z startMachine
           (mkMachine 1 [EvNext; EvWait; EvClick; EvWait; EvKey; EvWait] [])
           true).
  vm_compute. reflexivity.
Defined.

(** X18.  The check at the start of an iteration is bounded: however the
    reader behaves, it calls br.next() at most IA_MAX_RETRIES times and
    tries to borrow at most IA_MAX_RETRIES times, takes no screenshot and
    writes no file; in the first iteration it does not touch the reader at
    all. *)
Theorem stagnation_check_is_bounded :
  forall (World : Type) (V : Viewer World) (cfg : Config) (i : nat)
         (v : LoopVars) (m : Machine World),
    files (snd (ensureAdvanced cfg i v m)) = files m
    /\ exists delta,
         log (snd (ensureAdvanced cfg i v m)) = log m ++ delta
         /\ nexts delta <= maxVerifyRetries cfg
         /\ borrows delta <= maxVerifyRetries cfg
         /\ shots delta = 0
         /\ (i = 0 -> delta = []).
Proof. intros. apply ensureAdvanced_log. Qed.

Section PagesAndFiles.

Context {World : Type} {V : Viewer World}.

Local Open Scope script_scope.

Variable cfg : Config.

(** What one iteration does to the pages and to the files. *)
Lemma captureStep_effect (i : nat) (v : LoopVars) (m : Machine World) :
  match fst (captureStep cfg i v m) with
  | Some (Some v') =>
      exists pageNum buf,
        pages v'
        = pages v
          ++ [mkPage i pageNum (cfgTotal cfg)
                (pathJoin (pageScreenshotsDir cfg)
                          (fileName (indexPad cfg) i pageNum))]
        /\ files (snd (captureStep cfg i v m))
           = (pathJoin (pageScreenshotsDir cfg)
                       (fileName (indexPad cfg) i pageNum), buf)
             :: files m
  | _ => files (snd (captureStep cfg i v m)) = files m
  end.
Proof.
  unfold captureStep. rewrite bind_run.
  destruct (ensureAdvanced_log cfg i v m) as (Hf1 & _).
  destruct (ensureAdvanced cfg i v m) as [[[st|]|] m1]; cbn [fst snd] in *;
    try exact Hf1.
  rewrite bind_run.
  destruct (captureFrame_log i (lastHash v) m1) as (delta & _ & Hf2 & _).
  destruct (captureFrame i (lastHash v) m1) as [[[buf hash]|] m2];
    cbn [fst snd] in *; [|congruence].
  unfold writeFile. rewrite bind_run. unfold ret. cbn [fst snd].
  exists (pageOr st (Z.of_nat i + 1)), buf. split; [reflexivity|].
  rewrite bind_run. unfold ignoreErrors.
  match goal with
  | |- context [advanceOnce ?a ?b ?mm] =>
      destruct (advanceOnce_log a b mm) as (Hf3 & _);
      destruct (advanceOnce a b mm) as [[b'|] m3]
  end; cbn [fst snd] in *; rewrite Hf3; cbn [files]; congruence.
Qed.

(** What the rest of the loop does to the pages and to the files. *)
Lemma captureLoop_effect (n i : nat) (v v' : LoopVars) (m m' : Machine World) :
  captureLoop cfg n i v m = (Some v', m') ->
  exists new,
    pages v' = pages v ++ new
    /\ length new <= n
    /\ map pgIndex new = seq i (length new)
    /\ map fst (files m') = rev (map pgScreenshot new) ++ map fst (files m)
    /\ Forall (fun p =>
                 pgScreenshot p
                 = pathJoin (pageScreenshotsDir cfg)
                            (fileName (indexPad cfg) (pgIndex p) (pgPage p))
                 /\ pgTotal p = cfgTotal cfg) new.
Proof.
  revert i v m. induction n as [|n IH]; intros i v m H.
  - cbn in H. injection H as <- <-. exists []. rewrite app_nil_r.
    cbn. repeat split; auto.
  - cbn [captureLoop] in H. rewrite bind_run in H.
    pose proof (captureStep_effect i v m) as He.
    destruct (captureStep cfg i v m) as [[[v1|]|] m1]; cbn [fst snd] in He;
      try discriminate.
    + destruct He as (pageNum & buf & Hp & Hfs).
      destruct (IH _ _ _ H) as (new & Hp' & Hlen & Hidx & Hfiles & Hall).
      exists (mkPage i pageNum (cfgTotal cfg)
                (pathJoin (pageScreenshotsDir cfg)
                          (fileName (indexPad cfg) i pageNum)) :: new).
      split; [rewrite Hp', Hp, <- app_assoc; reflexivity|].
      split; [cbn; lia|]. split; [cbn; now rewrite Hidx|]. split.
      * rewrite Hfiles, Hfs. cbn [map rev fst pgScreenshot].
        now rewrite <- app_assoc.
      * constructor; [cbn; auto|exact Hall].
    + cbn in H. injection H as <- <-. exists []. rewrite app_nil_r.
      cbn. rewrite He. repeat split; auto. lia.
Qed.

End PagesAndFiles.

(** X19.  When the capture returns, the pages of [metadata.json] are
    numbered 0, 1, 2, ... in capture order without a gap, there are at
    most [captureUntil] of them, and each carries the total that the
    reader gave at the start. *)
Theorem captured_indices_are_gap_free :
  forall (World : Type) (V : Viewer World) (cfg : Config)
         (m m' : Machine World) (md : Metadata),
    captureIaBook cfg m = (Some md, m') ->
    map pgIndex (mdPages md) = seq 0 (length (mdPages md))
    /\ length (mdPages md) <= captureUntil cfg
    /\ Forall (fun p => pgTotal p = cfgTotal cfg) (mdPages md).
Proof.
  intros World V cfg m m' md H. unfold captureIaBook in H.
  rewrite bind_run in H.
  destruct (captureLoop cfg (captureUntil cfg) 0 initialVars m)
    as [[v|] m1] eqn:E; [|discriminate].
  injection H as <- <-.
  destruct (@captureLoop_effect _ _ _ _ _ _ _ _ _ E) as (new & Hp & Hlen & Hidx & _ & Hall).
  cbn [mdPages buildMetadata]. rewrite Hp. cbn [initialVars pages app].
  split; [exact Hidx|]. split; [exact Hlen|].
  eapply Forall_impl; [|exact Hall]. now intros p [_ Hp'].
Qed.

Lemma captured_indices_are_gap_free_witness :
  map pgIndex (mdPages twoLeafMetadata)
  = seq 0 (length (mdPages twoLeafMetadata))
  /\ length (mdPages twoLeafMetadata) <= captureUntil sampleConfig
  /\ Forall (fun p => pgTotal p = cfgTotal sampleConfig)
            (mdPages twoLeafMetadata).
Proof.
  apply (@captured_indices_are_gap_free nat (bookViewer 1) sampleConfig
           startMachine (snd twoLeafRun) twoLeafMetadata).
  vm_compute. reflexivity.
Defined.

(** X20.  When the capture returns, it has written exactly one image file
    per page of [metadata.json], in capture order, under the path recorded
    for the page, and that path is the pages directory followed by the
    padded index, a hyphen, the padded page number and ".png". *)
Theorem one_file_per_captured_page :
  forall (World : Type) (V : Viewer World) (cfg : Config)
         (m m' : Machine World) (md : Metadata),
    captureIaBook cfg m = (Some md, m') ->
    map fst (files m') = rev (map pgScreenshot (mdPages md)) ++ map fst (files m)
    /\ Forall (fun p =>
                 pgScreenshot p
                 = pathJoin (pageScreenshotsDir cfg)
                            (fileName (indexPad cfg) (pgIndex p) (pgPage p)))
              (mdPages md).
Proof.
  intros World V cfg m m' md H. unfold captureIaBook in H.
  rewrite bind_run in H.
  destruct (captureLoop cfg (captureUntil cfg) 0 initialVars m)
    as [[v|] m1] eqn:E; [|discriminate].
  injection H as <- <-.
  destruct (@captureLoop_effect _ _ _ _ _ _ _ _ _ E) as (new & Hp & _ & _ & Hfiles & Hall).
  cbn [mdPages buildMetadata]. rewrite Hp. cbn [initialVars pages app].
  split; [exact Hfiles|].
  eapply Forall_impl; [|exact Hall]. now intros p [Hp' _].
Qed.

Lemma one_file_per_captured_page_witness :
  map fst (files (snd twoLeafRun))
  = rev (map pgScreenshot (mdPages twoLeafMetadata))
    ++ map fst (files startMachine)
  /\ Forall (fun p =>
               pgScreenshot p
               = pathJoin (pageScreenshotsDir sampleConfig)
                          (fileName (indexPad sampleConfig) (pgIndex p)
                                    (pgPage p)))
            (mdPages twoLeafMetadata).
Proof.
  apply (@one_file_per_captured_page nat (bookViewer 1) sampleConfig
           startMachine (snd twoLeafRun) twoLeafMetadata).
  vm_compute. reflexivity.
Defined.

(** X21.  The two stages fit: when the pages directory holds no digit that
    is directly followed by a hyphen, the transcription program reads back,
    from the path of every captured page with a page number that is not
    negative, the index and the page number that [metadata.json] records
    for it. *)
Theorem captured_paths_parse_back :
  forall (World : Type) (V : Viewer World) (cfg : Config)
         (m m' : Machine World) (md : Metadata),
    captureIaBook cfg m = (Some md, m') ->
    noDigitHyphen (pageScreenshotsDir cfg) = true ->
    forall p, In p (mdPages md) -> (0 <= pgPage p)%Z ->
      parseScreenshot (pgScreenshot p) = Some (Z.of_nat (pgIndex p), pgPage p).
Proof.
  intros World V cfg m m' md H Hdir p Hin Hpos. unfold captureIaBook in H.
  rewrite bind_run in H.
  destruct (captureLoop cfg (captureUntil cfg) 0 initialVars m)
    as [[v|] m1] eqn:E; [|discriminate].
  injection H as <- <-.
  destruct (@captureLoop_effect _ _ _ _ _ _ _ _ _ E) as (new & Hp & _ & _ & _ & Hall).
  cbn [mdPages buildMetadata] in Hin. rewrite Hp in Hin.
  cbn [initialVars pages app] in Hin.
  rewrite Forall_forall in Hall. destruct (Hall p Hin) as [-> _].
  unfold parseScreenshot, exec, pathJoin. cbn [app].
  rewrite search_skips_dir by exact Hdir.
  rewrite <- (Z2Nat.id (pgPage p)) at 1 2 by exact Hpos.
  rewrite parse_fileName. now rewrite Z2Nat.id by exact Hpos.
Qed.

Lemma captured_paths_parse_back_witness :
  parseScreenshot (lit "out/book/pages/01-02.png") = Some (1%Z, 2%Z).
Proof.
  apply (@captured_paths_parse_back nat (bookViewer 1) sampleConfig
           startMachine (snd twoLeafRun) twoLeafMetadata
           ltac:(vm_compute; reflexivity) ltac:(reflexivity)
           (mkPage 1 2%Z 9999%Z (lit "out/book/pages/01-02.png"))
           ltac:(vm_compute; right; left; reflexivity)
           ltac:(vm_compute; discriminate)).
Defined.

Section FailedCapture.

Context {World : Type} {V : Viewer World}.

Variable cfg : Config.

(** When the loop throws, the images of the iterations before the throw
    are on disk. *)
Lemma captureLoop_throw (n i : nat) (v : LoopVars) (m m' : Machine World) :
  captureLoop cfg n i v m = (None, m') ->
  exists new,
    length new < n
    /\ map pgIndex new = seq i (length new)
    /\ map fst (files m') = rev (map pgScreenshot new) ++ map fst (files m)
    /\ Forall (fun p =>
                 pgScreenshot p
                 = pathJoin (pageScreenshotsDir cfg)
                            (fileName (indexPad cfg) (pgIndex p) (pgPage p)))
              new.
Proof.
  revert i v m. induction n as [|n IH]; intros i v m H.
  - cbn in H. discriminate.
  - cbn [captureLoop] in H. rewrite bind_run in H.
    pose proof (captureStep_effect cfg i v m) as He.
    destruct (captureStep cfg i v m) as [[[v1|]|] m1]; cbn [fst snd] in He.
    + destruct He as (pageNum & buf & Hp & Hfs).
      destruct (IH _ _ _ H) as (new & Hlen & Hidx & Hfiles & Hall).
      exists (mkPage i pageNum (cfgTotal cfg)
                (pathJoin (pageScreenshotsDir cfg)
                          (fileName (indexPad cfg) i pageNum)) :: new).
      split; [cbn; lia|]. split; [cbn; now rewrite Hidx|]. split.
      * rewrite Hfiles, Hfs. cbn [map rev fst pgScreenshot].
        now rewrite <- app_assoc.
      * constructor; [reflexivity|exact Hall].
    + cbn in H. discriminate.
    + injection H as <-. exists []. cbn. rewrite He.
      repeat split; auto. lia.
Qed.

End FailedCapture.

(** X22.  When the capture throws (a wait, a read of the reader state or a
    screenshot fails), the images of the iterations before the throw stay on
    disk: they are numbered 0, 1, 2, ... without a gap, there are fewer of
    them than [captureUntil], and each is under the path made of its index
    and page number. *)
Theorem failed_capture_keeps_written_images :
  forall (World : Type) (V : Viewer World) (cfg : Config)
         (m m' : Machine World),
    captureIaBook cfg m = (None, m') ->
    exists new,
      length new < captureUntil cfg
      /\ map pgIndex new = seq 0 (length new)
      /\ map fst (files m') = rev (map pgScreenshot new) ++ map fst (files m)
      /\ Forall (fun p =>
                   pgScreenshot p
                   = pathJoin (pageScreenshotsDir cfg)
                              (fileName (indexPad cfg) (pgIndex p) (pgPage p)))
                new.
Proof.
  intros World V cfg m m' H. unfold captureIaBook in H.
  rewrite bind_run in H.
  destruct (captureLoop cfg (captureUntil cfg) 0 initialVars m)
    as [[v|] m1] eqn:E; [discriminate|].
  injection H as <-.
  exact (@captureLoop_throw _ _ _ _ _ _ _ _ E).
Qed.

Lemma failed_capture_keeps_written_images_witness :
  exists new,
    length new < captureUntil sampleConfig
    /\ map pgIndex new = seq 0 (length new)
    /\ map fst (files (snd tornRun))
       = rev (map pgScreenshot new) ++ map fst (files startMachine)
    /\ Forall (fun p =>
                 pgScreenshot p
                 = pathJoin (pageScreenshotsDir sampleConfig)
                            (fileName (indexPad sampleConfig) (pgIndex p)
                                      (pgPage p)))
              new.
Proof.
  apply (@failed_capture_keeps_written_images nat tornViewer sampleConfig
           startMachine (snd tornRun)).
  vm_compute. reflexivity.
Defined.

(** ** From the capture to the book *)

Lemma In_firstn_nth (A : Type) (x : A) (k : nat) (l : list A) :
  In x (firstn k l) -> exists j, j < k /\ nth_error l j = Some x.
Proof.
  revert l. induction k as [|k IH]; intros [|a l]; cbn; try tauto.
  intros [<-|Hin].
  - exists 0. split; [lia|reflexivity].
  - destruct (IH _ Hin) as (j & Hj & Hn). exists (S j). split; [lia|exact Hn].
Qed.

(** X23.  The two programs together: when the assembler runs on a
    [content.json] that is not empty with the table of contents that the
    capture wrote, [book.md] has one section, under the title of the book,
    and every chunk of that section has a page number below the page
    number of the last captured page; whatever was read on the last
    captured page is not in the book. *)
Theorem captured_book_omits_the_last_page :
  forall (cfg : Config) (v : LoopVars) (bookMeta : BookMeta) (bookId : text)
         (content : list ContentChunk) (front : list PageChunk)
         (lastPage : PageChunk),
    pages v = front ++ [lastPage] ->
    content <> [] ->
    exists chunks,
      AssembleMain.main bookId
        (Some (Assemble.mkMetadata (Some bookMeta)
                 (Some (mdToc (buildMetadata cfg v)))))
        content
      = Some [ (match bookTitle cfg with [] => lit "Book" | t => t end,
                chunks, sectionText chunks) ]
      /\ forall c, In c chunks -> (page c < pgPage lastPage)%Z.
Proof.
  intros cfg v bookMeta bookId content front lastPage Hp Hne.
  assert (Hft : finalTotal cfg (pages v) = pgPage lastPage).
  { unfold finalTotal. rewrite Hp, rev_app_distr. reflexivity. }
  assert (AssembleMain.main bookId
            (Some (Assemble.mkMetadata (Some bookMeta)
                     (Some (mdToc (buildMetadata cfg v)))))
            content
          = Some (sections bookId
                    (Some (Assemble.mkMetadata (Some bookMeta)
                             (Some (mdToc (buildMetadata cfg v)))))
                    content)) as ->.
  { unfold AssembleMain.main. destruct content; [congruence|reflexivity]. }
  unfold sections, effectiveToc, unusable, buildMetadata.
  cbn [Assemble.meta Assemble.toc mdToc]. rewrite Hft.
  unfold sectionBounds.
  cbn [length Nat.sub sectionLoop nth_error tocPage map title].
  unfold computeNextIndex. cbn [Nat.add nth_error tocPage].
  set (cs := sortBy chunkCmp content).
  set (p := fun c : ContentChunk => (pgPage lastPage <=? page c)%Z).
  destruct (findIndex p cs) as [k|] eqn:Ek.
  - replace (k <? 0) with false by (symmetry; apply Nat.ltb_ge; lia).
    eexists. split; [reflexivity|].
    intros c Hin. unfold slice in Hin. cbn [skipn] in Hin.
    apply In_firstn_nth in Hin. destruct Hin as (j & Hj & Hn).
    destruct (findIndex_Some _ _ Ek) as (_ & Hbefore & _).
    assert (p c = false) as Hc by (apply (Hbefore j); [lia|exact Hn]).
    unfold p in Hc. apply Z.leb_gt in Hc. exact Hc.
  - replace (length cs <? 0) with false by (symmetry; apply Nat.ltb_ge; lia).
    eexists. split; [reflexivity|].
    intros c Hin. unfold slice in Hin. cbn [skipn] in Hin.
    apply In_firstn_nth in Hin. destruct Hin as (j & _ & Hn).
    apply nth_error_In in Hn.
    pose proof (findIndex_None _ _ Ek c Hn) as Hc.
    unfold p in Hc. apply Z.leb_gt in Hc. exact Hc.
Qed.

Lemma captured_book_omits_the_last_page_witness :
  exists chunks,
    AssembleMain.main (lit "book")
      (Some (Assemble.mkMetadata
               (Some (mkMeta (lit "book") (lit "A book") [lit "Unknown"]))
               (Some (mdToc (buildMetadata sampleConfig varsAfterTwoLeaves)))))
      threePages
    = Some [ (lit "A book", chunks, sectionText chunks) ]
    /\ forall c, In c chunks -> (page c < 2)%Z.
Proof.
  apply (@captured_book_omits_the_last_page sampleConfig varsAfterTwoLeaves
           (mkMeta (lit "book") (lit "A book") [lit "Unknown"]) (lit "book")
           threePages
           [mkPage 0 1%Z 9999%Z (lit "out/book/pages/00-01.png")]
           (mkPage 1 2%Z 9999%Z (lit "out/book/pages/01-02.png"))).
  - vm_compute. reflexivity.
  - discriminate.
Defined.

(** ** The table of contents of the book *)

Section ListingFacts.

Lemma skipn_nth_error (A : Type) (l : list A) (i : nat) (x : A) :
  nth_error l i = Some x -> skipn i l = x :: skipn (S i) l.
Proof.
  revert l. induction i as [|i IH]; intros [|a l]; cbn; try discriminate.
  - intros H; injection H as <-. reflexivity.
  - intros H. exact (IH _ H).
Qed.

Lemma firstn_S_nth (A : Type) (l : list A) (i : nat) (x : A) :
  nth_error l i = Some x -> firstn (S i) l = firstn i l ++ [x].
Proof.
  revert l. induction i as [|i IH]; intros [|a l]; cbn; try discriminate.
  - intros H; injection H as <-. reflexivity.
  - intros H. f_equal. exact (IH _ H).
Qed.

(** The entries of the sectioning loop are the entries with a start page
    among those that the loop visits. *)
Lemma sectionLoop_entries (cs : list ContentChunk) (toc : list TocItem)
  (n i index : nat) :
  map (fun s => fst (fst s)) (sectionLoop cs toc n i index)
  = filter hasPage (firstn n (skipn i toc)).
Proof.
  revert i index. induction n as [|n IH]; intros i index; [reflexivity|].
  cbn [sectionLoop]. destruct (nth_error toc i) as [tocItem|] eqn:E.
  - rewrite (skipn_nth_error _ _ E). cbn [firstn filter]. unfold hasPage at 1.
    destruct (tocPage tocItem); cbn [map fst]; now rewrite IH.
  - apply nth_error_None in E. now rewrite skipn_all2 by exact E.
Qed.

Lemma filterFrom_upto (A : Type) (g : A -> bool) (L i : nat) (l : list A) :
  filterFrom (fun x k => g x && (k <=? L)) i l
  = filter g (firstn (S L - i) l).
Proof.
  revert i. induction l as [|a l IH]; intros i.
  - now rewrite firstn_nil.
  - cbn [filterFrom]. rewrite IH. destruct (i <=? L) eqn:Ei.
    + apply Nat.leb_le in Ei. replace (S L - i) with (S (L - i)) by lia.
      replace (S L - S i) with (L - i) by lia.
      cbn [firstn filter]. rewrite andb_true_r. reflexivity.
    + apply Nat.leb_gt in Ei. replace (S L - i) with 0 by lia.
      replace (S L - S i) with 0 by lia. rewrite andb_false_r. reflexivity.
Qed.

(** The loop of lines 191-197 ends on an index after which no visited
    entry has a start page. *)
Lemma lastTocLoop_upto (toc : list TocItem) (n i last : nat) :
  i + n <= length toc ->
  filter hasPage (firstn (S last) toc) = filter hasPage (firstn i toc) ->
  filter hasPage (firstn (S (lastTocLoop toc n i last)) toc)
  = filter hasPage (firstn (i + n) toc).
Proof.
  revert i last. induction n as [|n IH]; intros i last Hlen Hinv.
  - cbn [lastTocLoop]. now rewrite Nat.add_0_r.
  - cbn [lastTocLoop]. destruct (nth_error toc i) as [tocItem|] eqn:E.
    2:{ apply nth_error_None in E. lia. }
    replace (i + S n) with (S i + n) by lia.
    destruct (hasPage tocItem) eqn:Ep; apply IH; try lia.
    + reflexivity.
    + rewrite Hinv, (firstn_S_nth _ _ E), filter_app. cbn [filter].
      rewrite Ep. now rewrite app_nil_r.
Qed.

End ListingFacts.

(** X24.  The table of contents of [book.md] lists exactly the entries that
    get a heading and a section, in the same order, except for a table of
    contents of a single entry with a start page: that entry is listed and
    has no section. *)
Theorem listed_entries_are_the_sectioned_ones :
  forall (contentSorted : list ContentChunk) (toc : list TocItem),
    listed toc = sectioned contentSorted toc
    <-> ~ (exists tocItem, toc = [tocItem] /\ tocPage tocItem <> None).
Proof.
  intros cs toc. unfold listed, sectioned, sectionBounds.
  rewrite sectionLoop_entries, filterFrom_upto. cbn [skipn].
  replace (S (lastTocItemIndex toc) - 0) with (S (lastTocItemIndex toc))
    by lia.
  destruct toc as [|t0 [|t1 rest]].
  - cbn. split; [|reflexivity]. intros _ (t & Ht & _). discriminate.
  - unfold lastTocItemIndex. cbn [length Nat.sub lastTocLoop firstn filter].
    unfold hasPage at 1. split.
    + intros H (t & Ht & Hpage). injection Ht as <-.
      destruct (tocPage t0); [discriminate|]. now apply Hpage.
    + intros H. destruct (tocPage t0) eqn:E; [|reflexivity].
      exfalso. apply H. exists t0. split; [reflexivity|]. congruence.
  - split; [intros _ (t & Ht & _); discriminate|]. intros _.
    unfold lastTocItemIndex.
    replace (length (t0 :: t1 :: rest) - 1) with (S (length rest))
      by (cbn [length]; lia).
    assert (lastTocLoop (t0 :: t1 :: rest) (S (length rest)) 0 0
            = lastTocLoop (t0 :: t1 :: rest) (length rest) 1 0) as ->.
    { cbn [lastTocLoop nth_error]. now destruct (hasPage t0). }
    change (S (length rest)) with (1 + length rest).
    apply (@lastTocLoop_upto (t0 :: t1 :: rest) (length rest) 1 0).
    + cbn [length]. lia.
    + reflexivity.
Qed.

(** ** The identifier of the book in the address *)

Section IaUrlFacts.

Lemma split_nonempty (sep : ascii) (s : text) : split sep s <> [].
Proof.
  destruct s as [|c s]; cbn; [discriminate|].
  destruct (Ascii.eqb c sep); [discriminate|].
  destruct (split sep s); discriminate.
Qed.

Lemma split_app (sep : ascii) (a b : text) :
  split sep (a ++ sep :: b) = split sep a ++ split sep b.
Proof.
  induction a as [|c a IH]; cbn [app split].
  - now rewrite Ascii.eqb_refl.
  - destruct (Ascii.eqb c sep); rewrite IH; [reflexivity|].
    pose proof (split_nonempty sep a) as Hne.
    destruct (split sep a); [congruence|reflexivity].
Qed.

Lemma split_whole (sep : ascii) (s : text) :
  ~ In sep s -> split sep s = [s].
Proof.
  induction s as [|c s IH]; intros Hs; [reflexivity|].
  cbn [split]. destruct (Ascii.eqb c sep) eqn:E.
  - apply Ascii.eqb_eq in E. exfalso. apply Hs. left. exact E.
  - rewrite IH; [reflexivity|]. intros Hin. apply Hs. now right.
Qed.

Lemma findIndex_app_first (A : Type) (p : A -> bool) (l1 l2 : list A) (y : A) :
  (forall x, In x l1 -> p x = false) -> p y = true ->
  findIndex p (l1 ++ y :: l2) = Some (length l1).
Proof.
  intros Hl1 Hy. induction l1 as [|a l1 IH]; cbn.
  - now rewrite Hy.
  - rewrite (Hl1 a) by now left. rewrite IH; [reflexivity|].
    intros x Hx. apply Hl1. now right.
Qed.

End IaUrlFacts.

(** X25.  [parseIaIdFromUrl] on the path of the address: when no segment
    before it is "details", the path [.../details/<id>] or
    [.../details/<id>/...] gives [<id>], the segment that follows the first
    "details"; when that segment is empty the result is [null], even if
    another "details" segment with an identifier follows. *)
Theorem parseIaIdFromPathname_reads_the_segment_after_details :
  forall (before id rest : text),
    ~ In (lit "details") (split "/"%char before) ->
    ~ In "/"%char id ->
    (rest = [] \/ exists r, rest = "/"%char :: r) ->
    parseIaIdFromPathname (before ++ lit "/details/" ++ id ++ rest)
    = if nonEmpty id then Some id else None.
Proof.
  intros before id rest Hb Hid Hrest. unfold parseIaIdFromPathname.
  change (lit "/details/" ++ id ++ rest)
    with ("/"%char :: (lit "details" ++ "/"%char :: (id ++ rest))).
  rewrite split_app, split_app.
  rewrite (@split_whole "/"%char (lit "details"))
    by (cbn; intuition discriminate).
  assert (exists tl, split "/"%char (id ++ rest) = id :: tl) as (tl & ->).
  { destruct Hrest as [->|(r & ->)].
    - rewrite app_nil_r, split_whole by exact Hid. now exists [].
    - rewrite split_app, split_whole by exact Hid. now eexists. }
  cbn [app]. rewrite findIndex_app_first.
  - rewrite nth_error_app2 by lia.
    replace (length (split "/"%char before) + 1
             - length (split "/"%char before)) with 1 by lia.
    reflexivity.
  - intros x Hx. destruct (textEqb x (lit "details")) eqn:E; [|reflexivity].
    apply textEqb_eq in E. subst x. contradiction.
  - reflexivity.
Qed.

Lemma parseIaIdFromPathname_reads_the_segment_after_details_witness :
  parseIaIdFromPathname (lit "/details/mybook00smit/page/n5/mode/1up")
  = Some (lit "mybook00smit").
Proof.
  apply (@parseIaIdFromPathname_reads_the_segment_after_details
           [] (lit "mybook00smit") (lit "/page/n5/mode/1up")).
  - cbn. intuition discriminate.
  - cbn. intuition discriminate.
  - right. eexists. reflexivity.
Defined.
